(** * The external scanner of tree-sitter-codon (src/scanner.c)

    A shallow embedding of the scanner state, of its serialization and of
    the three recognisers (end-of-input dedent, strings, line structure),
    followed by the properties the specification states about them.

    Conventions.
    - [uint16_t], [uint32_t] and [int32_t] values are integers of [Z]; every
      narrowing the C code performs is written out ([mod 2 ^ 16] when a
      32-bit width is stored in the 16-bit indent array, [mod 2 ^ 32] on the
      width counter).
    - An [Array(T)] is a list whose last element is the top ([array_back]);
      [array_push] appends and [array_pop] removes the last element.
    - [memcpy] of an integer to or from the byte buffer is little-endian
      ([le_split] and [le_combine]), the layout of the targets tree-sitter
      is built for; no property below depends on the byte order.
    - The loops of the C code are run by [loop] with a fuel bound; the
      bound used everywhere, one more than the number of code points left,
      is shown to be enough ([scan_total]). *)

From Stdlib Require Import ZArith List Lia Bool Ascii.
From Stdlib Require String.
From coqutil Require Import Byte Word.LittleEndianList.
Import ListNotations.
Import String.StringSyntax.
Local Open Scope Z_scope.

(** ** Tokens and scanner state *)

Inductive TokenType : Type :=
| NEWLINE
| INDENT
| DEDENT
| STRING_START
| STRING_CONTENT
| ESCAPE_INTERPOLATION
| STRING_END
| EXTERN_CONTENT
| PREC.

Definition TokenType_eqb (a b : TokenType) : bool :=
  match a, b with
  | NEWLINE, NEWLINE | INDENT, INDENT | DEDENT, DEDENT
  | STRING_START, STRING_START | STRING_CONTENT, STRING_CONTENT
  | ESCAPE_INTERPOLATION, ESCAPE_INTERPOLATION | STRING_END, STRING_END
  | EXTERN_CONTENT, EXTERN_CONTENT | PREC, PREC => true
  | _, _ => false
  end.

(** [const bool *valid_symbols], indexed by the enumeration. *)
Definition valid_set : Type := TokenType -> bool.

Definition accepts (l : list TokenType) : valid_set :=
  fun t => existsb (TokenType_eqb t) l.

Record Scanner : Type := mkScanner {
  indents : list Z;          (* Array(uint16_t) *)
  delimiters : list Z;       (* Array(int32_t)  *)
  inside_f_string : bool
}.

Definition array_back (a : list Z) : Z := last a 0.
Definition array_push (a : list Z) (x : Z) : list Z := a ++ [x].
Definition array_pop (a : list Z) : list Z := removelast a.
Definition array_size (a : list Z) : Z := Z.of_nat (length a).

Definition uint16 (z : Z) : Z := z mod 2 ^ 16.
Definition uint32 (z : Z) : Z := z mod 2 ^ 32.
Definition int32 (z : Z) : Z := (z + 2 ^ 31) mod 2 ^ 32 - 2 ^ 31.

Definition set_indents (s : Scanner) (l : list Z) : Scanner :=
  mkScanner l (delimiters s) (inside_f_string s).
Definition set_delimiters (s : Scanner) (l : list Z) : Scanner :=
  mkScanner (indents s) l (inside_f_string s).
Definition set_inside_f_string (s : Scanner) (b : bool) : Scanner :=
  mkScanner (indents s) (delimiters s) b.

Definition tree_sitter_codon_external_scanner_create : Scanner :=
  mkScanner [] [] false.

(** ** Serialization *)

Section Serialization.

(** The capacity of the serialization buffer.  tree_sitter/parser.h, which
    defines the macro, is not among the sources: it is a parameter here. *)
Variable TREE_SITTER_SERIALIZATION_BUFFER_SIZE : Z.

Definition buffer_size (buffer : list byte) : Z := Z.of_nat (length buffer).

(** The two [for] loops of [serialize]; [buffer] holds the [size] bytes
    written so far, [None] is the [return 0] of the capacity check. *)
Fixpoint serialize_indents (l : list Z) (buffer : list byte)
  : option (list byte) :=
  match l with
  | [] => Some buffer
  | indent :: l' =>
      if buffer_size buffer + 2 >? TREE_SITTER_SERIALIZATION_BUFFER_SIZE
      then None
      else serialize_indents l' (buffer ++ le_split 2 indent)
  end.

Fixpoint serialize_delimiters (l : list Z) (buffer : list byte)
  : option (list byte) :=
  match l with
  | [] => Some buffer
  | delim :: l' =>
      if buffer_size buffer + 4 >? TREE_SITTER_SERIALIZATION_BUFFER_SIZE
      then None
      else serialize_delimiters l' (buffer ++ le_split 4 delim)
  end.

(** The result is the written prefix of the buffer, of the returned length;
    the empty list is the zero-length result. *)
Definition tree_sitter_codon_external_scanner_serialize (scanner : Scanner)
  : list byte :=
  let buffer := [] in
  let indent_count := uint32 (array_size (indents scanner)) in
  if buffer_size buffer + 4 >? TREE_SITTER_SERIALIZATION_BUFFER_SIZE then []
  else
  let buffer := buffer ++ le_split 4 indent_count in
  match serialize_indents (indents scanner) buffer with
  | None => []
  | Some buffer =>
  let delim_count := uint32 (array_size (delimiters scanner)) in
  if buffer_size buffer + 4 >? TREE_SITTER_SERIALIZATION_BUFFER_SIZE then []
  else
  let buffer := buffer ++ le_split 4 delim_count in
  match serialize_delimiters (delimiters scanner) buffer with
  | None => []
  | Some buffer =>
  if buffer_size buffer + 1 >? TREE_SITTER_SERIALIZATION_BUFFER_SIZE then []
  else buffer ++ [if inside_f_string scanner then Byte.x01 else Byte.x00]
  end
  end.

End Serialization.

(** The two [for] loops of [deserialize].  [buffer] is the part of the
    input not read yet ([&buffer[size]], of [length - size] bytes), so the
    guard [size + n > length] reads "fewer than [n] bytes left".  The
    second component is [None] when the guard returned from the function
    and the rest of the buffer when the loop ran to its end. *)
Fixpoint deserialize_indents (buffer : list byte) (i indent_count : Z)
  (acc : list Z) {struct buffer} : list Z * option (list byte) :=
  if i <? indent_count then
    match buffer with
    | b0 :: b1 :: rest =>
        let indent := le_combine [b0; b1] in
        deserialize_indents rest (i + 1) indent_count (array_push acc indent)
    | _ => (acc, None)
    end
  else (acc, Some buffer).

Fixpoint deserialize_delimiters (buffer : list byte) (i delim_count : Z)
  (acc : list Z) {struct buffer} : list Z * option (list byte) :=
  if i <? delim_count then
    match buffer with
    | b0 :: b1 :: b2 :: b3 :: rest =>
        let delim := int32 (le_combine [b0; b1; b2; b3]) in
        deserialize_delimiters rest (i + 1) delim_count (array_push acc delim)
    | _ => (acc, None)
    end
  else (acc, Some buffer).

(** The second half of [deserialize], from the delimiter count on. *)
Definition deserialize_from_delimiters (scanner : Scanner)
  (buffer : list byte) : Scanner :=
  match buffer with
  | b0 :: b1 :: b2 :: b3 :: buffer =>
      let delim_count := le_combine [b0; b1; b2; b3] in
      match deserialize_delimiters buffer 0 delim_count
              (delimiters scanner) with
      | (del, None) => set_delimiters scanner del
      | (del, Some buffer) =>
          let scanner := set_delimiters scanner del in
          match buffer with
          | b :: _ => set_inside_f_string scanner (byte.unsigned b =? 1)
          | [] => scanner                           (* size + 1 > length *)
          end
      end
  | _ => scanner                                    (* fewer than 4 bytes *)
  end.

Definition tree_sitter_codon_external_scanner_deserialize
  (scanner : Scanner) (buffer : list byte) : Scanner :=
  let scanner := mkScanner [] [] false in
  match buffer with
  | [] => scanner                                   (* length == 0 *)
  | b0 :: b1 :: b2 :: b3 :: buffer =>
      let indent_count := le_combine [b0; b1; b2; b3] in
      match deserialize_indents buffer 0 indent_count (indents scanner) with
      | (ind, None) => set_indents scanner ind
      | (ind, Some buffer) =>
          deserialize_from_delimiters (set_indents scanner ind) buffer
      end
  | _ => scanner                                    (* fewer than 4 bytes *)
  end.

(** ** The lexer handed to the scanner *)

(** Modelled from the spec: the cursor capability of section 6 (the
    [TSLexer] of tree_sitter/parser.h, which is not among the sources):
    peek the current code point, advance by one code point either as part
    of the token or as skipped text, mark the current position as the end
    of the token, and the end-of-input predicate.  [input] holds the code
    points from the cursor to the end of the input, [position] counts the
    code points passed since the call began.  The lookahead is 0 at the end
    of input, where advancing does nothing; a NUL code point inside the
    input also reads as 0 but is not the end of input. *)
Record TSLexer : Type := mkLexer {
  input : list Z;
  position : Z;
  token_start : Z;
  token_end : option Z;
  result_symbol : TokenType
}.

Definition lookahead (lexer : TSLexer) : Z :=
  match input lexer with
  | [] => 0
  | c :: _ => c
  end.

Definition eof (lexer : TSLexer) : bool :=
  match input lexer with
  | [] => true
  | _ :: _ => false
  end.

Definition lexer_advance (lexer : TSLexer) (skip : bool) : TSLexer :=
  match input lexer with
  | [] => lexer
  | _ :: rest =>
      mkLexer rest (position lexer + 1)
        (if skip then position lexer + 1 else token_start lexer)
        (token_end lexer) (result_symbol lexer)
  end.

Definition mark_end (lexer : TSLexer) : TSLexer :=
  mkLexer (input lexer) (position lexer) (token_start lexer)
    (Some (position lexer)) (result_symbol lexer).

Definition set_result_symbol (lexer : TSLexer) (t : TokenType) : TSLexer :=
  mkLexer (input lexer) (position lexer) (token_start lexer)
    (token_end lexer) t.

(** A lexer at the start of a call on the given input. *)
Definition lexer_start (cs : list Z) : TSLexer :=
  mkLexer cs 0 0 None NEWLINE.

Definition advance (lexer : TSLexer) : TSLexer := lexer_advance lexer false.
Definition skip (lexer : TSLexer) : TSLexer := lexer_advance lexer true.

(** Character constants of the C source. *)
Definition chr (c : ascii) : Z := Z.of_N (N_of_ascii c).

Definition is_space (c : Z) : bool :=
  (c =? chr " ") || (c =? chr "009").

Definition is_newline (c : Z) : bool :=
  (c =? chr "010") || (c =? chr "013").

(** ** Loops *)

Inductive loop_step (A R : Type) : Type :=
| Continue (a : A)
| Exit (r : R).
Arguments Continue {A R} a.
Arguments Exit {A R} r.

(** [loop fuel body a] runs [body] from [a] until it exits; [None] when
    the fuel runs out first. *)
Fixpoint loop {A R : Type} (fuel : nat) (body : A -> loop_step A R) (a : A)
  : option R :=
  match fuel with
  | O => None
  | S fuel' =>
      match body a with
      | Continue a' => loop fuel' body a'
      | Exit r => Some r
      end
  end.

(** Every loop of the scanner passes at least one code point per
    iteration: one more than the code points left is fuel enough. *)
Definition fuel_of (lexer : TSLexer) : nat := S (length (input lexer)).

Definition bind {A B : Type} (m : option A) (k : A -> option B) : option B :=
  match m with
  | Some a => k a
  | None => None
  end.

Notation "x <- m ;; k" := (bind m (fun x => k))
  (at level 61, m at next level, right associativity).
Notation "' p <- m ;; k" := (bind m (fun x => let p := x in k))
  (at level 61, p pattern, m at next level, right associativity).

(** What a scan function hands back: its boolean result and the scanner
    and lexer as it left them. *)
Definition scan_result : Type := bool * Scanner * TSLexer.

(** ** Line structure: [scan_newline] *)

(** [while (is_space(lexer->lookahead)) skip(lexer);] *)
Definition skip_spaces_step (lexer : TSLexer) : loop_step TSLexer TSLexer :=
  if is_space (lookahead lexer) then Continue (skip lexer) else Exit lexer.

(** [while (lookahead != '\n' && lookahead != '\r' && lookahead != 0) skip;] *)
Definition skip_comment_step (lexer : TSLexer) : loop_step TSLexer TSLexer :=
  if negb (lookahead lexer =? chr "010") && negb (lookahead lexer =? chr "013")
     && negb (lookahead lexer =? 0)
  then Continue (skip lexer) else Exit lexer.

(** [while (is_space(lexer->lookahead)) { indent++; skip(lexer); }] *)
Definition count_indent_step (st : Z * TSLexer)
  : loop_step (Z * TSLexer) (Z * TSLexer) :=
  let '(indent, lexer) := st in
  if is_space (lookahead lexer)
  then Continue (uint32 (indent + 1), skip lexer)
  else Exit st.

(** [while (!is_newline(lookahead) && lookahead != 0) skip(lexer);] *)
Definition skip_line_step (lexer : TSLexer) : loop_step TSLexer TSLexer :=
  if negb (is_newline (lookahead lexer)) && negb (lookahead lexer =? 0)
  then Continue (skip lexer) else Exit lexer.

(** The body of the loop over blank and comment lines; its result is
    [None] when the fuel of an inner loop runs out. *)
Definition blank_lines_body (st : Z * TSLexer) : option (Z * TSLexer) :=
  let '(_, lexer) := st in
  lexer <- (if lookahead lexer =? chr "#"
            then loop (fuel_of lexer) skip_line_step lexer
            else Some lexer) ;;
  let lexer :=
    if is_newline (lookahead lexer) then
      let lexer := skip lexer in
      if lookahead lexer =? chr "010" then skip lexer else lexer
    else lexer in
  loop (fuel_of lexer) count_indent_step (0, lexer).

Definition blank_lines_step (st : Z * TSLexer)
  : loop_step (Z * TSLexer) (option (Z * TSLexer)) :=
  let '(_, lexer) := st in
  if is_newline (lookahead lexer) || (lookahead lexer =? chr "#") then
    match blank_lines_body st with
    | Some st' => Continue st'
    | None => Exit None
    end
  else Exit (Some st).

(** The width the tracker measures once the line terminator is consumed:
    the leading spaces and tabs of the next line that is neither blank nor
    a comment, and the lexer in front of that line's first other code
    point. *)
Definition measure_indent (lexer : TSLexer) : option (Z * TSLexer) :=
  st <- loop (fuel_of lexer) count_indent_step (0, lexer) ;;
  r <- loop (fuel_of (snd st)) blank_lines_step st ;;
  r.

(** The part of [scan_newline] up to and including the line terminator:
    [inl] is the [return false] of a missing terminator, [inr] the lexer
    marked behind the terminator. *)
Definition consume_newline (lexer : TSLexer)
  : option (TSLexer + TSLexer) :=
  lexer <- loop (fuel_of lexer) skip_spaces_step lexer ;;
  lexer <- (if lookahead lexer =? chr "#"
            then loop (fuel_of lexer) skip_comment_step lexer
            else Some lexer) ;;
  if negb (is_newline (lookahead lexer)) then Some (inl lexer)
  else
    let lexer := advance lexer in
    let lexer := if lookahead lexer =? chr "010" then advance lexer
                 else lexer in
    let lexer := set_result_symbol lexer NEWLINE in
    Some (inr (mark_end lexer)).

(** The comparison with the top of the indent stack that ends
    [scan_newline].  [indent] is a [uint32_t]; the indent array holds
    [uint16_t], so the pushed value is narrowed. *)
Definition indent_decision (scanner : Scanner) (lexer : TSLexer)
  (valid_symbols : valid_set) (indent : Z) : scan_result :=
  let current_indent :=
    if array_size (indents scanner) >? 0
    then array_back (indents scanner) else 0 in
  if (indent >? current_indent) && valid_symbols INDENT then
    (true,
     set_indents scanner (array_push (indents scanner) (uint16 indent)),
     set_result_symbol lexer INDENT)
  else if (indent <? current_indent) && valid_symbols DEDENT then
    (true,
     set_indents scanner (array_pop (indents scanner)),
     set_result_symbol lexer DEDENT)
  else (valid_symbols NEWLINE, scanner, lexer).

Definition scan_newline (scanner : Scanner) (lexer : TSLexer)
  (valid_symbols : valid_set) : option scan_result :=
  r <- consume_newline lexer ;;
  match r with
  | inl lexer => Some (false, scanner, lexer)
  | inr lexer =>
      '(indent, lexer) <- measure_indent lexer ;;
      Some (indent_decision scanner lexer valid_symbols indent)
  end.

(** ** Strings: [scan_string] *)

Record prefix_state : Type := mkPrefix {
  p_raw : bool;
  p_format : bool;
  p_bytes : bool;
  p_lexer : TSLexer
}.

(** The loop over the prefix letters r, f, b and u of either case. *)
Definition prefix_step (st : prefix_state)
  : loop_step prefix_state prefix_state :=
  let lexer := p_lexer st in
  let c := lookahead lexer in
  if (c =? chr "r") || (c =? chr "R") then
    Continue (mkPrefix true (p_format st) (p_bytes st) (advance lexer))
  else if (c =? chr "f") || (c =? chr "F") then
    Continue (mkPrefix (p_raw st) true (p_bytes st) (advance lexer))
  else if (c =? chr "b") || (c =? chr "B") then
    Continue (mkPrefix (p_raw st) (p_format st) true (advance lexer))
  else if (c =? chr "u") || (c =? chr "U") then
    Continue (mkPrefix (p_raw st) (p_format st) (p_bytes st) (advance lexer))
  else Exit st.

(** A block of the function either returns or falls through to the next
    block with the lexer as it left it. *)
Inductive flow : Type :=
| Returned (r : scan_result)
| Fallthrough (lexer : TSLexer).

Definition make_delimiter (quote_char : Z) (is_triple is_raw is_format : bool)
  : Z :=
  Z.lor (Z.lor (Z.lor quote_char (if is_triple then 256 else 0))
               (if is_raw then 512 else 0))
        (if is_format then 1024 else 0).

Definition delim_quote_char (delim : Z) : Z := Z.land delim 255.
Definition delim_is_triple (delim : Z) : bool := negb (Z.land delim 256 =? 0).
Definition delim_is_raw (delim : Z) : bool := negb (Z.land delim 512 =? 0).
Definition delim_is_format (delim : Z) : bool := negb (Z.land delim 1024 =? 0).

(** The block guarded by [valid_symbols[STRING_START]]. *)
Definition scan_string_start (scanner : Scanner) (lexer : TSLexer)
  (valid_symbols : valid_set) : option flow :=
  if valid_symbols STRING_START then
    st <- loop (fuel_of lexer) prefix_step (mkPrefix false false false lexer) ;;
    let lexer := p_lexer st in
    if (lookahead lexer =? chr "034") || (lookahead lexer =? chr "'") then
      let quote_char := lookahead lexer in
      let lexer := advance lexer in
      let open (is_triple : bool) (lexer : TSLexer) :=
        let lexer := mark_end lexer in
        let lexer := set_result_symbol lexer STRING_START in
        let delim :=
          make_delimiter quote_char is_triple (p_raw st) (p_format st) in
        let scanner :=
          set_delimiters scanner (array_push (delimiters scanner) delim) in
        let scanner := set_inside_f_string scanner (p_format st) in
        Some (Returned (true, scanner, lexer)) in
      if lookahead lexer =? quote_char then
        let lexer := advance lexer in
        if lookahead lexer =? quote_char then
          open true (advance lexer)
        else
          (* the empty string: no delimiter is pushed *)
          let lexer := mark_end lexer in
          Some (Returned (true, scanner, set_result_symbol lexer STRING_START))
      else open false lexer
    else Some (Fallthrough lexer)
  else Some (Fallthrough lexer).

(** How the content loop ends: [break], or a [return] from inside it. *)
Inductive content_exit : Type :=
| Break (lexer : TSLexer) (has_content : bool)
| Return (result : bool) (lexer : TSLexer).

(** One iteration of the [while (true)] of the content block. *)
Definition content_step (quote_char : Z) (is_triple is_raw is_format : bool)
  (st : TSLexer * bool) : loop_step (TSLexer * bool) content_exit :=
  let '(lexer, has_content) := st in
  if lookahead lexer =? 0 then Exit (Break lexer has_content)
  else if lookahead lexer =? quote_char then
    if is_triple then
      let lexer := mark_end lexer in
      let lexer := advance lexer in
      if lookahead lexer =? quote_char then
        let lexer := advance lexer in
        if lookahead lexer =? quote_char then
          if has_content
          then Exit (Return true (set_result_symbol lexer STRING_CONTENT))
          else Exit (Break lexer has_content)
        else Continue (lexer, true)
      else Continue (lexer, true)
    else Exit (Break lexer has_content)
  else if negb is_triple && is_newline (lookahead lexer) then
    Exit (Break lexer has_content)
  else if is_format && (lookahead lexer =? chr "{") then
    if has_content then
      let lexer := mark_end lexer in
      Exit (Return true (set_result_symbol lexer STRING_CONTENT))
    else
      let lexer := advance lexer in
      if lookahead lexer =? chr "{" then
        let lexer := advance lexer in
        let lexer := mark_end lexer in
        Exit (Return true (set_result_symbol lexer ESCAPE_INTERPOLATION))
      else Exit (Return false lexer)
  else if negb is_raw && (lookahead lexer =? chr "\") then
    let lexer := advance lexer in
    let lexer := if negb (lookahead lexer =? 0) then advance lexer
                 else lexer in
    Continue (lexer, true)
  else Continue (advance lexer, true).

(** The block guarded by [valid_symbols[STRING_CONTENT]] and an open
    delimiter. *)
Definition scan_string_content (scanner : Scanner) (lexer : TSLexer)
  (valid_symbols : valid_set) : option flow :=
  if valid_symbols STRING_CONTENT && (array_size (delimiters scanner) >? 0)
  then
    let delim := array_back (delimiters scanner) in
    let quote_char := delim_quote_char delim in
    let is_triple := delim_is_triple delim in
    let is_raw := delim_is_raw delim in
    let is_format := delim_is_format delim in
    e <- loop (fuel_of lexer)
           (content_step quote_char is_triple is_raw is_format)
           (lexer, false) ;;
    match e with
    | Return b lexer => Some (Returned (b, scanner, lexer))
    | Break lexer has_content =>
        if has_content then
          let lexer := mark_end lexer in
          Some (Returned
                  (true, scanner, set_result_symbol lexer STRING_CONTENT))
        else Some (Fallthrough lexer)
    end
  else Some (Fallthrough lexer).

(** The block guarded by [valid_symbols[STRING_END]] and an open
    delimiter, and the final [return false]. *)
Definition scan_string_end (scanner : Scanner) (lexer : TSLexer)
  (valid_symbols : valid_set) : scan_result :=
  if valid_symbols STRING_END && (array_size (delimiters scanner) >? 0)
  then
    let delim := array_back (delimiters scanner) in
    let quote_char := delim_quote_char delim in
    let is_triple := delim_is_triple delim in
    if lookahead lexer =? quote_char then
      let lexer := advance lexer in
      let close (lexer : TSLexer) : scan_result :=
        let lexer := mark_end lexer in
        let lexer := set_result_symbol lexer STRING_END in
        let scanner :=
          set_delimiters scanner (array_pop (delimiters scanner)) in
        let scanner :=
          set_inside_f_string scanner
            ((array_size (delimiters scanner) >? 0)
             && delim_is_format (array_back (delimiters scanner))) in
        (true, scanner, lexer) in
      if is_triple then
        if lookahead lexer =? quote_char then
          let lexer := advance lexer in
          if lookahead lexer =? quote_char then close (advance lexer)
          else (false, scanner, lexer)
        else (false, scanner, lexer)
      else close lexer
    else (false, scanner, lexer)
  else (false, scanner, lexer).

Definition scan_string (scanner : Scanner) (lexer : TSLexer)
  (valid_symbols : valid_set) : option scan_result :=
  f <- scan_string_start scanner lexer valid_symbols ;;
  match f with
  | Returned r => Some r
  | Fallthrough lexer =>
      f <- scan_string_content scanner lexer valid_symbols ;;
      match f with
      | Returned r => Some r
      | Fallthrough lexer =>
          Some (scan_string_end scanner lexer valid_symbols)
      end
  end.

(** ** The dispatcher *)

Definition tree_sitter_codon_external_scanner_scan (scanner : Scanner)
  (lexer : TSLexer) (valid_symbols : valid_set) : option scan_result :=
  if valid_symbols DEDENT && (array_size (indents scanner) >? 0)
     && eof lexer
  then
    Some (true, set_indents scanner (array_pop (indents scanner)),
          set_result_symbol lexer DEDENT)
  else
    '(b, scanner, lexer) <-
      (if valid_symbols STRING_START || valid_symbols STRING_CONTENT
          || valid_symbols STRING_END || valid_symbols ESCAPE_INTERPOLATION
       then scan_string scanner lexer valid_symbols
       else Some (false, scanner, lexer)) ;;
    if b then Some (true, scanner, lexer)
    else
      '(b, scanner, lexer) <-
        (if valid_symbols NEWLINE || valid_symbols INDENT
            || valid_symbols DEDENT
         then scan_newline scanner lexer valid_symbols
         else Some (false, scanner, lexer)) ;;
      if b then Some (true, scanner, lexer)
      else Some (false, scanner, lexer).

(** ** Reading the outcome of a call *)

(** Modelled from the spec: what the caller makes of a successful call
    (section 6; the runtime's side of [TSLexer] is not among the sources).
    The token ends at the marked position, or at the cursor when none was
    marked; it starts behind the skipped text, and is empty when that is
    behind its end; the next call starts at its end.  These serve the
    scenarios of the specification only. *)
Definition token_end_position (lexer : TSLexer) : Z :=
  match token_end lexer with
  | Some e => e
  | None => position lexer
  end.

Definition token_text (cs : list Z) (lexer : TSLexer) : list Z :=
  firstn (Z.to_nat (token_end_position lexer - token_start lexer))
    (skipn (Z.to_nat (token_start lexer)) cs).

Definition rest_after (cs : list Z) (lexer : TSLexer) : list Z :=
  skipn (Z.to_nat (token_end_position lexer)) cs.

(** Successive calls, one per set of acceptable kinds, each starting where
    the token of the one before ended; the run stops at the first call
    that reports no match.  The result lists the tokens (kind and text),
    the scanner state and the input left. *)
Fixpoint scan_sequence (vs : list valid_set) (scanner : Scanner)
  (cs : list Z) : option (list (TokenType * list Z) * Scanner * list Z) :=
  match vs with
  | [] => Some ([], scanner, cs)
  | v :: vs' =>
      '(b, scanner', lexer') <-
        tree_sitter_codon_external_scanner_scan scanner (lexer_start cs) v ;;
      if b then
        '(toks, scanner'', rest) <-
          scan_sequence vs' scanner' (rest_after cs lexer') ;;
        Some ((result_symbol lexer', token_text cs lexer') :: toks,
              scanner'', rest)
      else Some ([], scanner, cs)
  end.

(** The code points of a string literal of the development. *)
Fixpoint codes (s : String.string) : list Z :=
  match s with
  | String.EmptyString => []
  | String.String c s' => chr c :: codes s'
  end.

Delimit Scope string_scope with string.
Arguments codes s%_string.

(** A run of [n] spaces. *)
Definition spaces (n : Z) : list Z := repeat (chr " ") (Z.to_nat n).

(** ** The states a parse can be in *)

(** The scanner states reachable from the initial one by scan calls
    (whatever the input, the acceptable kinds and the result). *)
Inductive reachable : Scanner -> Prop :=
| reachable_create : reachable tree_sitter_codon_external_scanner_create
| reachable_scan s lexer valid_symbols b s' lexer' :
    reachable s ->
    tree_sitter_codon_external_scanner_scan s lexer valid_symbols
      = Some (b, s', lexer') ->
    reachable s'.

(** The states reachable by calls on inputs of fewer than [n] code
    points each. *)
Inductive reachable_within (n : Z) : Scanner -> Prop :=
| reachable_within_create :
    reachable_within n tree_sitter_codon_external_scanner_create
| reachable_within_scan s lexer valid_symbols b s' lexer' :
    reachable_within n s ->
    Z.of_nat (length (input lexer)) < n ->
    tree_sitter_codon_external_scanner_scan s lexer valid_symbols
      = Some (b, s', lexer') ->
    reachable_within n s'.

(** What the C types promise of a state: 16-bit widths, 32-bit signed
    descriptors. *)
Definition well_typed (s : Scanner) : Prop :=
  Forall (fun x => 0 <= x < 2 ^ 16) (indents s) /\
  Forall (fun d => - 2 ^ 31 <= d < 2 ^ 31) (delimiters s).

(** Widths strictly increasing from the bottom of the stack to its top. *)
Fixpoint strictly_increasing (l : list Z) : bool :=
  match l with
  | a :: (b :: _) as t => (a <? b) && strictly_increasing t
  | _ => true
  end.

(** The value the interpolation flag is derived from: the format flag of
    the top delimiter, false without one. *)
Definition top_format_flag (s : Scanner) : bool :=
  (array_size (delimiters s) >? 0)
  && delim_is_format (array_back (delimiters s)).

(** The effect of a call on the scanner state, by its result and the kind
    it reports. *)
Inductive effect (s : Scanner) : bool -> TokenType -> Scanner -> Prop :=
| effect_fail t : effect s false t s
| effect_newline : effect s true NEWLINE s
| effect_indent w :
    w > (if array_size (indents s) >? 0 then array_back (indents s) else 0) ->
    effect s true INDENT
      (set_indents s (array_push (indents s) (uint16 w)))
| effect_dedent :
    indents s <> [] ->
    effect s true DEDENT (set_indents s (array_pop (indents s)))
| effect_string_empty : effect s true STRING_START s
| effect_string_start q is_triple is_raw is_format :
    q = chr "034" \/ q = chr "'" ->
    effect s true STRING_START
      (mkScanner (indents s)
         (array_push (delimiters s)
            (make_delimiter q is_triple is_raw is_format))
         is_format)
| effect_string_content : effect s true STRING_CONTENT s
| effect_escape_interpolation : effect s true ESCAPE_INTERPOLATION s
| effect_string_end :
    delimiters s <> [] ->
    effect s true STRING_END
      (mkScanner (indents s) (array_pop (delimiters s))
         (top_format_flag (set_delimiters s (array_pop (delimiters s))))).

(** ** Auxiliary notions *)

(** The lexer a block of [scan_string] leaves. *)
Definition flow_lexer (f : flow) : TSLexer :=
  match f with
  | Returned (_, _, l) => l
  | Fallthrough l => l
  end.

(** The code points left in front of the cursor. *)
Definition remaining (lexer : TSLexer) : nat := length (input lexer).

(** The byte layout of a state: a 32-bit count and that many 16-bit
    widths, a 32-bit count and that many 32-bit descriptors, one byte for
    the interpolation flag. *)
Definition encode_indents (l : list Z) : list byte := flat_map (le_split 2) l.
Definition encode_delimiters (l : list Z) : list byte :=
  flat_map (le_split 4) l.

Definition layout (s : Scanner) : list byte :=
  le_split 4 (uint32 (array_size (indents s)))
  ++ encode_indents (indents s)
  ++ le_split 4 (uint32 (array_size (delimiters s)))
  ++ encode_delimiters (delimiters s)
  ++ [if inside_f_string s then Byte.x01 else Byte.x00].

(** A delimiter whose quote character is one of the two that STRING_START
    accepts. *)
Definition quote_ok (d : Z) : Prop :=
  delim_quote_char d = chr "034" \/ delim_quote_char d = chr "'".

(** The first code point of a text, 0 for the empty one: what the lexer
    shows as its lookahead. *)
Definition head_code (cs : list Z) : Z :=
  match cs with
  | [] => 0
  | c :: _ => c
  end.

(** [n] code points skipped, or advanced over, one after the other. *)
Definition skips (n : nat) (lexer : TSLexer) : TSLexer := Nat.iter n skip lexer.
Definition advances (n : nat) (lexer : TSLexer) : TSLexer :=
  Nat.iter n advance lexer.

(** A code point inside a line: neither a line terminator nor NUL. *)
Definition not_eol (c : Z) : bool :=
  negb (c =? chr "010") && negb (c =? chr "013") && negb (c =? 0).

(** A text that starts a line with content, or is empty: its first code
    point is no blank, no line terminator and no comment sign. *)
Definition line_start (cs : list Z) : bool :=
  negb (is_space (head_code cs)) && negb (is_newline (head_code cs))
  && negb (head_code cs =? chr "#").

(** Lines without content: each holds blanks, an optional comment and one
    line terminator code point.  CR LF reads as a line ended by CR and an
    empty line ended by LF. *)
Inductive blank_lines : list Z -> Prop :=
| blank_lines_nil : blank_lines []
| blank_lines_cons ws cmt c rest :
    Forall (fun x => is_space x = true) ws ->
    Forall (fun x => not_eol x = true) cmt ->
    cmt = [] \/ head_code cmt = chr "#" ->
    is_newline c = true ->
    blank_lines rest ->
    blank_lines (ws ++ cmt ++ c :: rest).

(** The prefix letters of a string literal and the flags a run of them
    sets. *)
Definition is_prefix_letter (c : Z) : bool :=
  (c =? chr "r") || (c =? chr "R") || (c =? chr "f") || (c =? chr "F")
  || (c =? chr "b") || (c =? chr "B") || (c =? chr "u") || (c =? chr "U").

Definition has_raw (letters : list Z) : bool :=
  existsb (fun c => (c =? chr "r") || (c =? chr "R")) letters.
Definition has_format (letters : list Z) : bool :=
  existsb (fun c => (c =? chr "f") || (c =? chr "F")) letters.
Definition has_bytes (letters : list Z) : bool :=
  existsb (fun c => (c =? chr "b") || (c =? chr "B")) letters.

(** A code point the content loop of a string with quote [q] and the given
    flags, not triple-quoted, passes as one ordinary code point. *)
Definition plain (q : Z) (is_raw is_format : bool) (c : Z) : bool :=
  negb (c =? 0) && negb (c =? q) && negb (is_newline c)
  && negb (is_format && (c =? chr "{"))
  && negb (negb is_raw && (c =? chr "\")).

(** A code point the content loop of a triple-quoted string passes as one
    ordinary code point: line terminators are among them. *)
Definition plain_triple (q : Z) (is_raw is_format : bool) (c : Z) : bool :=
  negb (c =? 0) && negb (c =? q)
  && negb (is_format && (c =? chr "{"))
  && negb (negb is_raw && (c =? chr "\")).

(** A piece of the content of a triple-quoted string: an ordinary code
    point, alone or behind one or two quotes. *)
Definition triple_chunk (q : Z) (is_raw is_format : bool) (chunk : list Z)
  : bool :=
  match chunk with
  | [c] => plain_triple q is_raw is_format c
  | [a; c] => (a =? q) && plain_triple q is_raw is_format c
  | [a; b; c] => (a =? q) && (b =? q) && plain_triple q is_raw is_format c
  | _ => false
  end.

(** Two lexers that differ at most in the marked end of the token. *)
Definition same_cursor (l1 l2 : TSLexer) : Prop :=
  input l1 = input l2 /\ position l1 = position l2
  /\ token_start l1 = token_start l2
  /\ result_symbol l1 = result_symbol l2.

(** What STRING_END leaves: the delimiter stack without its top, the
    flag recomputed from the new top. *)
Definition closed (s : Scanner) : Scanner :=
  mkScanner (indents s) (array_pop (delimiters s))
    (top_format_flag (set_delimiters s (array_pop (delimiters s)))).

(** * Properties *)

(** ** Loops and fuel *)

Section Loop.
Context {A R : Type} (body : A -> loop_step A R).

Lemma loop_unfold fuel a :
  loop (S fuel) body a =
  match body a with
  | Continue a' => loop fuel body a'
  | Exit r => Some r
  end.
Proof. reflexivity. Qed.

(** A loop that ends did so from a state the invariant holds of. *)
Lemma loop_invariant (P : A -> Prop) :
  (forall x y, P x -> body x = Continue y -> P y) ->
  forall fuel a r,
    P a -> loop fuel body a = Some r -> exists x, P x /\ body x = Exit r.
Proof.
  intros Hstep fuel.
  induction fuel as [|fuel IH]; intros a r Ha Hloop; [discriminate|].
  rewrite loop_unfold in Hloop.
  destruct (body a) as [a'|r'] eqn:Hb.
  - apply (IH a'); eauto.
  - injection Hloop as <-. eauto.
Qed.

(** A measure that every iteration lowers bounds the fuel needed. *)
Lemma loop_terminates (m : A -> nat) :
  (forall x y, body x = Continue y -> (m y < m x)%nat) ->
  forall fuel a, (m a < fuel)%nat -> exists r, loop fuel body a = Some r.
Proof.
  intros Hdec fuel.
  induction fuel as [|fuel IH]; intros a Hlt; [lia|].
  rewrite loop_unfold.
  destruct (body a) as [a'|r] eqn:Hb; [|eauto].
  apply IH. specialize (Hdec _ _ Hb). lia.
Qed.

End Loop.

(** ** The lexer *)

Lemma lookahead_nonzero_advance lexer skip :
  lookahead lexer <> 0 ->
  S (remaining (lexer_advance lexer skip)) = remaining lexer.
Proof.
  unfold lookahead, lexer_advance, remaining.
  destruct (input lexer) eqn:E; simpl; congruence.
Qed.

Lemma remaining_advance_le lexer skip :
  (remaining (lexer_advance lexer skip) <= remaining lexer)%nat.
Proof.
  unfold lexer_advance, remaining.
  destruct (input lexer) eqn:E; simpl; rewrite ?E; simpl; lia.
Qed.

Lemma remaining_mark_end lexer : remaining (mark_end lexer) = remaining lexer.
Proof. reflexivity. Qed.

Lemma remaining_set_result_symbol lexer t :
  remaining (set_result_symbol lexer t) = remaining lexer.
Proof. reflexivity. Qed.

Lemma is_space_nonzero c : is_space c = true -> c <> 0.
Proof.
  unfold is_space. intros H ->. discriminate.
Qed.


Lemma eqb_chr_nonzero c a : (c =? chr a) = true -> chr a <> 0 -> c <> 0.
Proof. intros H Ha. apply Z.eqb_eq in H. congruence. Qed.

(** ** Termination of the loops of [scan_newline] *)

Ltac step_cases H :=
  repeat match type of H with
  | context [if ?c then _ else _] =>
      let E := fresh "E" in destruct c eqn:E
  end.

Lemma skip_spaces_step_decreases x y :
  skip_spaces_step x = Continue y -> (remaining y < remaining x)%nat.
Proof.
  unfold skip_spaces_step. intros H. step_cases H; inversion H; subst.
  pose proof (lookahead_nonzero_advance x true (is_space_nonzero _ E)).
  unfold skip. lia.
Qed.

Lemma skip_comment_step_decreases x y :
  skip_comment_step x = Continue y -> (remaining y < remaining x)%nat.
Proof.
  unfold skip_comment_step. intros H. step_cases H; inversion H; subst.
  apply andb_prop in E as [_ E]. apply negb_true_iff, Z.eqb_neq in E.
  pose proof (lookahead_nonzero_advance x true E).
  unfold skip. lia.
Qed.

Lemma skip_line_step_decreases x y :
  skip_line_step x = Continue y -> (remaining y < remaining x)%nat.
Proof.
  unfold skip_line_step. intros H. step_cases H; inversion H; subst.
  apply andb_prop in E as [_ E]. apply negb_true_iff, Z.eqb_neq in E.
  pose proof (lookahead_nonzero_advance x true E).
  unfold skip. lia.
Qed.

Lemma count_indent_step_decreases x y :
  count_indent_step x = Continue y ->
  (remaining (snd y) < remaining (snd x))%nat.
Proof.
  unfold count_indent_step. destruct x as [indent lexer]. intros H.
  step_cases H; inversion H; subst. simpl.
  pose proof (lookahead_nonzero_advance lexer true (is_space_nonzero _ E)).
  unfold skip. lia.
Qed.

(** The loops that only move the lexer: enough fuel, and the cursor never
    moves back. *)
Section LexerLoop.
Variable step : TSLexer -> loop_step TSLexer TSLexer.
Hypothesis step_decreases :
  forall x y, step x = Continue y -> (remaining y < remaining x)%nat.
Hypothesis step_exit : forall x r, step x = Exit r -> r = x.

Lemma lexer_loop_total lexer :
  exists r, loop (fuel_of lexer) step lexer = Some r.
Proof.
  apply (loop_terminates step remaining step_decreases).
  unfold fuel_of, remaining. lia.
Qed.

Lemma lexer_loop_remaining fuel lexer r :
  loop fuel step lexer = Some r -> (remaining r <= remaining lexer)%nat.
Proof.
  intros H.
  destruct (loop_invariant step
              (fun x => (remaining x <= remaining lexer)%nat)) with (3 := H)
    as (x & Hx & Hexit).
  - intros x y Hx Hs. apply step_decreases in Hs. lia.
  - lia.
  - apply step_exit in Hexit. now subst.
Qed.

End LexerLoop.

Lemma skip_spaces_step_exit x r : skip_spaces_step x = Exit r -> r = x.
Proof. unfold skip_spaces_step. destruct is_space; congruence. Qed.

Lemma skip_comment_step_exit x r : skip_comment_step x = Exit r -> r = x.
Proof.
  unfold skip_comment_step. intros H. step_cases H; congruence.
Qed.

Lemma skip_line_step_exit x r : skip_line_step x = Exit r -> r = x.
Proof.
  unfold skip_line_step. intros H. step_cases H; congruence.
Qed.

Lemma count_indent_step_exit x r : count_indent_step x = Exit r -> r = x.
Proof.
  unfold count_indent_step. destruct x. intros H. step_cases H; congruence.
Qed.

Lemma count_indent_total indent lexer :
  exists r, loop (fuel_of lexer) count_indent_step (indent, lexer) = Some r.
Proof.
  apply (loop_terminates count_indent_step (fun st => remaining (snd st))
           count_indent_step_decreases).
  unfold fuel_of, remaining. simpl. lia.
Qed.


(** The counter of [count_indent_step] stays a [uint32_t]. *)
Lemma count_indent_range fuel indent lexer r :
  0 <= indent < 2 ^ 32 ->
  loop fuel count_indent_step (indent, lexer) = Some r ->
  0 <= fst r < 2 ^ 32.
Proof.
  intros Hi H.
  destruct (loop_invariant count_indent_step
              (fun x => 0 <= fst x < 2 ^ 32))
    with (3 := H) as (x & Hx & Hexit).
  - intros [i l] y Hx Hs. unfold count_indent_step in Hs.
    step_cases Hs; inversion Hs; subst. simpl. unfold uint32.
    apply Z.mod_pos_bound. lia.
  - exact Hi.
  - apply count_indent_step_exit in Hexit. now subst.
Qed.

Lemma blank_lines_body_total st :
  exists r, blank_lines_body st = Some r.
Proof.
  unfold blank_lines_body. destruct st as [indent lexer].
  destruct (lookahead lexer =? chr "#").
  - destruct (lexer_loop_total skip_line_step skip_line_step_decreases lexer)
      as [r ->].
    cbn [bind]. apply count_indent_total.
  - cbn [bind]. apply count_indent_total.
Qed.



Lemma blank_lines_step_exit x r :
  blank_lines_step x = Exit r -> r = Some x.
Proof.
  unfold blank_lines_step. destruct x as [indent lexer]. intros H.
  destruct (is_newline (lookahead lexer) || (lookahead lexer =? chr "#")).
  - destruct (blank_lines_body_total (indent, lexer)) as [r' Hr].
    rewrite Hr in H. discriminate.
  - congruence.
Qed.


(** The measured width is a [uint32_t]. *)
Lemma measure_indent_range lexer w lexer' :
  measure_indent lexer = Some (w, lexer') -> 0 <= w < 2 ^ 32.
Proof.
  unfold measure_indent. intros H.
  destruct (loop (fuel_of lexer) count_indent_step (0, lexer)) as [st|] eqn:E0;
    [|discriminate].
  cbn [bind] in H.
  destruct (loop (fuel_of (snd st)) blank_lines_step st) as [r|] eqn:E1;
    [|discriminate].
  cbn [bind] in H. subst r.
  apply count_indent_range in E0; [|lia].
  destruct (loop_invariant blank_lines_step (fun x => 0 <= fst x < 2 ^ 32))
    with (3 := E1) as (x & Hx & Hexit).
  - intros [i l] y _ Hs. unfold blank_lines_step in Hs.
    destruct (is_newline (lookahead l) || (lookahead l =? chr "#"));
      [|discriminate].
    destruct (blank_lines_body (i, l)) as [st'|] eqn:Hb; [|discriminate].
    inversion Hs; subst. unfold blank_lines_body in Hb.
    destruct (if lookahead l =? chr "#"
              then loop (fuel_of l) skip_line_step l else Some l);
      [|discriminate].
    cbn [bind] in Hb. apply count_indent_range in Hb; [assumption|lia].
  - exact E0.
  - apply blank_lines_step_exit in Hexit. inversion Hexit; subst.
    exact Hx.
Qed.



(** ** Termination of the loops of [scan_string] *)

Lemma prefix_step_decreases x y :
  prefix_step x = Continue y ->
  (remaining (p_lexer y) < remaining (p_lexer x))%nat.
Proof.
  unfold prefix_step. intros H.
  assert (lookahead (p_lexer x) <> 0 /\ p_lexer y = advance (p_lexer x))
    as [Hnz ->].
  { step_cases H; inversion H; subst; cbn [p_lexer]; split; trivial;
      match goal with
      | E : (_ || _) = true |- _ =>
          apply orb_prop in E; destruct E as [E|E];
          apply eqb_chr_nonzero in E; (assumption || discriminate)
      end. }
  pose proof (lookahead_nonzero_advance (p_lexer x) false Hnz).
  unfold advance. lia.
Qed.


Lemma remaining_advance_mark_end lexer skip :
  remaining (lexer_advance (mark_end lexer) skip)
  = remaining (lexer_advance lexer skip).
Proof.
  unfold lexer_advance, mark_end, remaining. cbn [input].
  destruct (input lexer) eqn:E; cbn [input]; rewrite ?E; reflexivity.
Qed.

Lemma content_step_decreases q is_triple is_raw is_format x y :
  content_step q is_triple is_raw is_format x = Continue y ->
  (remaining (fst y) < remaining (fst x))%nat.
Proof.
  unfold content_step. destruct x as [lexer has_content]. intros H.
  destruct (lookahead lexer =? 0) eqn:E0; [discriminate|].
  apply Z.eqb_neq in E0.
  pose proof (lookahead_nonzero_advance lexer false E0) as H1.
  pose proof (remaining_advance_le (advance lexer) false) as H2.
  pose proof (remaining_advance_le (advance (mark_end lexer)) false) as H3.
  pose proof (remaining_advance_mark_end lexer false) as H4.
  unfold advance in *.
  step_cases H; inversion H; subst; cbn [fst]; lia.
Qed.


(** ** Every call returns *)





(** ** The effect of a call on the scanner state *)

Lemma effect_fail_same s t s' : effect s false t s' -> s' = s.
Proof. inversion 1; reflexivity. Qed.

Lemma array_size_pos_nonempty l : (array_size l >? 0) = true -> l <> [].
Proof.
  unfold array_size. destruct l; simpl; [discriminate|congruence].
Qed.

Lemma scanner_eta s :
  mkScanner (indents s) (delimiters s) (inside_f_string s) = s.
Proof. destruct s; reflexivity. Qed.

Lemma result_symbol_advance lexer skip :
  result_symbol (lexer_advance lexer skip) = result_symbol lexer.
Proof.
  unfold lexer_advance. destruct (input lexer); reflexivity.
Qed.

Lemma count_indent_result_symbol fuel st r :
  loop fuel count_indent_step st = Some r ->
  result_symbol (snd r) = result_symbol (snd st).
Proof.
  intros H.
  destruct (loop_invariant count_indent_step
              (fun x => result_symbol (snd x) = result_symbol (snd st)))
    with (3 := H) as (x & Hx & Hexit); trivial.
  - intros [i l] y Hx Hs. unfold count_indent_step in Hs.
    step_cases Hs; inversion Hs; subst. cbn [snd] in *.
    unfold skip. now rewrite result_symbol_advance.
  - apply count_indent_step_exit in Hexit. now subst.
Qed.

Lemma skip_line_result_symbol fuel lexer r :
  loop fuel skip_line_step lexer = Some r ->
  result_symbol r = result_symbol lexer.
Proof.
  intros H.
  destruct (loop_invariant skip_line_step
              (fun x => result_symbol x = result_symbol lexer))
    with (3 := H) as (x & Hx & Hexit); trivial.
  - intros l y Hx Hs. unfold skip_line_step in Hs.
    step_cases Hs; inversion Hs; subst.
    unfold skip. now rewrite result_symbol_advance.
  - apply skip_line_step_exit in Hexit. now subst.
Qed.

Lemma blank_lines_body_result_symbol st r :
  blank_lines_body st = Some r ->
  result_symbol (snd r) = result_symbol (snd st).
Proof.
  unfold blank_lines_body. destruct st as [indent lexer]. cbn [snd].
  intros H.
  destruct (if lookahead lexer =? chr "#"
            then loop (fuel_of lexer) skip_line_step lexer
            else Some lexer) as [l1|] eqn:E1; [|discriminate].
  cbn [bind] in H.
  assert (result_symbol l1 = result_symbol lexer) as <-.
  { destruct (lookahead lexer =? chr "#").
    - eapply skip_line_result_symbol; eassumption.
    - congruence. }
  apply count_indent_result_symbol in H. cbn [snd] in H. rewrite H.
  unfold skip.
  repeat match goal with
  | |- context [if ?c then _ else _] => destruct c
  end; now rewrite ?result_symbol_advance.
Qed.

Lemma measure_indent_result_symbol lexer w lexer' :
  measure_indent lexer = Some (w, lexer') ->
  result_symbol lexer' = result_symbol lexer.
Proof.
  unfold measure_indent. intros H.
  destruct (loop (fuel_of lexer) count_indent_step (0, lexer)) as [st|] eqn:E0;
    [|discriminate].
  cbn [bind] in H.
  destruct (loop (fuel_of (snd st)) blank_lines_step st) as [r|] eqn:E1;
    [|discriminate].
  cbn [bind] in H. subst r.
  apply count_indent_result_symbol in E0. cbn [snd] in E0.
  destruct (loop_invariant blank_lines_step
              (fun x => result_symbol (snd x) = result_symbol lexer))
    with (3 := E1) as (x & Hx & Hexit); trivial.
  - intros [i l] y Hl Hs. unfold blank_lines_step in Hs.
    destruct (is_newline (lookahead l) || (lookahead l =? chr "#"));
      [|discriminate].
    destruct (blank_lines_body (i, l)) as [st'|] eqn:Hb; [|discriminate].
    inversion Hs; subst.
    apply blank_lines_body_result_symbol in Hb. cbn [snd] in *. congruence.
  - apply blank_lines_step_exit in Hexit. inversion Hexit; subst.
    exact Hx.
Qed.

Lemma consume_newline_result_symbol lexer lexer' :
  consume_newline lexer = Some (inr lexer') ->
  result_symbol lexer' = NEWLINE.
Proof.
  unfold consume_newline. intros H.
  destruct (loop (fuel_of lexer) skip_spaces_step lexer) as [l1|];
    [|discriminate].
  cbn [bind] in H.
  destruct (if lookahead l1 =? chr "#"
            then loop (fuel_of l1) skip_comment_step l1
            else Some l1) as [l2|]; [|discriminate].
  cbn [bind] in H.
  destruct (negb (is_newline (lookahead l2))); inversion H; reflexivity.
Qed.

Lemma indent_decision_effect scanner lexer valid_symbols indent b s' lexer' :
  0 <= indent ->
  result_symbol lexer = NEWLINE ->
  indent_decision scanner lexer valid_symbols indent = (b, s', lexer') ->
  effect scanner b (result_symbol lexer') s'.
Proof.
  unfold indent_decision. intros Hpos Hsym H.
  destruct ((indent >? _) && valid_symbols INDENT) eqn:Ei.
  { inversion H; subst. cbn [result_symbol set_result_symbol].
    apply effect_indent. apply andb_prop in Ei as [Ei _]. lia. }
  destruct ((indent <? _) && valid_symbols DEDENT) eqn:Ed.
  { inversion H; subst. cbn [result_symbol set_result_symbol].
    apply effect_dedent. apply andb_prop in Ed as [Ed _].
    destruct (array_size (indents scanner) >? 0) eqn:Es.
    - now apply array_size_pos_nonempty.
    - lia. }
  inversion H; subst. rewrite Hsym.
  destruct (valid_symbols NEWLINE); constructor.
Qed.

Lemma scan_newline_effect scanner lexer valid_symbols b s' lexer' :
  scan_newline scanner lexer valid_symbols = Some (b, s', lexer') ->
  effect scanner b (result_symbol lexer') s'.
Proof.
  unfold scan_newline. intros H.
  destruct (consume_newline lexer) as [[l|l]|] eqn:Ec; cbn [bind] in H;
    [| |discriminate].
  - inversion H; subst. constructor.
  - destruct (measure_indent l) as [[w l']|] eqn:Em; cbn [bind] in H;
      [|discriminate].
    inversion H as [Hd].
    apply indent_decision_effect in Hd; trivial.
    + apply measure_indent_range in Em. lia.
    + apply measure_indent_result_symbol in Em.
      apply consume_newline_result_symbol in Ec. congruence.
Qed.

Lemma scan_string_start_effect scanner lexer valid_symbols b s' lexer' :
  scan_string_start scanner lexer valid_symbols
    = Some (Returned (b, s', lexer')) ->
  effect scanner b (result_symbol lexer') s'.
Proof.
  unfold scan_string_start. intros H.
  destruct (valid_symbols STRING_START); [|discriminate].
  destruct (loop _ prefix_step _) as [st|]; cbn [bind] in H; [|discriminate].
  destruct ((lookahead (p_lexer st) =? chr "034")
            || (lookahead (p_lexer st) =? chr "'")) eqn:Eq; [|discriminate].
  assert (lookahead (p_lexer st) = chr "034"
          \/ lookahead (p_lexer st) = chr "'") as Hq.
  { apply orb_prop in Eq. destruct Eq as [Eq|Eq]; apply Z.eqb_eq in Eq; auto. }
  cbv zeta in H.
  step_cases H; inversion H; subst;
    cbn [result_symbol set_result_symbol mark_end];
    first [ apply effect_string_empty
          | apply (effect_string_start scanner _ _ _ _ Hq) ].
Qed.

Lemma content_step_return q is_triple is_raw is_format st lexer :
  content_step q is_triple is_raw is_format st = Exit (Return true lexer) ->
  result_symbol lexer = STRING_CONTENT
  \/ result_symbol lexer = ESCAPE_INTERPOLATION.
Proof.
  unfold content_step. destruct st as [l hc]. intros H.
  step_cases H; inversion H; subst; cbn; auto.
Qed.

Lemma scan_string_content_effect scanner lexer valid_symbols b s' lexer' :
  scan_string_content scanner lexer valid_symbols
    = Some (Returned (b, s', lexer')) ->
  effect scanner b (result_symbol lexer') s'.
Proof.
  unfold scan_string_content. intros H.
  destruct (valid_symbols STRING_CONTENT
            && (array_size (delimiters scanner) >? 0)); [|discriminate].
  cbv zeta in H.
  destruct (loop _ (content_step _ _ _ _) _) as [e|] eqn:El;
    cbn [bind] in H; [|discriminate].
  destruct e as [l hc|r l].
  - destruct hc; inversion H; subst. cbn. constructor.
  - inversion H; subst. destruct b; [|constructor].
    destruct (loop_invariant _ (fun _ => True) (fun _ _ _ _ => I) _ _ _ I El)
      as (x & _ & Hx).
    apply content_step_return in Hx. destruct Hx as [-> | ->]; constructor.
Qed.

Lemma scan_string_end_effect scanner lexer valid_symbols b s' lexer' :
  scan_string_end scanner lexer valid_symbols = (b, s', lexer') ->
  effect scanner b (result_symbol lexer') s'.
Proof.
  unfold scan_string_end. intros H.
  destruct (valid_symbols STRING_END
            && (array_size (delimiters scanner) >? 0)) eqn:Ev;
    [|inversion H; constructor].
  apply andb_prop in Ev as [_ Ev]. apply array_size_pos_nonempty in Ev.
  cbv zeta in H.
  step_cases H; inversion H; subst;
    first [ apply effect_fail
          | cbn [result_symbol set_result_symbol mark_end];
            apply (effect_string_end _ Ev) ].
Qed.

Lemma scan_string_effect scanner lexer valid_symbols b s' lexer' :
  scan_string scanner lexer valid_symbols = Some (b, s', lexer') ->
  effect scanner b (result_symbol lexer') s'.
Proof.
  unfold scan_string. intros H.
  destruct (scan_string_start scanner lexer valid_symbols) as [[r|l]|] eqn:Es;
    cbn [bind] in H; [| |discriminate].
  { inversion H; subst. now apply scan_string_start_effect in Es. }
  destruct (scan_string_content scanner l valid_symbols) as [[r|l']|] eqn:Ec;
    cbn [bind] in H; [| |discriminate].
  { inversion H; subst. now apply scan_string_content_effect in Ec. }
  inversion H as [He]. now apply scan_string_end_effect in He.
Qed.

(** Every call acts on the scanner state in one of the ways of [effect]. *)
Lemma scan_effect scanner lexer valid_symbols b s' lexer' :
  tree_sitter_codon_external_scanner_scan scanner lexer valid_symbols
    = Some (b, s', lexer') ->
  effect scanner b (result_symbol lexer') s'.
Proof.
  unfold tree_sitter_codon_external_scanner_scan. intros H.
  destruct (valid_symbols DEDENT && (array_size (indents scanner) >? 0)
            && eof lexer) eqn:Eeof.
  { inversion H; subst. cbn. apply effect_dedent.
    apply andb_prop in Eeof as [Eeof _]. apply andb_prop in Eeof as [_ Es].
    now apply array_size_pos_nonempty. }
  destruct (if valid_symbols STRING_START || valid_symbols STRING_CONTENT
               || valid_symbols STRING_END
               || valid_symbols ESCAPE_INTERPOLATION
            then scan_string scanner lexer valid_symbols
            else Some (false, scanner, lexer)) as [[[b1 s1] l1]|] eqn:E1;
    cbn [bind] in H; [|discriminate].
  assert (effect scanner b1 (result_symbol l1) s1) as Hs.
  { destruct (_ || _) in E1.
    - now apply scan_string_effect in E1.
    - inversion E1; constructor. }
  destruct b1; [inversion H; subst; exact Hs|].
  apply effect_fail_same in Hs. subst s1.
  destruct (if valid_symbols NEWLINE || valid_symbols INDENT
               || valid_symbols DEDENT
            then scan_newline scanner l1 valid_symbols
            else Some (false, scanner, l1)) as [[[b2 s2] l2]|] eqn:E2;
    cbn [bind] in H; [|discriminate].
  assert (effect scanner b2 (result_symbol l2) s2) as Hn.
  { destruct (_ || _) in E2.
    - now apply scan_newline_effect in E2.
    - inversion E2; constructor. }
  destruct b2; inversion H; subst; exact Hn.
Qed.

(** ** Serialization *)

Lemma length_encode_indents l :
  length (encode_indents l) = (2 * length l)%nat.
Proof. induction l; simpl; lia. Qed.

Lemma length_encode_delimiters l :
  length (encode_delimiters l) = (4 * length l)%nat.
Proof. induction l; simpl; lia. Qed.

Lemma length_layout s :
  length (layout s)
  = (4 + 2 * length (indents s) + 4 + 4 * length (delimiters s) + 1)%nat.
Proof.
  unfold layout.
  rewrite !length_app, !length_le_split, length_encode_indents,
    length_encode_delimiters.
  simpl. lia.
Qed.

Lemma serialize_indents_some cap l buffer buffer' :
  serialize_indents cap l buffer = Some buffer' ->
  buffer' = buffer ++ encode_indents l.
Proof.
  revert buffer. induction l as [|x l IH]; simpl; intros buffer H.
  - inversion H. now rewrite app_nil_r.
  - destruct (_ >? _); [discriminate|].
    apply IH in H. now rewrite H, <- app_assoc.
Qed.

Lemma serialize_delimiters_some cap l buffer buffer' :
  serialize_delimiters cap l buffer = Some buffer' ->
  buffer' = buffer ++ encode_delimiters l.
Proof.
  revert buffer. induction l as [|x l IH]; simpl; intros buffer H.
  - inversion H. now rewrite app_nil_r.
  - destruct (_ >? _); [discriminate|].
    apply IH in H. now rewrite H, <- app_assoc.
Qed.

(** A serialization that does not fail writes the layout, within the
    capacity. *)
Lemma serialize_layout cap s :
  tree_sitter_codon_external_scanner_serialize cap s <> [] ->
  tree_sitter_codon_external_scanner_serialize cap s = layout s
  /\ Z.of_nat (length (layout s)) <= cap.
Proof.
  unfold tree_sitter_codon_external_scanner_serialize. cbv zeta.
  destruct (_ >? _); [congruence|].
  destruct (serialize_indents _ _ _) as [b1|] eqn:E1; [|congruence].
  apply serialize_indents_some in E1. subst b1.
  destruct (_ >? _); [congruence|].
  destruct (serialize_delimiters _ _ _) as [b2|] eqn:E2; [|congruence].
  apply serialize_delimiters_some in E2. subst b2.
  destruct (_ >? _) eqn:E3; [congruence|]. intros _.
  assert (forall l : list byte, [] ++ l = l) as Hnil by reflexivity.
  split.
  - unfold layout. rewrite !Hnil, <- !app_assoc. reflexivity.
  - unfold buffer_size in E3. rewrite Hnil in E3.
    rewrite Z.gtb_ltb in E3. apply Z.ltb_ge in E3.
    rewrite length_layout.
    rewrite !length_app, !length_le_split, length_encode_indents,
      length_encode_delimiters in E3.
    lia.
Qed.

(** A serialization that fits the capacity passes every capacity check. *)
Lemma serialize_indents_fits cap l buffer :
  buffer_size buffer + 2 * Z.of_nat (length l) <= cap ->
  serialize_indents cap l buffer = Some (buffer ++ encode_indents l).
Proof.
  revert buffer. induction l as [|x l IH]; intros buffer H.
  - simpl. now rewrite app_nil_r.
  - cbn [serialize_indents]. cbn [length] in H.
    replace (buffer_size buffer + 2 >? cap) with false
      by (symmetry; rewrite Z.gtb_ltb; apply Z.ltb_ge; lia).
    rewrite IH.
    + cbn [encode_indents flat_map]. now rewrite <- app_assoc.
    + unfold buffer_size in *. rewrite length_app, length_le_split. lia.
Qed.

Lemma serialize_delimiters_fits cap l buffer :
  buffer_size buffer + 4 * Z.of_nat (length l) <= cap ->
  serialize_delimiters cap l buffer = Some (buffer ++ encode_delimiters l).
Proof.
  revert buffer. induction l as [|x l IH]; intros buffer H.
  - simpl. now rewrite app_nil_r.
  - cbn [serialize_delimiters]. cbn [length] in H.
    replace (buffer_size buffer + 4 >? cap) with false
      by (symmetry; rewrite Z.gtb_ltb; apply Z.ltb_ge; lia).
    rewrite IH.
    + cbn [encode_delimiters flat_map]. now rewrite <- app_assoc.
    + unfold buffer_size in *. rewrite length_app, length_le_split. lia.
Qed.

Lemma serialize_fits cap s :
  Z.of_nat (length (layout s)) <= cap ->
  tree_sitter_codon_external_scanner_serialize cap s = layout s.
Proof.
  intros Hfit. rewrite length_layout in Hfit.
  unfold tree_sitter_codon_external_scanner_serialize. cbv zeta.
  assert (forall l : list byte, [] ++ l = l) as Hnil by reflexivity.
  replace (buffer_size [] + 4 >? cap) with false
    by (symmetry; rewrite Z.gtb_ltb; apply Z.ltb_ge;
        unfold buffer_size; simpl; lia).
  rewrite Hnil, serialize_indents_fits
    by (unfold buffer_size; rewrite length_le_split; lia).
  match goal with
  | |- context [buffer_size ?b + 4 >? cap] =>
      replace (buffer_size b + 4 >? cap) with false
        by (symmetry; rewrite Z.gtb_ltb; apply Z.ltb_ge;
            unfold buffer_size;
            rewrite length_app, length_le_split, length_encode_indents;
            lia)
  end.
  rewrite serialize_delimiters_fits
    by (unfold buffer_size;
        rewrite !length_app, !length_le_split, length_encode_indents;
        lia).
  match goal with
  | |- context [buffer_size ?b + 1 >? cap] =>
      replace (buffer_size b + 1 >? cap) with false
        by (symmetry; rewrite Z.gtb_ltb; apply Z.ltb_ge;
            unfold buffer_size;
            rewrite !length_app, !length_le_split, length_encode_indents,
              length_encode_delimiters;
            lia)
  end.
  unfold layout. now rewrite <- !app_assoc.
Qed.

Lemma le_combine_le_split_2 x :
  0 <= x < 2 ^ 16 -> le_combine (le_split 2 x) = x.
Proof.
  intros H. rewrite le_combine_split. apply Z.mod_small. simpl. lia.
Qed.

Lemma le_combine_le_split_4 x :
  0 <= x < 2 ^ 32 -> le_combine (le_split 4 x) = x.
Proof.
  intros H. rewrite le_combine_split. apply Z.mod_small. simpl. lia.
Qed.

Lemma int32_le_combine_le_split_4 x :
  - 2 ^ 31 <= x < 2 ^ 31 -> int32 (le_combine (le_split 4 x)) = x.
Proof.
  intros H. rewrite le_combine_split. unfold int32.
  change (2 ^ (Z.of_nat 4 * 8)) with (2 ^ 32).
  rewrite Z.add_mod_idemp_l by lia.
  rewrite Z.mod_small; lia.
Qed.

(** Reading back the widths from a buffer cut after [j] bytes. *)
Lemma deserialize_indents_firstn l :
  Forall (fun x => 0 <= x < 2 ^ 16) l ->
  forall j tail i acc,
    ((j < 2 * length l)%nat ->
     exists l1 l2, l = l1 ++ l2 /\
       deserialize_indents (firstn j (encode_indents l ++ tail)) i
         (i + Z.of_nat (length l)) acc = (acc ++ l1, None))
    /\
    ((2 * length l <= j)%nat ->
     deserialize_indents (firstn j (encode_indents l ++ tail)) i
       (i + Z.of_nat (length l)) acc
     = (acc ++ l, Some (firstn (j - 2 * length l) tail))).
Proof.
  induction 1 as [|x l Hx Hl IH]; intros j tail i acc.
  - split; [intros Hj; simpl in Hj; lia|]. intros _. simpl.
    replace (i + 0) with i by lia.
    rewrite app_nil_r, Nat.sub_0_r.
    destruct (firstn j tail); simpl; rewrite Z.ltb_irrefl; reflexivity.
  - assert ((i <? i + Z.of_nat (length (x :: l))) = true) as Hlt.
    { apply Z.ltb_lt. simpl length. lia. }
    replace (i + Z.of_nat (length (x :: l)))
      with (i + 1 + Z.of_nat (length l)) in * by (simpl length; lia).
    change (encode_indents (x :: l) ++ tail)
      with (byte.of_Z x :: byte.of_Z (Z.shiftr x 8)
              :: (encode_indents l ++ tail)).
    destruct j as [|[|j]].
    + split; [|intros Hj; simpl in Hj; lia]. intros _. exists [], (x :: l).
      simpl. rewrite Hlt, app_nil_r. auto.
    + split; [|intros Hj; simpl in Hj; lia]. intros _. exists [], (x :: l).
      simpl. rewrite Hlt, app_nil_r. auto.
    + cbn [firstn deserialize_indents]. rewrite Hlt.
      change (le_combine [byte.of_Z x; byte.of_Z (Z.shiftr x 8)])
        with (le_combine (le_split 2 x)).
      rewrite le_combine_le_split_2 by assumption.
      destruct (IH j tail (i + 1) (array_push acc x)) as [IH1 IH2].
      unfold array_push in *. split; intros Hj.
      * assert (j < 2 * length l)%nat as Hj' by (simpl in Hj; lia).
        destruct (IH1 Hj') as (l1 & l2 & -> & Heq).
        exists (x :: l1), l2. rewrite Heq, <- app_assoc. auto.
      * rewrite IH2 by (simpl in Hj; lia).
        rewrite <- app_assoc.
        replace (S (S j) - 2 * length (x :: l))%nat
          with (j - 2 * length l)%nat by (cbn [length]; lia).
        reflexivity.
Qed.

Lemma deserialize_delimiters_firstn l :
  Forall (fun d => - 2 ^ 31 <= d < 2 ^ 31) l ->
  forall j tail i acc,
    ((j < 4 * length l)%nat ->
     exists l1 l2, l = l1 ++ l2 /\
       deserialize_delimiters (firstn j (encode_delimiters l ++ tail)) i
         (i + Z.of_nat (length l)) acc = (acc ++ l1, None))
    /\
    ((4 * length l <= j)%nat ->
     deserialize_delimiters (firstn j (encode_delimiters l ++ tail)) i
       (i + Z.of_nat (length l)) acc
     = (acc ++ l, Some (firstn (j - 4 * length l) tail))).
Proof.
  induction 1 as [|x l Hx Hl IH]; intros j tail i acc.
  - split; [intros Hj; simpl in Hj; lia|]. intros _. simpl.
    replace (i + 0) with i by lia.
    rewrite app_nil_r, Nat.sub_0_r.
    destruct (firstn j tail); simpl; rewrite Z.ltb_irrefl; reflexivity.
  - assert ((i <? i + Z.of_nat (length (x :: l))) = true) as Hlt.
    { apply Z.ltb_lt. simpl length. lia. }
    replace (i + Z.of_nat (length (x :: l)))
      with (i + 1 + Z.of_nat (length l)) in * by (simpl length; lia).
    change (encode_delimiters (x :: l) ++ tail)
      with (byte.of_Z x :: byte.of_Z (Z.shiftr x 8)
              :: byte.of_Z (Z.shiftr (Z.shiftr x 8) 8)
              :: byte.of_Z (Z.shiftr (Z.shiftr (Z.shiftr x 8) 8) 8)
              :: (encode_delimiters l ++ tail)).
    destruct j as [|[|[|[|j]]]];
      try (split; [|intros Hj; simpl in Hj; lia]; intros _;
           exists [], (x :: l); simpl; rewrite Hlt, app_nil_r; auto).
    cbn [firstn deserialize_delimiters]. rewrite Hlt.
    match goal with
    | |- context [le_combine ?bs] =>
        change (le_combine bs) with (le_combine (le_split 4 x))
    end.
    rewrite int32_le_combine_le_split_4 by assumption.
    destruct (IH j tail (i + 1) (array_push acc x)) as [IH1 IH2].
    unfold array_push in *. split; intros Hj.
    + assert (j < 4 * length l)%nat as Hj' by (simpl in Hj; lia).
      destruct (IH1 Hj') as (l1 & l2 & -> & Heq).
      exists (x :: l1), l2. rewrite Heq, <- app_assoc. auto.
    + rewrite IH2 by (simpl in Hj; lia).
      rewrite <- app_assoc.
      replace (S (S (S (S j))) - 4 * length (x :: l))%nat
        with (j - 4 * length l)%nat by (cbn [length]; lia).
      reflexivity.
Qed.

Lemma deserialize_short s0 buffer :
  (length buffer < 4)%nat ->
  tree_sitter_codon_external_scanner_deserialize s0 buffer
  = mkScanner [] [] false.
Proof.
  destruct buffer as [|b0 [|b1 [|b2 [|b3 buffer]]]]; simpl; intros H;
    (reflexivity || lia).
Qed.

Lemma deserialize_from_delimiters_short scanner buffer :
  (length buffer < 4)%nat ->
  deserialize_from_delimiters scanner buffer = scanner.
Proof.
  destruct buffer as [|b0 [|b1 [|b2 [|b3 buffer]]]]; simpl; intros H;
    (reflexivity || lia).
Qed.

Lemma deserialize_le_split s0 n buffer :
  tree_sitter_codon_external_scanner_deserialize s0 (le_split 4 n ++ buffer)
  = match deserialize_indents buffer 0 (le_combine (le_split 4 n)) [] with
    | (ind, None) => mkScanner ind [] false
    | (ind, Some buffer) =>
        deserialize_from_delimiters (mkScanner ind [] false) buffer
    end.
Proof. reflexivity. Qed.

Lemma deserialize_from_delimiters_le_split scanner n buffer :
  deserialize_from_delimiters scanner (le_split 4 n ++ buffer)
  = match deserialize_delimiters buffer 0 (le_combine (le_split 4 n))
            (delimiters scanner) with
    | (del, None) => set_delimiters scanner del
    | (del, Some buffer) =>
        match buffer with
        | b :: _ =>
            set_inside_f_string (set_delimiters scanner del)
              (byte.unsigned b =? 1)
        | [] => set_delimiters scanner del
        end
    end.
Proof. reflexivity. Qed.

Lemma firstn_le_split_app n z k (tail : list byte) :
  firstn (n + k) (le_split n z ++ tail) = le_split n z ++ firstn k tail.
Proof.
  rewrite <- (length_le_split n z) at 1. apply firstn_app_2.
Qed.

(** What [deserialize] makes of the first [k] bytes of a layout: the whole
    state when nothing is missing, and otherwise the entries in front of
    the cut, the flag left false. *)
Lemma deserialize_layout_firstn s0 s k :
  well_typed s ->
  array_size (indents s) < 2 ^ 32 ->
  array_size (delimiters s) < 2 ^ 32 ->
  let s' :=
    tree_sitter_codon_external_scanner_deserialize s0 (firstn k (layout s)) in
  ((length (layout s) <= k)%nat -> s' = s) /\
  ((k < length (layout s))%nat ->
   (exists l, indents s = indents s' ++ l) /\
   (exists l, delimiters s = delimiters s' ++ l) /\
   inside_f_string s' = false).
Proof.
  intros [Hind Hdel] Hn Hm. rewrite length_layout.
  destruct s as [ind del flag]. cbn [indents delimiters inside_f_string] in *.
  unfold layout. cbn [indents delimiters inside_f_string].
  unfold uint32, array_size in *.
  rewrite !Z.mod_small by lia.
  remember (encode_delimiters del ++ [if flag then Byte.x01 else Byte.x00])
    as tail2 eqn:Ht2.
  cbv zeta.
  destruct (Nat.lt_ge_cases k 4) as [Hk4|Hk4].
  { rewrite !deserialize_short by (rewrite length_firstn; lia).
    split; [intros; lia|]. intros _. cbn. eauto. }
  replace k with (4 + (k - 4))%nat by lia.
  rewrite firstn_le_split_app, deserialize_le_split.
  rewrite le_combine_le_split_4 by lia.
  remember (k - 4)%nat as j eqn:Hj.
  destruct (deserialize_indents_firstn ind Hind j
              (le_split 4 (Z.of_nat (length del)) ++ tail2) 0 [])
    as [Hcut Hfull].
  rewrite Z.add_0_l in Hcut, Hfull.
  destruct (Nat.lt_ge_cases j (2 * length ind)) as [Hk|Hk].
  { (* cut inside the widths *)
    destruct (Hcut Hk) as (l1 & l2 & -> & ->). cbn.
    split; [rewrite length_app in *; lia|]. intros _. eauto. }
  rewrite (Hfull Hk). cbn [app].
  remember (j - 2 * length ind)%nat as j2 eqn:Hj2.
  destruct (Nat.lt_ge_cases j2 4) as [Hj4|Hj4].
  { rewrite !deserialize_from_delimiters_short
      by (rewrite length_firstn; lia).
    split; [intros; lia|]. intros _. cbn.
    repeat split; [exists []; now rewrite app_nil_r | eauto]. }
  replace j2 with (4 + (j2 - 4))%nat by lia.
  rewrite firstn_le_split_app, deserialize_from_delimiters_le_split.
  rewrite le_combine_le_split_4 by lia.
  cbn [delimiters]. subst tail2.
  remember (j2 - 4)%nat as j3 eqn:Hj3.
  destruct (deserialize_delimiters_firstn del Hdel j3
              [if flag then Byte.x01 else Byte.x00] 0 [])
    as [Hcut2 Hfull2].
  rewrite Z.add_0_l in Hcut2, Hfull2.
  destruct (Nat.lt_ge_cases j3 (4 * length del)) as [Hk3|Hk3].
  { (* cut inside the descriptors *)
    destruct (Hcut2 Hk3) as (l1 & l2 & -> & ->). cbn.
    split; [rewrite length_app in *; lia|]. intros _.
    repeat split; [exists []; now rewrite app_nil_r | eauto]. }
  rewrite (Hfull2 Hk3). cbn [app].
  remember (j3 - 4 * length del)%nat as j4 eqn:Hj4'.
  destruct j4 as [|j4].
  - (* the flag byte is missing *)
    cbn. split; [intros; lia|]. intros _.
    repeat split; exists []; now rewrite app_nil_r.
  - cbn. split; [|intros; lia]. intros _. destruct flag; reflexivity.
Qed.

(** The entries read back from a buffer cut inside them: as many as the
    bytes in front of the cut hold in full. *)
Lemma deserialize_indents_cut l :
  Forall (fun x => 0 <= x < 2 ^ 16) l ->
  forall j tail i acc,
    (j < 2 * length l)%nat ->
    deserialize_indents (firstn j (encode_indents l ++ tail)) i
      (i + Z.of_nat (length l)) acc
    = (acc ++ firstn (j / 2) l, None).
Proof.
  induction 1 as [|x l Hx Hl IH]; intros j tail i acc Hj;
    [simpl in Hj; lia|].
  assert ((i <? i + Z.of_nat (length (x :: l))) = true) as Hlt.
  { apply Z.ltb_lt. simpl length. lia. }
  replace (i + Z.of_nat (length (x :: l)))
    with (i + 1 + Z.of_nat (length l)) in * by (simpl length; lia).
  change (encode_indents (x :: l) ++ tail)
    with (byte.of_Z x :: byte.of_Z (Z.shiftr x 8)
            :: (encode_indents l ++ tail)).
  destruct j as [|[|j]].
  - simpl. now rewrite Hlt, app_nil_r.
  - simpl. now rewrite Hlt, app_nil_r.
  - cbn [firstn deserialize_indents]. rewrite Hlt.
    change (le_combine [byte.of_Z x; byte.of_Z (Z.shiftr x 8)])
      with (le_combine (le_split 2 x)).
    rewrite le_combine_le_split_2 by assumption.
    rewrite IH by (simpl in Hj; lia).
    unfold array_push. rewrite <- app_assoc.
    replace (S (S j) / 2)%nat with (S (j / 2))
      by (change (S (S j)) with (1 * 2 + j)%nat;
          now rewrite Nat.div_add_l by lia).
    reflexivity.
Qed.

Lemma deserialize_delimiters_cut l :
  Forall (fun d => - 2 ^ 31 <= d < 2 ^ 31) l ->
  forall j tail i acc,
    (j < 4 * length l)%nat ->
    deserialize_delimiters (firstn j (encode_delimiters l ++ tail)) i
      (i + Z.of_nat (length l)) acc
    = (acc ++ firstn (j / 4) l, None).
Proof.
  induction 1 as [|x l Hx Hl IH]; intros j tail i acc Hj;
    [simpl in Hj; lia|].
  assert ((i <? i + Z.of_nat (length (x :: l))) = true) as Hlt.
  { apply Z.ltb_lt. simpl length. lia. }
  replace (i + Z.of_nat (length (x :: l)))
    with (i + 1 + Z.of_nat (length l)) in * by (simpl length; lia).
  change (encode_delimiters (x :: l) ++ tail)
    with (byte.of_Z x :: byte.of_Z (Z.shiftr x 8)
            :: byte.of_Z (Z.shiftr (Z.shiftr x 8) 8)
            :: byte.of_Z (Z.shiftr (Z.shiftr (Z.shiftr x 8) 8) 8)
            :: (encode_delimiters l ++ tail)).
  destruct j as [|[|[|[|j]]]];
    try (simpl; now rewrite Hlt, app_nil_r).
  cbn [firstn deserialize_delimiters]. rewrite Hlt.
  match goal with
  | |- context [le_combine ?bs] =>
      change (le_combine bs) with (le_combine (le_split 4 x))
  end.
  rewrite int32_le_combine_le_split_4 by assumption.
  rewrite IH by (simpl in Hj; lia).
  unfold array_push. rewrite <- app_assoc.
  replace (S (S (S (S j))) / 4)%nat with (S (j / 4))
    by (change (S (S (S (S j)))) with (1 * 4 + j)%nat;
        now rewrite Nat.div_add_l by lia).
  reflexivity.
Qed.

(** What [deserialize] makes of the first [k] bytes of a layout when
    bytes are missing: the indent levels and the delimiters that lie in
    full in front of the cut, and the flag false. *)
Lemma deserialize_layout_cut s0 s k :
  well_typed s ->
  array_size (indents s) < 2 ^ 32 ->
  array_size (delimiters s) < 2 ^ 32 ->
  (k < length (layout s))%nat ->
  tree_sitter_codon_external_scanner_deserialize s0 (firstn k (layout s))
  = mkScanner
      (firstn ((k - 4) / 2) (indents s))
      (firstn ((k - (8 + 2 * length (indents s))) / 4) (delimiters s))
      false.
Proof.
  intros [Hind Hdel] Hn Hm. rewrite length_layout.
  destruct s as [ind del flag]. cbn [indents delimiters inside_f_string] in *.
  unfold layout. cbn [indents delimiters inside_f_string].
  unfold uint32, array_size in *.
  rewrite !Z.mod_small by lia.
  remember (encode_delimiters del ++ [if flag then Byte.x01 else Byte.x00])
    as tail2 eqn:Ht2.
  intros Hk.
  assert (forall a : nat, (0 / a = 0)%nat) as Hdiv0
    by (intros a; apply Nat.Div0.div_0_l).
  destruct (Nat.lt_ge_cases k 4) as [Hk4|Hk4].
  { rewrite deserialize_short by (rewrite length_firstn; lia).
    replace (k - 4)%nat with 0%nat by lia.
    replace (k - (8 + 2 * length ind))%nat with 0%nat by lia.
    now rewrite !Hdiv0. }
  replace k with (4 + (k - 4))%nat at 1 by lia.
  rewrite firstn_le_split_app, deserialize_le_split.
  rewrite le_combine_le_split_4 by lia.
  remember (k - 4)%nat as j eqn:Hj.
  destruct (Nat.lt_ge_cases j (2 * length ind)) as [Hcut|Hfull].
  { (* cut inside the widths *)
    rewrite <- (Z.add_0_l (Z.of_nat (length ind))).
    rewrite (deserialize_indents_cut ind Hind j _ 0 [] Hcut).
    replace (k - (8 + 2 * length ind))%nat with 0%nat by lia.
    now rewrite Hdiv0. }
  destruct (deserialize_indents_firstn ind Hind j
              (le_split 4 (Z.of_nat (length del)) ++ tail2) 0 [])
    as [_ Hall].
  rewrite Z.add_0_l in Hall. rewrite (Hall Hfull). cbn [app].
  assert (firstn (j / 2) ind = ind) as ->.
  { apply firstn_all2. apply Nat.div_le_lower_bound; lia. }
  remember (j - 2 * length ind)%nat as j2 eqn:Hj2.
  destruct (Nat.lt_ge_cases j2 4) as [Hj4|Hj4].
  { rewrite deserialize_from_delimiters_short
      by (rewrite length_firstn; lia).
    replace (k - (8 + 2 * length ind))%nat with 0%nat by lia.
    now rewrite Hdiv0. }
  replace j2 with (4 + (j2 - 4))%nat by lia.
  rewrite firstn_le_split_app, deserialize_from_delimiters_le_split.
  rewrite le_combine_le_split_4 by lia.
  cbn [delimiters]. subst tail2.
  replace (k - (8 + 2 * length ind))%nat with (j2 - 4)%nat by lia.
  remember (j2 - 4)%nat as j3 eqn:Hj3.
  destruct (Nat.lt_ge_cases j3 (4 * length del)) as [Hcut3|Hfull3].
  { (* cut inside the descriptors *)
    rewrite <- (Z.add_0_l (Z.of_nat (length del))).
    rewrite (deserialize_delimiters_cut del Hdel j3 _ 0 [] Hcut3).
    reflexivity. }
  destruct (deserialize_delimiters_firstn del Hdel j3
              [if flag then Byte.x01 else Byte.x00] 0 [])
    as [_ Hall2].
  rewrite Z.add_0_l in Hall2. rewrite (Hall2 Hfull3). cbn [app].
  assert (firstn (j3 / 4) del = del) as ->.
  { apply firstn_all2. apply Nat.div_le_lower_bound; lia. }
  (* only the flag byte is missing *)
  replace (j3 - 4 * length del)%nat with 0%nat by lia.
  reflexivity.
Qed.

(** ** Reachable states *)

Lemma Forall_array_pop (P : Z -> Prop) l : Forall P l -> Forall P (array_pop l).
Proof.
  unfold array_pop. intros H.
  destruct l as [|x l]; [constructor|].
  rewrite (app_removelast_last 0 (l := x :: l)) in H by discriminate.
  now apply Forall_app in H.
Qed.

Lemma Forall_array_push (P : Z -> Prop) l x :
  Forall P l -> P x -> Forall P (array_push l x).
Proof.
  unfold array_push. intros Hl Hx. apply Forall_app. auto.
Qed.

Lemma make_delimiter_range q is_triple is_raw is_format :
  q = chr "034" \/ q = chr "'" ->
  - 2 ^ 31 <= make_delimiter q is_triple is_raw is_format < 2 ^ 31.
Proof.
  intros [-> | ->]; destruct is_triple, is_raw, is_format; cbv; split;
    congruence.
Qed.

Lemma make_delimiter_format q is_triple is_raw is_format :
  q = chr "034" \/ q = chr "'" ->
  delim_is_format (make_delimiter q is_triple is_raw is_format) = is_format.
Proof.
  intros [-> | ->]; destruct is_triple, is_raw, is_format; reflexivity.
Qed.

Lemma make_delimiter_fields q is_triple is_raw is_format :
  q = chr "034" \/ q = chr "'" ->
  let d := make_delimiter q is_triple is_raw is_format in
  delim_quote_char d = q /\ delim_is_triple d = is_triple
  /\ delim_is_raw d = is_raw.
Proof.
  intros [-> | ->]; destruct is_triple, is_raw, is_format; repeat split.
Qed.

Lemma effect_well_typed s b t s' :
  effect s b t s' -> well_typed s -> well_typed s'.
Proof.
  intros He [Hi Hd].
  destruct He; split; cbn [indents delimiters set_indents]; trivial.
  - apply Forall_array_push; trivial. unfold uint16.
    apply Z.mod_pos_bound. lia.
  - now apply Forall_array_pop.
  - apply Forall_array_push; trivial. now apply make_delimiter_range.
  - now apply Forall_array_pop.
Qed.

(** Reachable states hold values of the widths their arrays declare. *)
Lemma reachable_well_typed s : reachable s -> well_typed s.
Proof.
  induction 1 as [|s lexer v b s' lexer' _ IH Hscan].
  - split; constructor.
  - apply scan_effect in Hscan. eapply effect_well_typed; eassumption.
Qed.

Lemma array_back_push l x : array_back (array_push l x) = x.
Proof. unfold array_back, array_push. apply last_last. Qed.

Lemma array_size_push l x : (array_size (array_push l x) >? 0) = true.
Proof.
  unfold array_size, array_push. rewrite length_app. simpl.
  apply Z.gtb_lt. lia.
Qed.

(** A call that changes the delimiter stack leaves the interpolation flag
    equal to the format flag of the new top. *)
Lemma effect_flag s b t s' :
  effect s b t s' ->
  (delimiters s' <> delimiters s -> inside_f_string s' = top_format_flag s')
  /\ (inside_f_string s = top_format_flag s ->
      inside_f_string s' = top_format_flag s').
Proof.
  intros He.
  destruct He; unfold top_format_flag;
    cbn [indents delimiters inside_f_string set_indents set_delimiters];
    try (split; [congruence|trivial]).
  split; intros _.
  all: now rewrite array_size_push, array_back_push, make_delimiter_format.
Qed.

(** A call changes at most one of the two stacks, by the kind it
    reports. *)
Lemma effect_frame s b t s' :
  effect s b t s' ->
  (t = NEWLINE \/ t = INDENT \/ t = DEDENT ->
   delimiters s' = delimiters s /\ inside_f_string s' = inside_f_string s)
  /\ (t = STRING_START \/ t = STRING_CONTENT \/ t = ESCAPE_INTERPOLATION
      \/ t = STRING_END ->
      indents s' = indents s).
Proof.
  intros He.
  destruct He; split; intros Ht; cbn; auto;
    repeat (destruct Ht as [Ht|Ht]; try discriminate).
Qed.

(** The flag of a reachable state, and a reachable state with a format
    string open, used in the examples below. *)
Lemma reachable_flag s : reachable s -> inside_f_string s = top_format_flag s.
Proof.
  induction 1 as [|s lexer v b s' lexer' _ IH Hscan]; [reflexivity|].
  apply scan_effect in Hscan.
  exact (proj2 (effect_flag _ _ _ _ Hscan) IH).
Qed.

Lemma reachable_format_string_open : reachable (mkScanner [] [1063] true).
Proof.
  apply (reachable_scan tree_sitter_codon_external_scanner_create
           (lexer_start (codes "f'")) (accepts [STRING_START])
           true _ (mkLexer [] 2 0 (Some 2) STRING_START)).
  - apply reachable_create.
  - reflexivity.
Defined.

(** ** The cursor only moves forward *)

Lemma count_indent_width fuel st r :
  0 <= fst st ->
  loop fuel count_indent_step st = Some r ->
  0 <= fst r
  /\ fst r + Z.of_nat (remaining (snd r))
     <= fst st + Z.of_nat (remaining (snd st)).
Proof.
  intros Hpos H.
  destruct (loop_invariant count_indent_step
              (fun x => 0 <= fst x
                        /\ fst x + Z.of_nat (remaining (snd x))
                           <= fst st + Z.of_nat (remaining (snd st))))
    with (3 := H) as (x & Hx & Hexit).
  - intros [i l] y [Hi Hle] Hs. unfold count_indent_step in Hs.
    destruct (is_space (lookahead l)) eqn:E; inversion Hs; subst.
    cbn [fst snd] in *.
    pose proof (lookahead_nonzero_advance l true (is_space_nonzero _ E)).
    unfold skip, uint32.
    pose proof (Z.mod_pos_bound (i + 1) (2 ^ 32) ltac:(lia)).
    pose proof (Z.mod_le (i + 1) (2 ^ 32) ltac:(lia) ltac:(lia)).
    lia.
  - lia.
  - apply count_indent_step_exit in Hexit. now subst.
Qed.

Lemma blank_lines_body_width st r :
  blank_lines_body st = Some r ->
  0 <= fst r
  /\ fst r + Z.of_nat (remaining (snd r)) <= Z.of_nat (remaining (snd st)).
Proof.
  unfold blank_lines_body. destruct st as [indent lexer]. cbn [snd].
  intros H.
  destruct (if lookahead lexer =? chr "#"
            then loop (fuel_of lexer) skip_line_step lexer
            else Some lexer) as [l1|] eqn:E1; [|discriminate].
  cbn [bind] in H.
  assert (remaining l1 <= remaining lexer)%nat as Hl1.
  { destruct (lookahead lexer =? chr "#").
    - eapply lexer_loop_remaining; eauto using skip_line_step_decreases,
        skip_line_step_exit.
    - inversion E1. lia. }
  apply count_indent_width in H; [|cbn; lia]. cbn [fst snd] in H.
  split; [tauto|].
  pose proof (remaining_advance_le l1 true) as H1.
  pose proof (remaining_advance_le (skip l1) true) as H2.
  unfold skip in *.
  destruct (is_newline (lookahead l1));
    [destruct (lookahead (lexer_advance l1 true) =? chr "010")|]; lia.
Qed.

(** The width measured is at most the number of code points that were
    left, and the lexer is not moved back. *)
Lemma measure_indent_width lexer w lexer' :
  measure_indent lexer = Some (w, lexer') ->
  0 <= w /\ w + Z.of_nat (remaining lexer') <= Z.of_nat (remaining lexer).
Proof.
  unfold measure_indent. intros H.
  destruct (loop (fuel_of lexer) count_indent_step (0, lexer)) as [st|] eqn:E0;
    [|discriminate].
  cbn [bind] in H.
  destruct (loop (fuel_of (snd st)) blank_lines_step st) as [r|] eqn:E1;
    [|discriminate].
  cbn [bind] in H. subst r.
  apply count_indent_width in E0; [|cbn; lia]. cbn [fst snd] in E0.
  destruct (loop_invariant blank_lines_step
              (fun x => 0 <= fst x
                        /\ fst x + Z.of_nat (remaining (snd x))
                           <= Z.of_nat (remaining lexer)))
    with (3 := E1) as (x & Hx & Hexit).
  - intros [i l] y [Hi Hle] Hs. unfold blank_lines_step in Hs.
    destruct (is_newline (lookahead l) || (lookahead l =? chr "#"));
      [|discriminate].
    destruct (blank_lines_body (i, l)) as [st'|] eqn:Hb; [|discriminate].
    inversion Hs; subst.
    apply blank_lines_body_width in Hb. cbn [fst snd] in *. lia.
  - lia.
  - apply blank_lines_step_exit in Hexit. inversion Hexit; subst.
    exact Hx.
Qed.

Lemma consume_newline_remaining lexer r :
  consume_newline lexer = Some r ->
  (remaining (match r with inl l => l | inr l => l end)
   <= remaining lexer)%nat.
Proof.
  unfold consume_newline. intros H.
  destruct (loop (fuel_of lexer) skip_spaces_step lexer) as [l1|] eqn:E1;
    [|discriminate].
  cbn [bind] in H.
  apply (lexer_loop_remaining _ skip_spaces_step_decreases
           skip_spaces_step_exit) in E1.
  destruct (if lookahead l1 =? chr "#"
            then loop (fuel_of l1) skip_comment_step l1
            else Some l1) as [l2|] eqn:E2; [|discriminate].
  cbn [bind] in H.
  assert (remaining l2 <= remaining l1)%nat as Hl2.
  { destruct (lookahead l1 =? chr "#").
    - eapply lexer_loop_remaining; eauto using skip_comment_step_decreases,
        skip_comment_step_exit.
    - inversion E2. lia. }
  pose proof (remaining_advance_le l2 false) as H1.
  pose proof (remaining_advance_le (advance l2) false) as H2.
  unfold advance in *.
  destruct (negb (is_newline (lookahead l2))); inversion H; subst.
  - lia.
  - rewrite remaining_mark_end, remaining_set_result_symbol.
    destruct (lookahead (lexer_advance l2 false) =? chr "010"); lia.
Qed.

(** What [scan_newline] does to the indent stack, with the bound on the
    width it pushes. *)
Lemma scan_newline_indents scanner lexer valid_symbols b s' lexer' :
  scan_newline scanner lexer valid_symbols = Some (b, s', lexer') ->
  indents s' = indents scanner
  \/ indents s' = array_pop (indents scanner)
  \/ exists w,
       (if array_size (indents scanner) >? 0
        then array_back (indents scanner) else 0) < w
       /\ 0 <= w <= Z.of_nat (remaining lexer)
       /\ indents s' = array_push (indents scanner) (uint16 w).
Proof.
  unfold scan_newline. intros H.
  destruct (consume_newline lexer) as [[l|l]|] eqn:Ec; cbn [bind] in H;
    [| |discriminate].
  - inversion H; auto.
  - destruct (measure_indent l) as [[w l']|] eqn:Em; cbn [bind] in H;
      [|discriminate].
    apply consume_newline_remaining in Ec.
    apply measure_indent_width in Em.
    inversion H as [Hd]. unfold indent_decision in Hd.
    destruct ((w >? _) && valid_symbols INDENT) eqn:Ei.
    { inversion Hd; subst. right; right. exists w.
      apply andb_prop in Ei as [Ei _]. cbn [indents set_indents].
      repeat split; lia. }
    destruct ((w <? _) && valid_symbols DEDENT); inversion Hd; subst; auto.
Qed.

Lemma prefix_step_exit x r : prefix_step x = Exit r -> r = x.
Proof.
  unfold prefix_step. intros H. step_cases H; congruence.
Qed.

Lemma prefix_remaining fuel st r :
  loop fuel prefix_step st = Some r ->
  (remaining (p_lexer r) <= remaining (p_lexer st))%nat.
Proof.
  intros H.
  destruct (loop_invariant prefix_step
              (fun x => (remaining (p_lexer x) <= remaining (p_lexer st))%nat))
    with (3 := H) as (x & Hx & Hexit).
  - intros x y Hx Hs. apply prefix_step_decreases in Hs. lia.
  - lia.
  - apply prefix_step_exit in Hexit. now subst.
Qed.

Lemma content_step_exit_remaining q is_triple is_raw is_format x e :
  content_step q is_triple is_raw is_format x = Exit e ->
  (remaining (match e with Break l _ => l | Return _ l => l end)
   <= remaining (fst x))%nat.
Proof.
  unfold content_step. destruct x as [lexer has_content]. intros H.
  pose proof (remaining_advance_le lexer false) as H1.
  pose proof (remaining_advance_le (advance lexer) false) as H2.
  pose proof (remaining_advance_le (advance (mark_end lexer)) false) as H3.
  pose proof (remaining_advance_mark_end lexer false) as H4.
  unfold advance in *.
  step_cases H; inversion H; subst; cbn [fst];
    rewrite ?remaining_set_result_symbol, ?remaining_mark_end; lia.
Qed.

Lemma content_remaining q is_triple is_raw is_format fuel st e :
  loop fuel (content_step q is_triple is_raw is_format) st = Some e ->
  (remaining (match e with Break l _ => l | Return _ l => l end)
   <= remaining (fst st))%nat.
Proof.
  intros H.
  destruct (loop_invariant (content_step q is_triple is_raw is_format)
              (fun x => (remaining (fst x) <= remaining (fst st))%nat))
    with (3 := H) as (x & Hx & Hexit).
  - intros x y Hx Hs. apply content_step_decreases in Hs. lia.
  - lia.
  - apply content_step_exit_remaining in Hexit. lia.
Qed.

Lemma scan_string_start_remaining scanner lexer valid_symbols f :
  scan_string_start scanner lexer valid_symbols = Some f ->
  (remaining (flow_lexer f) <= remaining lexer)%nat.
Proof.
  unfold scan_string_start. intros H.
  destruct (valid_symbols STRING_START); [|inversion H; cbn; lia].
  destruct (loop _ prefix_step _) as [st|] eqn:Ep; cbn [bind] in H;
    [|discriminate].
  apply prefix_remaining in Ep. cbn [p_lexer] in Ep.
  pose proof (remaining_advance_le (p_lexer st) false) as H1.
  pose proof (remaining_advance_le (advance (p_lexer st)) false) as H2.
  pose proof (remaining_advance_le (advance (advance (p_lexer st))) false)
    as H3.
  unfold advance in *.
  cbv zeta in H.
  step_cases H; inversion H; subst; cbn [flow_lexer];
    rewrite ?remaining_set_result_symbol, ?remaining_mark_end; lia.
Qed.

Lemma scan_string_content_remaining scanner lexer valid_symbols f :
  scan_string_content scanner lexer valid_symbols = Some f ->
  (remaining (flow_lexer f) <= remaining lexer)%nat.
Proof.
  unfold scan_string_content. intros H.
  destruct (valid_symbols STRING_CONTENT
            && (array_size (delimiters scanner) >? 0));
    [|inversion H; cbn; lia].
  cbv zeta in H.
  destruct (loop _ (content_step _ _ _ _) _) as [e|] eqn:El;
    cbn [bind] in H; [|discriminate].
  apply content_remaining in El. cbn [fst] in El.
  destruct e as [l [|]|r l]; inversion H; subst; cbn [flow_lexer];
    rewrite ?remaining_set_result_symbol, ?remaining_mark_end; lia.
Qed.

Lemma scan_string_end_remaining scanner lexer valid_symbols b s' lexer' :
  scan_string_end scanner lexer valid_symbols = (b, s', lexer') ->
  (remaining lexer' <= remaining lexer)%nat.
Proof.
  unfold scan_string_end. intros H.
  pose proof (remaining_advance_le lexer false) as H1.
  pose proof (remaining_advance_le (advance lexer) false) as H2.
  pose proof (remaining_advance_le (advance (advance lexer)) false) as H3.
  unfold advance in *.
  cbv zeta in H.
  step_cases H; inversion H; subst;
    rewrite ?remaining_set_result_symbol, ?remaining_mark_end; lia.
Qed.

Lemma scan_string_remaining scanner lexer valid_symbols b s' lexer' :
  scan_string scanner lexer valid_symbols = Some (b, s', lexer') ->
  (remaining lexer' <= remaining lexer)%nat.
Proof.
  unfold scan_string. intros H.
  destruct (scan_string_start scanner lexer valid_symbols) as [[r|l]|] eqn:Es;
    cbn [bind] in H; [| |discriminate];
    apply scan_string_start_remaining in Es; cbn [flow_lexer] in Es.
  { inversion H; subst. exact Es. }
  destruct (scan_string_content scanner l valid_symbols) as [[r|l']|] eqn:Ec;
    cbn [bind] in H; [| |discriminate];
    apply scan_string_content_remaining in Ec; cbn [flow_lexer] in Ec.
  { inversion H; subst. cbn in Ec. lia. }
  inversion H as [He]. apply scan_string_end_remaining in He. lia.
Qed.

Lemma scan_string_indents scanner lexer valid_symbols b s' lexer' :
  scan_string scanner lexer valid_symbols = Some (b, s', lexer') ->
  indents s' = indents scanner.
Proof.
  unfold scan_string. intros H.
  destruct (scan_string_start scanner lexer valid_symbols) as [[r|l]|] eqn:Es;
    cbn [bind] in H; [| |discriminate].
  { inversion H; subst. unfold scan_string_start in Es.
    destruct (valid_symbols STRING_START); [|discriminate].
    destruct (loop _ prefix_step _) as [st|]; cbn [bind] in Es;
      [|discriminate].
    cbv zeta in Es. step_cases Es; inversion Es; reflexivity. }
  destruct (scan_string_content scanner l valid_symbols) as [[r|l']|] eqn:Ec;
    cbn [bind] in H; [| |discriminate].
  { inversion H; subst. unfold scan_string_content in Ec.
    destruct (valid_symbols STRING_CONTENT
              && (array_size (delimiters scanner) >? 0)); [|discriminate].
    cbv zeta in Ec.
    destruct (loop _ (content_step _ _ _ _) _) as [e|]; cbn [bind] in Ec;
      [|discriminate].
    destruct e as [l0 [|]|r l0]; inversion Ec; reflexivity. }
  inversion H as [He]. unfold scan_string_end in He. cbv zeta in He.
  step_cases He; inversion He; reflexivity.
Qed.

(** What a call does to the indent stack, with the bound on the width it
    pushes. *)
Lemma scan_indents scanner lexer valid_symbols b s' lexer' :
  tree_sitter_codon_external_scanner_scan scanner lexer valid_symbols
    = Some (b, s', lexer') ->
  indents s' = indents scanner
  \/ indents s' = array_pop (indents scanner)
  \/ exists w,
       (if array_size (indents scanner) >? 0
        then array_back (indents scanner) else 0) < w
       /\ 0 <= w <= Z.of_nat (remaining lexer)
       /\ indents s' = array_push (indents scanner) (uint16 w).
Proof.
  unfold tree_sitter_codon_external_scanner_scan. intros H.
  destruct (valid_symbols DEDENT && (array_size (indents scanner) >? 0)
            && eof lexer).
  { inversion H; subst. auto. }
  destruct (if valid_symbols STRING_START || valid_symbols STRING_CONTENT
               || valid_symbols STRING_END
               || valid_symbols ESCAPE_INTERPOLATION
            then scan_string scanner lexer valid_symbols
            else Some (false, scanner, lexer)) as [[[b1 s1] l1]|] eqn:E1;
    cbn [bind] in H; [|discriminate].
  assert (effect scanner b1 (result_symbol l1) s1
          /\ indents s1 = indents scanner
          /\ (remaining l1 <= remaining lexer)%nat) as (Hs & Hi1 & Hl1).
  { destruct (_ || _) in E1.
    - split; [now apply scan_string_effect in E1|].
      split; [now apply scan_string_indents in E1
             |now apply scan_string_remaining in E1].
    - inversion E1; repeat split; [constructor|lia]. }
  destruct b1; [inversion H; subst; auto|].
  apply effect_fail_same in Hs. subst s1.
  destruct (if valid_symbols NEWLINE || valid_symbols INDENT
               || valid_symbols DEDENT
            then scan_newline scanner l1 valid_symbols
            else Some (false, scanner, l1)) as [[[b2 s2] l2]|] eqn:E2;
    cbn [bind] in H; [|discriminate].
  assert (s' = s2) as -> by (destruct b2; inversion H; reflexivity).
  destruct (_ || _) in E2; [|inversion E2; auto].
  apply scan_newline_indents in E2.
  destruct E2 as [E2 | [E2 | (w & Hw1 & Hw2 & E2)]]; auto.
  right; right. exists w. repeat split; trivial; lia.
Qed.

Lemma scan_newline_remaining scanner lexer valid_symbols b s' lexer' :
  scan_newline scanner lexer valid_symbols = Some (b, s', lexer') ->
  (remaining lexer' <= remaining lexer)%nat.
Proof.
  unfold scan_newline. intros H.
  destruct (consume_newline lexer) as [[l|l]|] eqn:Ec; cbn [bind] in H;
    [| |discriminate]; apply consume_newline_remaining in Ec.
  - inversion H; subst. exact Ec.
  - destruct (measure_indent l) as [[w l']|] eqn:Em; cbn [bind] in H;
      [|discriminate].
    apply measure_indent_width in Em.
    inversion H as [Hd]. unfold indent_decision in Hd.
    step_cases Hd; inversion Hd; subst;
      rewrite ?remaining_set_result_symbol; lia.
Qed.

(** No call moves the lexer back. *)
Lemma scan_remaining scanner lexer valid_symbols b s' lexer' :
  tree_sitter_codon_external_scanner_scan scanner lexer valid_symbols
    = Some (b, s', lexer') ->
  (remaining lexer' <= remaining lexer)%nat.
Proof.
  unfold tree_sitter_codon_external_scanner_scan. intros H.
  destruct (valid_symbols DEDENT && (array_size (indents scanner) >? 0)
            && eof lexer).
  { inversion H; subst. rewrite remaining_set_result_symbol. lia. }
  destruct (if valid_symbols STRING_START || valid_symbols STRING_CONTENT
               || valid_symbols STRING_END
               || valid_symbols ESCAPE_INTERPOLATION
            then scan_string scanner lexer valid_symbols
            else Some (false, scanner, lexer)) as [[[b1 s1] l1]|] eqn:E1;
    cbn [bind] in H; [|discriminate].
  assert (remaining l1 <= remaining lexer)%nat as Hl1.
  { destruct (_ || _) in E1.
    - now apply scan_string_remaining in E1.
    - inversion E1. lia. }
  destruct b1; [inversion H; subst; exact Hl1|].
  destruct (if valid_symbols NEWLINE || valid_symbols INDENT
               || valid_symbols DEDENT
            then scan_newline s1 l1 valid_symbols
            else Some (false, s1, l1)) as [[[b2 s2] l2]|] eqn:E2;
    cbn [bind] in H; [|discriminate].
  assert (remaining l2 <= remaining l1)%nat as Hl2.
  { destruct (_ || _) in E2.
    - now apply scan_newline_remaining in E2.
    - inversion E2. lia. }
  destruct b2; inversion H; subst; lia.
Qed.

(** ** The scanner moves the lexer through its interface only *)


Section LexerInterface.

(** Any property of the lexer that its three operations keep. *)
Variable P : TSLexer -> Prop.
Hypothesis P_advance : forall l sk, P l -> P (lexer_advance l sk).
Hypothesis P_mark_end : forall l, P l -> P (mark_end l).
Hypothesis P_result : forall l t, P l -> P (set_result_symbol l t).

















End LexerInterface.



(** ** Monotonicity of the indent stack, on inputs below 65536 code points *)

Lemma strictly_increasing_snoc l a x :
  strictly_increasing (a :: l) = true ->
  last (a :: l) 0 < x ->
  strictly_increasing ((a :: l) ++ [x]) = true.
Proof.
  revert a. induction l as [|b t IH]; intros a Hl Hx.
  - simpl in *. apply andb_true_intro. split; [apply Z.ltb_lt; lia|trivial].
  - change (strictly_increasing (a :: b :: t))
      with ((a <? b) && strictly_increasing (b :: t)) in Hl.
    apply andb_prop in Hl as [Hab Hl].
    change (strictly_increasing ((a :: b :: t) ++ [x]))
      with ((a <? b) && strictly_increasing ((b :: t) ++ [x])).
    rewrite Hab. cbn [andb]. now apply IH.
Qed.

Lemma strictly_increasing_push l x :
  strictly_increasing l = true ->
  (if array_size l >? 0 then array_back l else 0) < x ->
  strictly_increasing (array_push l x) = true.
Proof.
  unfold array_push, array_back, array_size.
  destruct l as [|a l]; [reflexivity|]. intros Hl Hx.
  apply strictly_increasing_snoc; trivial.
Qed.

Lemma strictly_increasing_pop l :
  strictly_increasing l = true -> strictly_increasing (array_pop l) = true.
Proof.
  unfold array_pop.
  induction l as [|a [|b [|c t]] IH]; intros Hl; try reflexivity.
  change (strictly_increasing (a :: b :: c :: t))
    with ((a <? b) && strictly_increasing (b :: c :: t)) in Hl.
  apply andb_prop in Hl as [Hab Hl].
  change (removelast (a :: b :: c :: t))
    with (a :: removelast (b :: c :: t)).
  specialize (IH Hl).
  change (removelast (b :: c :: t)) with (b :: removelast (c :: t)) in *.
  change (strictly_increasing (a :: b :: removelast (c :: t)))
    with ((a <? b) && strictly_increasing (b :: removelast (c :: t))).
  now rewrite Hab.
Qed.

(** A call on an input of fewer than 65536 code points keeps the indent
    stack strictly increasing: the width it pushes is above the top and
    is stored as it is. *)
Lemma scan_preserves_increasing scanner lexer valid_symbols b s' lexer' :
  strictly_increasing (indents scanner) = true ->
  Z.of_nat (length (input lexer)) < 2 ^ 16 ->
  tree_sitter_codon_external_scanner_scan scanner lexer valid_symbols
    = Some (b, s', lexer') ->
  strictly_increasing (indents s') = true.
Proof.
  intros Hinc Hlen Hscan. apply scan_indents in Hscan.
  destruct Hscan as [-> | [-> | (w & Htop & Hw & ->)]]; trivial.
  - now apply strictly_increasing_pop.
  - apply strictly_increasing_push; trivial.
    unfold uint16, remaining in *. rewrite Z.mod_small; lia.
Qed.

(** X1: in every state reached from the initial one by calls on inputs of
    fewer than 65536 code points each, the indent stack is strictly
    increasing from bottom to top: a width is pushed only when it is above
    the top, and below 65536 it is stored as measured. *)
Lemma reachable_within_increasing s :
  reachable_within (2 ^ 16) s -> strictly_increasing (indents s) = true.
Proof.
  induction 1 as [|s lexer v b s' lexer' _ IH Hlen Hscan]; [reflexivity|].
  eapply scan_preserves_increasing; eassumption.
Qed.

Lemma reachable_within_increasing_witness :
  strictly_increasing (indents (mkScanner [2; 4] [] false)) = true.
Proof.
  apply reachable_within_increasing.
  apply (reachable_within_scan (2 ^ 16) (mkScanner [2] [] false)
           (lexer_start (chr "010" :: codes "    x"))
           (accepts [NEWLINE; INDENT; DEDENT]) true
           (mkScanner [2; 4] [] false)
           (mkLexer (codes "x") 5 5 (Some 1) INDENT)).
  - apply (reachable_within_scan (2 ^ 16)
             tree_sitter_codon_external_scanner_create
             (lexer_start (chr "010" :: codes "  x"))
             (accepts [NEWLINE; INDENT; DEDENT]) true
             (mkScanner [2] [] false)
             (mkLexer (codes "x") 3 3 (Some 1) INDENT)).
    + constructor.
    + reflexivity.
    + reflexivity.
  - reflexivity.
  - reflexivity.
Defined.

(** ** Scenarios of the specification *)

(** After [if x:], the rest of the input gives INDENT and the stack [4];
    at the end of input the stack is drained by a DEDENT. *)
Example scenario_indent_then_dedent :
  let kinds := accepts [NEWLINE; INDENT; DEDENT] in
  scan_sequence [kinds] tree_sitter_codon_external_scanner_create
    (chr "010" :: codes "    y" ++ [chr "010"])
  = Some ([(INDENT, [])], mkScanner [4] [] false,
          codes "    y" ++ [chr "010"])
  /\ scan_sequence [kinds] (mkScanner [4] [] false) []
     = Some ([(DEDENT, [])], mkScanner [] [] false, []).
Proof. split; reflexivity. Qed.

(** A single-quoted string with a line feed in front of any closing
    quote: the content stops in front of the line feed, and the next call
    reports no match, the delimiter left open. *)
Example scenario_unterminated_string :
  let content :=
    accepts [STRING_CONTENT; ESCAPE_INTERPOLATION; STRING_END] in
  scan_sequence [accepts [STRING_START]; content; content]
    tree_sitter_codon_external_scanner_create
    (codes "'ab" ++ chr "010" :: codes "c'")
  = Some ([(STRING_START, codes "'"); (STRING_CONTENT, codes "ab")],
          mkScanner [] [chr "'"] false, chr "010" :: codes "c'").
Proof. reflexivity. Qed.

(** The closing quotes of a triple-quoted string are matched by a call
    that accepts STRING_END alone.  When STRING_CONTENT is acceptable as
    well, the content block has moved the lexer two quotes into the
    closing sequence by the time it finds no content, the STRING_END block
    starts from there, and the call reports no match. *)
Example closing_triple_quote :
  let content :=
    accepts [STRING_CONTENT; ESCAPE_INTERPOLATION; STRING_END] in
  let s := mkScanner [] [1319] true in
  scan_sequence [accepts [STRING_END]] s (codes "'''")
  = Some ([(STRING_END, codes "'''")], mkScanner [] [] false, [])
  /\ tree_sitter_codon_external_scanner_scan s
       (lexer_start (codes "'''")) content
     = Some (false, s, mkLexer [] 3 0 (Some 0) NEWLINE).
Proof. split; reflexivity. Qed.

(** A block that falls through keeps its advance: with STRING_START and
    NEWLINE acceptable, the prefix letter in front of a line feed ends up
    inside the NEWLINE token. *)
Example prefix_letter_in_newline :
  scan_sequence [accepts [STRING_START; NEWLINE]]
    tree_sitter_codon_external_scanner_create (codes "r" ++ [chr "010"])
  = Some ([(NEWLINE, codes "r" ++ [chr "010"])],
          tree_sitter_codon_external_scanner_create, []).
Proof. reflexivity. Qed.

(** * The claims of the specification *)

(** ** State serialization *)

(** C1, as stated, fails: the first six bytes of the serialization of the
    state with indent stack [4; 8] announce two widths and hold one.
    [deserialize] stops at the missing width and keeps the one it has
    read: the result is the partially restored state with indent stack
    [4], not the all-empty state. *)
Lemma deserialize_truncated_not_empty :
  let s := mkScanner [4; 8] [] false in
  let buffer :=
    firstn 6 (tree_sitter_codon_external_scanner_serialize 1024 s) in
  buffer = [Byte.x02; Byte.x00; Byte.x00; Byte.x00; Byte.x04; Byte.x00]
  /\ tree_sitter_codon_external_scanner_deserialize
       tree_sitter_codon_external_scanner_create buffer
     = mkScanner [4] [] false
  /\ tree_sitter_codon_external_scanner_deserialize
       tree_sitter_codon_external_scanner_create buffer
     <> mkScanner [] [] false.
Proof.
  repeat split. discriminate.
Qed.

(** C1, amended: [deserialize] is a total function of the buffer (it never
    raises) and starts from the cleared state.  A buffer of fewer than
    four bytes, the empty one included, yields the all-empty state.  A
    buffer that is a proper prefix, of [k] bytes, of the serialization of
    a state [s] with [n] indent levels yields exactly the entries that
    lie in full in front of the cut: the first [(k - 4) / 2] indent levels
    of [s] (all [n] once [k] reaches [4 + 2 * n]; subtraction stops at 0),
    the first [(k - (8 + 2 * n)) / 4] of its delimiters, and the
    interpolation flag false. *)
Theorem deserialize_truncated cap s0 s buffer rest :
  cap < 2 ^ 32 ->
  well_typed s ->
  tree_sitter_codon_external_scanner_serialize cap s = buffer ++ rest ->
  rest <> [] ->
  tree_sitter_codon_external_scanner_deserialize s0 buffer
  = mkScanner
      (firstn ((length buffer - 4) / 2) (indents s))
      (firstn ((length buffer - (8 + 2 * length (indents s))) / 4)
         (delimiters s))
      false
  /\ (forall b : list byte,
        (length b < 4)%nat ->
        tree_sitter_codon_external_scanner_deserialize s0 b
        = mkScanner [] [] false).
Proof.
  intros Hcap Hwt Hser Hrest.
  assert (tree_sitter_codon_external_scanner_serialize cap s <> []) as Hne.
  { rewrite Hser. destruct buffer, rest; simpl; congruence. }
  destruct (serialize_layout cap s Hne) as [Hlay Hlen].
  rewrite Hlay in Hser.
  pose proof Hlen as Hlen'. rewrite length_layout in Hlen'.
  split; [|intros b Hb; now apply deserialize_short].
  rewrite <- (deserialize_layout_cut s0 s (length buffer) Hwt).
  - now rewrite Hser, firstn_app, Nat.sub_diag, firstn_all, app_nil_r.
  - unfold array_size. lia.
  - unfold array_size. lia.
  - rewrite Hser, length_app. destruct rest; [congruence|simpl; lia].
Qed.

Lemma deserialize_truncated_witness :
  let s := mkScanner [4; 8] [1058; 295] true in
  let bytes := tree_sitter_codon_external_scanner_serialize 1024 s in
  tree_sitter_codon_external_scanner_deserialize
    tree_sitter_codon_external_scanner_create (firstn 6 bytes)
  = mkScanner [4] [] false
  /\ tree_sitter_codon_external_scanner_deserialize
       tree_sitter_codon_external_scanner_create (firstn 19 bytes)
     = mkScanner [4; 8] [1058] false
  /\ tree_sitter_codon_external_scanner_deserialize
       tree_sitter_codon_external_scanner_create (firstn 20 bytes)
     = mkScanner [4; 8] [1058; 295] false.
Proof.
  assert (well_typed (mkScanner [4; 8] [1058; 295] true)) as Hwt
    by (split; repeat constructor; discriminate).
  split; [|split].
  - apply (deserialize_truncated 1024
             tree_sitter_codon_external_scanner_create
             (mkScanner [4; 8] [1058; 295] true)
             (firstn 6 (tree_sitter_codon_external_scanner_serialize 1024
                          (mkScanner [4; 8] [1058; 295] true)))
             (skipn 6 (tree_sitter_codon_external_scanner_serialize 1024
                         (mkScanner [4; 8] [1058; 295] true)))
             eq_refl Hwt eq_refl).
    discriminate.
  - apply (deserialize_truncated 1024
             tree_sitter_codon_external_scanner_create
             (mkScanner [4; 8] [1058; 295] true)
             (firstn 19 (tree_sitter_codon_external_scanner_serialize 1024
                           (mkScanner [4; 8] [1058; 295] true)))
             (skipn 19 (tree_sitter_codon_external_scanner_serialize 1024
                          (mkScanner [4; 8] [1058; 295] true)))
             eq_refl Hwt eq_refl).
    discriminate.
  - apply (deserialize_truncated 1024
             tree_sitter_codon_external_scanner_create
             (mkScanner [4; 8] [1058; 295] true)
             (firstn 20 (tree_sitter_codon_external_scanner_serialize 1024
                           (mkScanner [4; 8] [1058; 295] true)))
             (skipn 20 (tree_sitter_codon_external_scanner_serialize 1024
                          (mkScanner [4; 8] [1058; 295] true)))
             eq_refl Hwt eq_refl).
    discriminate.
Defined.

(** C2: for every reachable state whose encoding (9 bytes, 2 more for
    each indent level and 4 more for each delimiter) fits the capacity,
    [serialize] gives that encoding in full, and deserializing the bytes
    gives the state back, whatever the state deserialized into.  The
    bytes are the layout of the two stacks and the flag and nothing else,
    so that one logical state has one serialization.  The capacity is
    below 2 ^ 32, [serialize] returning an [unsigned]. *)
Theorem serialize_deserialize_roundtrip cap s0 s :
  cap < 2 ^ 32 ->
  reachable s ->
  9 + 2 * Z.of_nat (length (indents s))
    + 4 * Z.of_nat (length (delimiters s)) <= cap ->
  tree_sitter_codon_external_scanner_serialize cap s = layout s
  /\ Z.of_nat (length (tree_sitter_codon_external_scanner_serialize cap s))
     = 9 + 2 * Z.of_nat (length (indents s))
       + 4 * Z.of_nat (length (delimiters s))
  /\ tree_sitter_codon_external_scanner_deserialize s0
       (tree_sitter_codon_external_scanner_serialize cap s) = s.
Proof.
  intros Hcap Hreach Hfit.
  assert (Z.of_nat (length (layout s)) <= cap) as Hlen
    by (rewrite length_layout; lia).
  rewrite (serialize_fits cap s Hlen).
  split; [reflexivity|]. split; [rewrite length_layout; lia|].
  destruct (deserialize_layout_firstn s0 s (length (layout s))) as [Hfull _].
  - now apply reachable_well_typed.
  - unfold array_size. lia.
  - unfold array_size. lia.
  - rewrite firstn_all in Hfull. apply Hfull. lia.
Qed.

Lemma serialize_deserialize_roundtrip_witness :
  let s := mkScanner [4] [1063] true in
  tree_sitter_codon_external_scanner_serialize 1024 s = layout s
  /\ Z.of_nat (length (tree_sitter_codon_external_scanner_serialize 1024 s))
     = 15
  /\ tree_sitter_codon_external_scanner_deserialize
       tree_sitter_codon_external_scanner_create
       (tree_sitter_codon_external_scanner_serialize 1024 s) = s.
Proof.
  apply (serialize_deserialize_roundtrip 1024
           tree_sitter_codon_external_scanner_create
           (mkScanner [4] [1063] true)).
  - reflexivity.
  - apply (reachable_scan (mkScanner [4] [] false)
             (lexer_start (codes "f'")) (accepts [STRING_START])
             true _ (mkLexer [] 2 0 (Some 2) STRING_START)).
    + apply (reachable_scan tree_sitter_codon_external_scanner_create
               (lexer_start (chr "010" :: codes "    x"))
               (accepts [NEWLINE; INDENT; DEDENT])
               true _ (mkLexer (codes "x") 5 5 (Some 1) INDENT)).
      * apply reachable_create.
      * reflexivity.
    + reflexivity.
  - discriminate.
Defined.

(** ** The two outcomes of a call *)

(** At the level of the code, a call that reports no match can leave the
    lexer it was handed advanced: inside an open format string, on the
    input [{x] with string content acceptable, it has advanced past the
    brace (scanner.c, the [advance] before "Start of interpolation -
    handled by grammar").  The scanner never moves the lexer back; the
    caller takes the position of the next call from the reported token,
    and from nothing when there is none. *)
Lemma scan_no_match_moves_cursor :
  let s := mkScanner [] [1058] true in
  let lexer := lexer_start (codes "{x") in
  let lexer' := mkLexer (codes "x") 1 0 None NEWLINE in
  tree_sitter_codon_external_scanner_scan s lexer
    (accepts [STRING_CONTENT; ESCAPE_INTERPOLATION; STRING_END])
  = Some (false, s, lexer')
  /\ position lexer' <> position lexer
  /\ input lexer' <> input lexer.
Proof.
  repeat split; discriminate.
Qed.


(** ** Dedent at the end of input *)

Lemma scan_eof_dedent scanner lexer valid_symbols :
  valid_symbols DEDENT = true ->
  eof lexer = true ->
  indents scanner <> [] ->
  tree_sitter_codon_external_scanner_scan scanner lexer valid_symbols
  = Some (true, set_indents scanner (array_pop (indents scanner)),
          set_result_symbol lexer DEDENT).
Proof.
  intros Hv He Hne. unfold tree_sitter_codon_external_scanner_scan.
  rewrite Hv, He.
  destruct (indents scanner) as [|x l] eqn:E; [congruence|].
  reflexivity.
Qed.

Lemma array_pop_firstn l : array_pop l = firstn (length l - 1) l.
Proof.
  unfold array_pop. rewrite removelast_firstn_len.
  now rewrite Nat.sub_1_r.
Qed.

(** C4: at the end of input with DEDENT acceptable, a call on a non-empty
    indent stack pops one level and reports DEDENT; [n] successive such
    calls report [n] DEDENTs of empty text and leave the stack without
    its [n] top levels.  From [4; 8; 12] the stacks are [4; 8], [4] and
    [], see the witness. *)
Theorem eof_dedent_drain scanner lexer valid_symbols n :
  valid_symbols DEDENT = true ->
  eof lexer = true ->
  (n <= length (indents scanner))%nat ->
  (indents scanner <> [] ->
   tree_sitter_codon_external_scanner_scan scanner lexer valid_symbols
   = Some (true, set_indents scanner (array_pop (indents scanner)),
           set_result_symbol lexer DEDENT))
  /\ scan_sequence (repeat valid_symbols n) scanner []
     = Some (repeat (DEDENT, []) n,
             set_indents scanner
               (firstn (length (indents scanner) - n) (indents scanner)),
             []).
Proof.
  intros Hv He Hn. split; [now apply scan_eof_dedent|].
  clear lexer He. revert scanner Hn.
  induction n as [|n IH]; intros s Hn.
  - simpl. rewrite Nat.sub_0_r, firstn_all. destruct s; reflexivity.
  - assert (indents s <> []) as Hne.
    { destruct (indents s); simpl in Hn; [lia|discriminate]. }
    cbn [repeat scan_sequence].
    rewrite (scan_eof_dedent s (lexer_start []) valid_symbols Hv eq_refl Hne).
    cbn [bind]. unfold rest_after, token_text. cbn [skipn].
    rewrite skipn_nil, firstn_nil.
    rewrite IH; cbn [set_indents indents delimiters inside_f_string].
    + cbn [bind]. rewrite array_pop_firstn, length_firstn, firstn_firstn.
      unfold set_indents. cbn [delimiters inside_f_string].
      do 5 f_equal. lia.
    + rewrite array_pop_firstn, length_firstn. lia.
Qed.

Lemma eof_dedent_drain_witness :
  let v := accepts [DEDENT] in
  let s := mkScanner [4; 8; 12] [] false in
  (tree_sitter_codon_external_scanner_scan s (lexer_start []) v
   = Some (true, mkScanner [4; 8] [] false,
           set_result_symbol (lexer_start []) DEDENT)
   /\ scan_sequence [v] s [] =
      Some ([(DEDENT, [])], mkScanner [4; 8] [] false, []))
  /\ scan_sequence [v; v] s [] =
     Some ([(DEDENT, []); (DEDENT, [])], mkScanner [4] [] false, [])
  /\ scan_sequence [v; v; v] s [] =
     Some ([(DEDENT, []); (DEDENT, []); (DEDENT, [])],
           mkScanner [] [] false, []).
Proof.
  split; [|split].
  - destruct (eof_dedent_drain (mkScanner [4; 8; 12] [] false)
                (lexer_start []) (accepts [DEDENT]) 1 eq_refl eq_refl)
      as [H1 H2]; [simpl; lia|].
    split; [apply H1; discriminate | exact H2].
  - apply (eof_dedent_drain (mkScanner [4; 8; 12] [] false)
             (lexer_start []) (accepts [DEDENT]) 2 eq_refl eq_refl).
    simpl; lia.
  - apply (eof_dedent_drain (mkScanner [4; 8; 12] [] false)
             (lexer_start []) (accepts [DEDENT]) 3 eq_refl eq_refl).
    simpl; lia.
Defined.

(** ** Line structure *)

(** The three-way decision of [scan_newline], for a lexer the line
    terminator was found in ([lexer1], marked behind the terminator) and
    the width [w] measured from there ([lexer2] in front of the first
    code point of the line): INDENT with a push when [w] is above the top
    and INDENT is acceptable, else DEDENT with one pop when [w] is below
    the top and DEDENT is acceptable, else NEWLINE when acceptable and no
    match when not.  The value pushed is [w] narrowed to 16 bits: [w]
    itself below 65536. *)
Lemma scan_newline_decision scanner lexer valid_symbols lexer1 w lexer2 :
  consume_newline lexer = Some (inr lexer1) ->
  measure_indent lexer1 = Some (w, lexer2) ->
  let top :=
    if array_size (indents scanner) >? 0
    then array_back (indents scanner) else 0 in
  let r := scan_newline scanner lexer valid_symbols in
  (w > top -> valid_symbols INDENT = true ->
   r = Some (true,
             set_indents scanner (array_push (indents scanner) (uint16 w)),
             set_result_symbol lexer2 INDENT))
  /\ (w < 2 ^ 16 -> uint16 w = w)
  /\ (w < top -> valid_symbols DEDENT = true ->
      r = Some (true, set_indents scanner (array_pop (indents scanner)),
                set_result_symbol lexer2 DEDENT))
  /\ ((w = top \/ (w > top /\ valid_symbols INDENT = false)
       \/ (w < top /\ valid_symbols DEDENT = false)) ->
      r = Some (valid_symbols NEWLINE, scanner, lexer2)
      /\ result_symbol lexer2 = NEWLINE).
Proof.
  intros Hc Hm top r. subst r. unfold scan_newline.
  rewrite Hc. cbn [bind]. rewrite Hm. cbn [bind].
  unfold indent_decision. fold top.
  pose proof (measure_indent_range _ _ _ Hm) as Hw.
  repeat split.
  - intros Hgt Hv. rewrite Hv.
    replace (w >? top) with true by (symmetry; apply Z.gtb_lt; lia).
    reflexivity.
  - intros Hlt. unfold uint16. apply Z.mod_small. lia.
  - intros Hlt Hv. rewrite Hv.
    replace (w >? top) with false
      by (symmetry; rewrite Z.gtb_ltb; apply Z.ltb_ge; lia).
    replace (w <? top) with true by (symmetry; apply Z.ltb_lt; lia).
    reflexivity.
  - destruct H as [-> | [[Hgt Hv] | [Hlt Hv]]].
    + rewrite Z.gtb_ltb, Z.ltb_irrefl. reflexivity.
    + rewrite Hv, andb_false_r.
      replace (w <? top) with false by (symmetry; apply Z.ltb_ge; lia).
      reflexivity.
    + rewrite Hv, andb_false_r.
      replace (w >? top) with false
        by (symmetry; rewrite Z.gtb_ltb; apply Z.ltb_ge; lia).
      reflexivity.
  - apply measure_indent_result_symbol in Hm.
    apply consume_newline_result_symbol in Hc. congruence.
Qed.

(** C5 on a line indented by 65537 spaces, INDENT acceptable, from the
    empty indent stack: the width measured is 65537, above the top 0, and
    the level pushed is 1 ([w] stored into the [uint16_t] array), where
    the claim has [w] pushed. *)
Theorem scan_newline_wide_indent :
  let lexer := lexer_start (chr "010" :: spaces 65537 ++ codes "x") in
  let lexer2 := mkLexer (codes "x") 65538 65538 (Some 1) NEWLINE in
  (r <- consume_newline lexer ;;
   match r with
   | inl _ => None
   | inr lexer1 => measure_indent lexer1
   end) = Some (65537, lexer2)
  /\ scan_newline tree_sitter_codon_external_scanner_create lexer
       (accepts [NEWLINE; INDENT; DEDENT])
     = Some (true, mkScanner [1] [] false, set_result_symbol lexer2 INDENT).
Proof.
  split; vm_compute; reflexivity.
Qed.

(** ** Strings *)

(** The quote character of every open delimiter of a reachable state is
    one of the two that STRING_START accepts. *)
Lemma reachable_quote_ok s : reachable s -> Forall quote_ok (delimiters s).
Proof.
  induction 1 as [|s lexer v b s' lexer' _ IH Hscan]; [constructor|].
  apply scan_effect in Hscan.
  destruct Hscan; cbn [delimiters set_indents]; trivial.
  - apply Forall_array_push; trivial. unfold quote_ok.
    now rewrite (proj1 (make_delimiter_fields q is_triple is_raw is_format H)).
  - now apply Forall_array_pop.
Qed.

Lemma Forall_array_back (P : Z -> Prop) l :
  l <> [] -> Forall P l -> P (array_back l).
Proof.
  intros Hne H. unfold array_back.
  rewrite (app_removelast_last 0 Hne) in H.
  apply Forall_app in H as [_ H]. now inversion H.
Qed.


Lemma lookahead_cons lexer c rest :
  input lexer = c :: rest -> lookahead lexer = c.
Proof. unfold lookahead. now intros ->. Qed.

Lemma input_advance lexer c rest :
  input lexer = c :: rest ->
  input (advance lexer) = rest
  /\ position (advance lexer) = position lexer + 1
  /\ token_end (advance lexer) = token_end lexer.
Proof.
  unfold advance, lexer_advance. intros ->. repeat split.
Qed.









(** C7, as stated, fails on two counts.  In a raw string the backslash
    is an ordinary code point: in [r'\''] the content is the backslash
    alone and the quote behind it ends the string.  And in a string that
    is not raw, a backslash followed by the NUL code point is consumed
    alone: the loop goes on in front of the NUL. *)
Lemma escape_counterexample :
  let content :=
    accepts [STRING_CONTENT; ESCAPE_INTERPOLATION; STRING_END] in
  scan_sequence [accepts [STRING_START]; content; content]
    tree_sitter_codon_external_scanner_create (codes "r'\''")
  = Some ([(STRING_START, codes "r'");
           (STRING_CONTENT, codes "\");
           (STRING_END, codes "'")],
          tree_sitter_codon_external_scanner_create, codes "'")
  /\ content_step (chr "'") false false false
       (lexer_start (chr "\" :: 0 :: codes "a"), false)
     = Continue (mkLexer (0 :: codes "a") 1 0 None NEWLINE, true).
Proof.
  repeat split.
Qed.

(** C7, amended.  While the content of a string that is not raw is
    scanned, in a reachable state, a backslash followed by a code point
    [x] other than NUL is consumed as exactly two code points, counted as
    content, and the loop goes on behind [x]: neither the quote character
    nor a brace in the place of [x] ends the string or starts an
    interpolation. *)
Theorem escape_consumes_two s lexer has_content x rest fuel :
  reachable s ->
  delimiters s <> [] ->
  delim_is_raw (array_back (delimiters s)) = false ->
  x <> 0 ->
  input lexer = chr "\" :: x :: rest ->
  let d := array_back (delimiters s) in
  let step :=
    content_step (delim_quote_char d) (delim_is_triple d) (delim_is_raw d)
      (delim_is_format d) in
  step (lexer, has_content) = Continue (advance (advance lexer), true)
  /\ input (advance (advance lexer)) = rest
  /\ position (advance (advance lexer)) = position lexer + 2
  /\ loop (S fuel) step (lexer, has_content)
     = loop fuel step (advance (advance lexer), true).
Proof.
  intros Hreach Hne Hraw Hx Hin d step.
  assert (quote_ok d) as Hq.
  { apply Forall_array_back; trivial. now apply reachable_quote_ok. }
  pose proof (lookahead_cons _ _ _ Hin) as Hla.
  destruct (input_advance _ _ _ Hin) as (Hin1 & Hpos1 & _).
  pose proof (lookahead_cons _ _ _ Hin1) as Hla1.
  destruct (input_advance _ _ _ Hin1) as (Hin2 & Hpos2 & _).
  assert (step (lexer, has_content) = Continue (advance (advance lexer), true))
    as Hstep.
  { subst step. fold d in Hraw. rewrite Hraw. unfold content_step.
    rewrite Hla. destruct Hq as [Hq|Hq]; rewrite Hq.
    all: change (chr "\" =? 0) with false.
    all: change (chr "\" =? chr "034") with false.
    all: change (chr "\" =? chr "'") with false.
    all: change (is_newline (chr "\")) with false.
    all: change (chr "\" =? chr "{") with false.
    all: change (chr "\" =? chr "\") with true.
    all: rewrite !andb_false_r; cbv beta iota; cbn [negb andb].
    all: rewrite Hla1; apply Z.eqb_neq in Hx; rewrite Hx; reflexivity. }
  repeat split; trivial.
  - lia.
  - rewrite loop_unfold, Hstep. reflexivity.
Qed.

Lemma escape_consumes_two_witness :
  let s := mkScanner [] [1063] true in
  let step := content_step (chr "'") false false true in
  step (lexer_start (codes "\'{"), false)
  = Continue (mkLexer (codes "{") 2 0 None NEWLINE, true)
  /\ step (mkLexer (codes "\{'") 1 0 None NEWLINE, true)
     = Continue (mkLexer (codes "'") 3 0 None NEWLINE, true).
Proof.
  split.
  - apply (escape_consumes_two (mkScanner [] [1063] true)
             (lexer_start (codes "\'{")) false (chr "'") (codes "{") 0
             reachable_format_string_open).
    + discriminate.
    + reflexivity.
    + discriminate.
    + reflexivity.
  - apply (escape_consumes_two (mkScanner [] [1063] true)
             (mkLexer (codes "\{'") 1 0 None NEWLINE) true (chr "{")
             (codes "'") 0 reachable_format_string_open).
    + discriminate.
    + reflexivity.
    + discriminate.
    + reflexivity.
Defined.

(** ** Monotonicity of the indent stack *)

(** C8 after two calls from the initial state: a line indented by two
    spaces gives the stack [2]; a line indented by 65537 spaces is above
    that top and is pushed as 1.  The reachable stack [2; 1] does not
    increase from bottom to top. *)
Theorem indent_stack_not_increasing :
  let v := accepts [NEWLINE; INDENT; DEDENT] in
  let s1 := mkScanner [2] [] false in
  let s2 := mkScanner [2; 1] [] false in
  tree_sitter_codon_external_scanner_scan
    tree_sitter_codon_external_scanner_create
    (lexer_start (chr "010" :: spaces 2 ++ codes "x")) v
  = Some (true, s1, mkLexer (codes "x") 3 3 (Some 1) INDENT)
  /\ tree_sitter_codon_external_scanner_scan s1
       (lexer_start (chr "010" :: spaces 65537 ++ codes "x")) v
     = Some (true, s2, mkLexer (codes "x") 65538 65538 (Some 1) INDENT)
  /\ reachable s2
  /\ strictly_increasing (indents s2) = false.
Proof.
  assert (tree_sitter_codon_external_scanner_scan
            tree_sitter_codon_external_scanner_create
            (lexer_start (chr "010" :: spaces 2 ++ codes "x"))
            (accepts [NEWLINE; INDENT; DEDENT])
          = Some (true, mkScanner [2] [] false,
                  mkLexer (codes "x") 3 3 (Some 1) INDENT)) as H1
    by (vm_compute; reflexivity).
  assert (tree_sitter_codon_external_scanner_scan (mkScanner [2] [] false)
            (lexer_start (chr "010" :: spaces 65537 ++ codes "x"))
            (accepts [NEWLINE; INDENT; DEDENT])
          = Some (true, mkScanner [2; 1] [] false,
                  mkLexer (codes "x") 65538 65538 (Some 1) INDENT)) as H2
    by (vm_compute; reflexivity).
  intros v s1 s2.
  split; [exact H1|]. split; [exact H2|]. split; [|reflexivity].
  eapply reachable_scan; [|exact H2].
  eapply reachable_scan; [apply reachable_create|exact H1].
Qed.

(** ** The interpolation flag *)

(** C9: in every state reachable from the initial one by scan calls the
    interpolation flag is the format flag of the top of the delimiter
    stack, false when the stack is empty; and whatever the state a call
    starts from, a call that changes the delimiter stack (the push of
    STRING_START, the pop of STRING_END) leaves the flag recomputed from
    the new top. *)
Theorem interpolation_flag_invariant s :
  reachable s ->
  inside_f_string s = top_format_flag s
  /\ (forall s0 lexer valid_symbols b s' lexer',
        tree_sitter_codon_external_scanner_scan s0 lexer valid_symbols
        = Some (b, s', lexer') ->
        delimiters s' <> delimiters s0 ->
        inside_f_string s' = top_format_flag s').
Proof.
  intros Hreach. split; [now apply reachable_flag|].
  intros s0 lexer v b s' lexer' Hscan Hchg.
  apply scan_effect in Hscan.
  exact (proj1 (effect_flag _ _ _ _ Hscan) Hchg).
Qed.

Lemma interpolation_flag_invariant_witness :
  let s := mkScanner [] [1063] true in
  inside_f_string s = top_format_flag s
  /\ (forall s0 lexer valid_symbols b s' lexer',
        tree_sitter_codon_external_scanner_scan s0 lexer valid_symbols
        = Some (b, s', lexer') ->
        delimiters s' <> delimiters s0 ->
        inside_f_string s' = top_format_flag s').
Proof.
  apply (interpolation_flag_invariant (mkScanner [] [1063] true)).
  apply reachable_format_string_open.
Defined.

(** ** Frame *)

(** C10: a call that reports NEWLINE, INDENT or DEDENT leaves the
    delimiter stack and the interpolation flag as they were, and a call
    that reports STRING_START, STRING_CONTENT, ESCAPE_INTERPOLATION or
    STRING_END leaves the indent stack as it was. *)
Theorem scan_frame scanner lexer valid_symbols scanner' lexer' :
  tree_sitter_codon_external_scanner_scan scanner lexer valid_symbols
  = Some (true, scanner', lexer') ->
  (result_symbol lexer' = NEWLINE \/ result_symbol lexer' = INDENT
   \/ result_symbol lexer' = DEDENT ->
   delimiters scanner' = delimiters scanner
   /\ inside_f_string scanner' = inside_f_string scanner)
  /\ (result_symbol lexer' = STRING_START
      \/ result_symbol lexer' = STRING_CONTENT
      \/ result_symbol lexer' = ESCAPE_INTERPOLATION
      \/ result_symbol lexer' = STRING_END ->
      indents scanner' = indents scanner).
Proof.
  intros Hscan. apply scan_effect in Hscan. now apply effect_frame in Hscan.
Qed.

Lemma scan_frame_witness :
  let scanner := mkScanner [4] [1063] true in
  let scanner' := mkScanner [4; 8] [1063] true in
  let lexer' := mkLexer (codes "x") 9 9 (Some 1) INDENT in
  (result_symbol lexer' = NEWLINE \/ result_symbol lexer' = INDENT
   \/ result_symbol lexer' = DEDENT ->
   delimiters scanner' = delimiters scanner
   /\ inside_f_string scanner' = inside_f_string scanner)
  /\ (result_symbol lexer' = STRING_START
      \/ result_symbol lexer' = STRING_CONTENT
      \/ result_symbol lexer' = ESCAPE_INTERPOLATION
      \/ result_symbol lexer' = STRING_END ->
      indents scanner' = indents scanner).
Proof.
  apply (scan_frame (mkScanner [4] [1063] true)
           (lexer_start (chr "010" :: codes "        x"))
           (accepts [NEWLINE; INDENT; DEDENT])).
  reflexivity.
Defined.


(** * Further properties of the scanner *)

(** ** Serialization: capacity, bounds, trailing bytes *)

(** X2: [serialize] reports the whole layout, of 9 bytes and 2 per indent
    level and 4 per delimiter, exactly when that many bytes fit the
    capacity, and the length 0 otherwise: the snapshot it reports is
    never a partial encoding. *)
Theorem serialize_capacity cap s :
  tree_sitter_codon_external_scanner_serialize cap s
  = (if Z.of_nat (length (layout s)) <=? cap then layout s else [])
  /\ Z.of_nat (length (layout s))
     = 9 + 2 * Z.of_nat (length (indents s))
       + 4 * Z.of_nat (length (delimiters s)).
Proof.
  split; [|rewrite length_layout; lia].
  destruct (Z.of_nat (length (layout s)) <=? cap) eqn:Hfit.
  - apply Z.leb_le in Hfit. rewrite length_layout in Hfit.
    unfold tree_sitter_codon_external_scanner_serialize. cbv zeta.
    assert (forall l : list byte, [] ++ l = l) as Hnil by reflexivity.
    replace (buffer_size [] + 4 >? cap) with false
      by (symmetry; rewrite Z.gtb_ltb; apply Z.ltb_ge;
          unfold buffer_size; simpl; lia).
    rewrite Hnil, serialize_indents_fits
      by (unfold buffer_size; rewrite length_le_split; lia).
    match goal with
    | |- context [buffer_size ?b + 4 >? cap] =>
        replace (buffer_size b + 4 >? cap) with false
          by (symmetry; rewrite Z.gtb_ltb; apply Z.ltb_ge;
              unfold buffer_size;
              rewrite length_app, length_le_split, length_encode_indents;
              lia)
    end.
    rewrite serialize_delimiters_fits
      by (unfold buffer_size;
          rewrite !length_app, !length_le_split, length_encode_indents;
          lia).
    match goal with
    | |- context [buffer_size ?b + 1 >? cap] =>
        replace (buffer_size b + 1 >? cap) with false
          by (symmetry; rewrite Z.gtb_ltb; apply Z.ltb_ge;
              unfold buffer_size;
              rewrite !length_app, !length_le_split, length_encode_indents,
                length_encode_delimiters;
              lia)
    end.
    unfold layout. now rewrite <- !app_assoc.
  - apply Z.leb_gt in Hfit.
    destruct (tree_sitter_codon_external_scanner_serialize cap s)
      as [|b bs] eqn:E; [reflexivity|].
    destruct (serialize_layout cap s) as [_ Hle]; [rewrite E; discriminate|].
    lia.
Qed.

Lemma deserialize_indents_bounds k :
  forall buffer i count acc l r,
    (length buffer <= k)%nat ->
    deserialize_indents buffer i count acc = (l, r) ->
    (Forall (fun x => 0 <= x < 2 ^ 16) acc ->
     Forall (fun x => 0 <= x < 2 ^ 16) l)
    /\ (2 * length l + length (match r with Some b => b | None => [] end)
        <= 2 * length acc + length buffer)%nat.
Proof.
  induction k as [|k IH]; intros buffer i count acc l r Hk H.
  - destruct buffer; [|simpl in Hk; lia].
    cbn [deserialize_indents] in H.
    destruct (i <? count); inversion H; subst; simpl; split; auto; lia.
  - destruct buffer as [|b0 [|b1 rest]]; cbn [deserialize_indents] in H.
    + destruct (i <? count); inversion H; subst; simpl; split; auto; lia.
    + destruct (i <? count); inversion H; subst; simpl; split; auto; lia.
    + destruct (i <? count).
      * apply IH in H; [|simpl in Hk; lia].
        destruct H as [Hr Hlen]. unfold array_push in *. split.
        -- intros Hacc. apply Hr. apply Forall_app. split; trivial.
           constructor; [|constructor].
           pose proof (le_combine_bound [b0; b1]) as Hb.
           simpl length in Hb. exact Hb.
        -- rewrite length_app in Hlen. simpl in *. lia.
      * inversion H; subst. simpl. split; auto; lia.
Qed.

Lemma int32_range z : - 2 ^ 31 <= int32 z < 2 ^ 31.
Proof.
  unfold int32.
  pose proof (Z.mod_pos_bound (z + 2 ^ 31) (2 ^ 32) ltac:(lia)). lia.
Qed.

Lemma deserialize_delimiters_bounds k :
  forall buffer i count acc l r,
    (length buffer <= k)%nat ->
    deserialize_delimiters buffer i count acc = (l, r) ->
    (Forall (fun d => - 2 ^ 31 <= d < 2 ^ 31) acc ->
     Forall (fun d => - 2 ^ 31 <= d < 2 ^ 31) l)
    /\ (4 * length l + length (match r with Some b => b | None => [] end)
        <= 4 * length acc + length buffer)%nat.
Proof.
  induction k as [|k IH]; intros buffer i count acc l r Hk H.
  - destruct buffer; [|simpl in Hk; lia].
    cbn [deserialize_delimiters] in H.
    destruct (i <? count); inversion H; subst; simpl; split; auto; lia.
  - destruct buffer as [|b0 [|b1 [|b2 [|b3 rest]]]];
      cbn [deserialize_delimiters] in H;
      try (destruct (i <? count); inversion H; subst; simpl; split; auto;
           lia).
    destruct (i <? count).
    + apply IH in H; [|simpl in Hk; lia].
      destruct H as [Hr Hlen]. unfold array_push in *. split.
      * intros Hacc. apply Hr. apply Forall_app. split; trivial.
        constructor; [apply int32_range|constructor].
      * rewrite length_app in Hlen. simpl in *. lia.
    + inversion H; subst. simpl. split; auto; lia.
Qed.

Ltac bounds_close :=
  repeat split; intros; trivial;
  first [ assumption | lia | discriminate | congruence
        | constructor; fail ].

(** X3: whatever the bytes, and whatever counts they announce,
    [deserialize] restores a state of the declared widths (16-bit indent
    levels, 32-bit signed descriptors) whose stacks hold no more entries
    than the buffer has bytes for: 2 bytes per level behind the first
    count, 4 per descriptor behind the second; the flag is set only if
    the buffer holds a byte behind both stacks. *)
Theorem deserialize_bounds s0 buffer :
  let s := tree_sitter_codon_external_scanner_deserialize s0 buffer in
  well_typed s
  /\ (2 * length (indents s) + 4 * length (delimiters s) <= length buffer)%nat
  /\ (indents s <> [] ->
      (4 + 2 * length (indents s) <= length buffer)%nat)
  /\ (delimiters s <> [] ->
      (8 + 2 * length (indents s) + 4 * length (delimiters s)
       <= length buffer)%nat)
  /\ (inside_f_string s = true ->
      (9 + 2 * length (indents s) + 4 * length (delimiters s)
       <= length buffer)%nat).
Proof.
  unfold tree_sitter_codon_external_scanner_deserialize. cbv zeta.
  assert (well_typed (mkScanner [] [] false)) as Hwt0
    by (split; constructor).
  destruct buffer as [|b0 [|b1 [|b2 [|b3 buffer]]]];
    try (cbn; bounds_close).
  cbn [indents].
  destruct (deserialize_indents buffer 0 (le_combine [b0; b1; b2; b3]) [])
    as [ind r] eqn:Ei.
  destruct (deserialize_indents_bounds _ _ _ _ _ _ _ (le_n _) Ei)
    as [Hri Hli].
  specialize (Hri (Forall_nil _)). cbn [length] in Hli.
  destruct r as [rest|]; [|cbn in *; bounds_close].
  unfold deserialize_from_delimiters.
  destruct rest as [|c0 [|c1 [|c2 [|c3 rest]]]];
    try (cbn in *; bounds_close).
  cbn [delimiters set_indents]. cbv zeta.
  destruct (deserialize_delimiters rest 0 (le_combine [c0; c1; c2; c3]) [])
    as [del r2] eqn:Ed.
  destruct (deserialize_delimiters_bounds _ _ _ _ _ _ _ (le_n _) Ed)
    as [Hrd Hld].
  specialize (Hrd (Forall_nil _)). cbn [length] in Hld, Hli.
  destruct r2 as [[|b rest2]|]; cbn in *; bounds_close.
Qed.

Lemma deserialize_indents_full l tail i acc :
  Forall (fun x => 0 <= x < 2 ^ 16) l ->
  deserialize_indents (encode_indents l ++ tail) i
    (i + Z.of_nat (length l)) acc
  = (acc ++ l, Some tail).
Proof.
  intros Hl.
  destruct (deserialize_indents_firstn l Hl
              (length (encode_indents l ++ tail)) tail i acc) as [_ H].
  rewrite firstn_all in H. rewrite H.
  - rewrite length_app, length_encode_indents.
    replace (2 * length l + length tail - 2 * length l)%nat
      with (length tail) by lia.
    now rewrite firstn_all.
  - rewrite length_app, length_encode_indents. lia.
Qed.

Lemma deserialize_delimiters_full l tail i acc :
  Forall (fun d => - 2 ^ 31 <= d < 2 ^ 31) l ->
  deserialize_delimiters (encode_delimiters l ++ tail) i
    (i + Z.of_nat (length l)) acc
  = (acc ++ l, Some tail).
Proof.
  intros Hl.
  destruct (deserialize_delimiters_firstn l Hl
              (length (encode_delimiters l ++ tail)) tail i acc) as [_ H].
  rewrite firstn_all in H. rewrite H.
  - rewrite length_app, length_encode_delimiters.
    replace (4 * length l + length tail - 4 * length l)%nat
      with (length tail) by lia.
    now rewrite firstn_all.
  - rewrite length_app, length_encode_delimiters. lia.
Qed.

(** X4: [deserialize] reads the layout of a state and ignores every byte
    behind it: for a state of the declared widths with fewer than 2 ^ 32
    entries per stack, the bytes of its layout followed by any further
    bytes restore the state. *)
Theorem deserialize_ignores_trailing s0 s extra :
  well_typed s ->
  array_size (indents s) < 2 ^ 32 ->
  array_size (delimiters s) < 2 ^ 32 ->
  tree_sitter_codon_external_scanner_deserialize s0 (layout s ++ extra) = s.
Proof.
  intros [Hind Hdel] Hn Hm.
  destruct s as [ind del flag]. cbn [indents delimiters] in *.
  unfold layout. cbn [indents delimiters inside_f_string].
  unfold uint32, array_size in *. rewrite !Z.mod_small by lia.
  rewrite <- !app_assoc.
  rewrite deserialize_le_split, le_combine_le_split_4 by lia.
  rewrite <- (Z.add_0_l (Z.of_nat (length ind))).
  rewrite deserialize_indents_full by assumption. cbn [app].
  rewrite deserialize_from_delimiters_le_split, le_combine_le_split_4 by lia.
  cbn [delimiters].
  rewrite <- (Z.add_0_l (Z.of_nat (length del))).
  rewrite deserialize_delimiters_full by assumption.
  cbn. destruct flag; reflexivity.
Qed.

Lemma deserialize_ignores_trailing_witness :
  tree_sitter_codon_external_scanner_deserialize
    tree_sitter_codon_external_scanner_create
    (layout (mkScanner [4; 8] [1063] true) ++ [Byte.xff; Byte.x00])
  = mkScanner [4; 8] [1063] true.
Proof.
  apply (deserialize_ignores_trailing
           tree_sitter_codon_external_scanner_create
           (mkScanner [4; 8] [1063] true) [Byte.xff; Byte.x00]).
  - split; repeat constructor; discriminate.
  - reflexivity.
  - reflexivity.
Defined.

Lemma deserialize_well_typed s0 buffer :
  well_typed (tree_sitter_codon_external_scanner_deserialize s0 buffer).
Proof.
  unfold tree_sitter_codon_external_scanner_deserialize. cbv zeta.
  assert (well_typed (mkScanner [] [] false)) as Hwt0
    by (split; constructor).
  destruct buffer as [|b0 [|b1 [|b2 [|b3 buffer]]]];
    try (cbn; bounds_close).
  cbn [indents].
  destruct (deserialize_indents buffer 0 (le_combine [b0; b1; b2; b3]) [])
    as [ind r] eqn:Ei.
  destruct (deserialize_indents_bounds _ _ _ _ _ _ _ (le_n _) Ei)
    as [Hri _].
  specialize (Hri (Forall_nil _)).
  destruct r as [rest|]; [|cbn in *; bounds_close].
  unfold deserialize_from_delimiters.
  destruct rest as [|c0 [|c1 [|c2 [|c3 rest]]]];
    try (cbn in *; bounds_close).
  cbn [delimiters set_indents]. cbv zeta.
  destruct (deserialize_delimiters rest 0 (le_combine [c0; c1; c2; c3]) [])
    as [del r2] eqn:Ed.
  destruct (deserialize_delimiters_bounds _ _ _ _ _ _ _ (le_n _) Ed)
    as [Hrd _].
  specialize (Hrd (Forall_nil _)).
  destruct r2 as [[|b rest2]|]; cbn in *; bounds_close.
Qed.

(** X5: a state restored from any buffer survives a further snapshot: if
    serializing it does not overflow the capacity, deserializing those
    bytes gives the same state again. *)
Theorem restore_serialize_restore cap s0 s1 buffer :
  cap < 2 ^ 32 ->
  let s := tree_sitter_codon_external_scanner_deserialize s0 buffer in
  tree_sitter_codon_external_scanner_serialize cap s <> [] ->
  tree_sitter_codon_external_scanner_deserialize s1
    (tree_sitter_codon_external_scanner_serialize cap s) = s.
Proof.
  intros Hcap s Hne.
  destruct (serialize_layout cap s Hne) as [Hlay Hlen].
  pose proof Hlen as Hlen'. rewrite length_layout in Hlen'.
  destruct (deserialize_layout_firstn s1 s (length (layout s))) as [Hfull _].
  - apply deserialize_well_typed.
  - unfold array_size. lia.
  - unfold array_size. lia.
  - rewrite Hlay. rewrite firstn_all in Hfull. apply Hfull. lia.
Qed.

Lemma restore_serialize_restore_witness :
  let buffer :=
    [Byte.x02; Byte.x00; Byte.x00; Byte.x00; Byte.x04; Byte.x00] in
  let s :=
    tree_sitter_codon_external_scanner_deserialize
      tree_sitter_codon_external_scanner_create buffer in
  tree_sitter_codon_external_scanner_deserialize
    tree_sitter_codon_external_scanner_create
    (tree_sitter_codon_external_scanner_serialize 1024 s) = s.
Proof.
  apply (restore_serialize_restore 1024
           tree_sitter_codon_external_scanner_create
           tree_sitter_codon_external_scanner_create
           [Byte.x02; Byte.x00; Byte.x00; Byte.x00; Byte.x04; Byte.x00]).
  - reflexivity.
  - discriminate.
Defined.

(** ** Runs of code points *)

Lemma lookahead_head_code lexer : lookahead lexer = head_code (input lexer).
Proof. reflexivity. Qed.

Lemma lexer_advance_cons lexer sk c rest :
  input lexer = c :: rest ->
  lexer_advance lexer sk
  = mkLexer rest (position lexer + 1)
      (if sk then position lexer + 1 else token_start lexer)
      (token_end lexer) (result_symbol lexer).
Proof. unfold lexer_advance. now intros ->. Qed.

(** [n] steps over a text of at least [n] code points. *)
Lemma iter_advance_run sk pre : forall tail lexer,
  input lexer = pre ++ tail ->
  let lexer' := Nat.iter (length pre) (fun l => lexer_advance l sk) lexer in
  input lexer' = tail
  /\ position lexer' = position lexer + Z.of_nat (length pre)
  /\ token_end lexer' = token_end lexer
  /\ result_symbol lexer' = result_symbol lexer.
Proof.
  induction pre as [|c pre IH]; intros tail lexer Hin.
  - simpl. repeat split; trivial. lia.
  - cbn [length]. rewrite Nat.iter_succ_r.
    destruct (IH tail (lexer_advance lexer sk)) as (H1 & H2 & H3 & H4).
    { rewrite (lexer_advance_cons _ _ _ _ Hin). reflexivity. }
    cbv zeta. rewrite H1, H2, H3, H4.
    rewrite (lexer_advance_cons _ _ _ _ Hin). cbn.
    repeat split; trivial. lia.
Qed.

(** A loop that skips while a test holds runs over the text the test
    holds of. *)
Lemma skip_run (p : Z -> bool) (step : TSLexer -> loop_step TSLexer TSLexer) :
  (forall l,
     step l = if p (lookahead l) then Continue (skip l) else Exit l) ->
  forall pre tail lexer fuel,
    Forall (fun c => p c = true) pre ->
    p (head_code tail) = false ->
    input lexer = pre ++ tail ->
    (length pre < fuel)%nat ->
    loop fuel step lexer = Some (skips (length pre) lexer).
Proof.
  intros Hstep pre. induction pre as [|c pre IH];
    intros tail lexer fuel Hpre Htail Hin Hfuel.
  - destruct fuel as [|fuel]; [simpl in Hfuel; lia|].
    rewrite loop_unfold, Hstep, lookahead_head_code, Hin. cbn [app].
    now rewrite Htail.
  - destruct fuel as [|fuel]; [simpl in Hfuel; lia|].
    inversion Hpre as [|? ? Hc Hpre']; subst.
    rewrite loop_unfold, Hstep, lookahead_head_code, Hin.
    cbn [app head_code]. rewrite Hc.
    rewrite (IH tail (skip lexer) fuel); trivial.
    + unfold skips. cbn [length]. now rewrite Nat.iter_succ_r.
    + unfold skip. now rewrite (lexer_advance_cons _ _ _ _ Hin).
    + simpl in Hfuel. lia.
Qed.

Lemma count_indent_step_eq i lexer :
  count_indent_step (i, lexer)
  = if is_space (lookahead lexer)
    then Continue (uint32 (i + 1), skip lexer) else Exit (i, lexer).
Proof. reflexivity. Qed.

Lemma count_indent_run ws : forall tail lexer fuel i,
  Forall (fun c => is_space c = true) ws ->
  is_space (head_code tail) = false ->
  input lexer = ws ++ tail ->
  (length ws < fuel)%nat ->
  0 <= i ->
  i + Z.of_nat (length ws) < 2 ^ 32 ->
  loop fuel count_indent_step (i, lexer)
  = Some (i + Z.of_nat (length ws), skips (length ws) lexer).
Proof.
  induction ws as [|c ws IH]; intros tail lexer fuel i Hws Htail Hin Hfuel Hi Hb.
  - destruct fuel as [|fuel]; [simpl in Hfuel; lia|].
    rewrite loop_unfold, count_indent_step_eq.
    rewrite lookahead_head_code, Hin. cbn [app]. rewrite Htail.
    cbn [length Z.of_nat]. now rewrite Z.add_0_r.
  - destruct fuel as [|fuel]; [simpl in Hfuel; lia|].
    inversion Hws as [|? ? Hc Hws']; subst.
    rewrite loop_unfold, count_indent_step_eq.
    rewrite lookahead_head_code, Hin. cbn [app head_code]. rewrite Hc.
    cbn [length] in Hb.
    unfold uint32. rewrite Z.mod_small by lia.
    rewrite (IH tail (skip lexer) fuel (i + 1)); trivial.
    + unfold skips. cbn [length]. rewrite Nat.iter_succ_r.
      do 2 f_equal. lia.
    + unfold skip. now rewrite (lexer_advance_cons _ _ _ _ Hin).
    + simpl in Hfuel. lia.
    + lia.
    + lia.
Qed.

(** ** Line structure: where the measuring stops, simple lines *)

Lemma count_indent_exit_space fuel st r :
  loop fuel count_indent_step st = Some r ->
  is_space (lookahead (snd r)) = false.
Proof.
  intros H.
  destruct (loop_invariant _ (fun _ => True) (fun _ _ _ _ => I) _ _ _ I H)
    as ([i l] & _ & Hx).
  rewrite count_indent_step_eq in Hx.
  destruct (is_space (lookahead l)) eqn:E; inversion Hx; subst. exact E.
Qed.

Lemma blank_lines_body_space st r :
  blank_lines_body st = Some r -> is_space (lookahead (snd r)) = false.
Proof.
  unfold blank_lines_body. destruct st as [i l]. intros H.
  destruct (if lookahead l =? chr "#"
            then loop (fuel_of l) skip_line_step l else Some l);
    [|discriminate].
  cbn [bind] in H. now apply count_indent_exit_space in H.
Qed.

Lemma measure_indent_line_start lexer w lexer' :
  measure_indent lexer = Some (w, lexer') ->
  line_start (input lexer') = true.
Proof.
  unfold measure_indent. intros H.
  destruct (loop (fuel_of lexer) count_indent_step (0, lexer)) as [st|] eqn:E0;
    [|discriminate].
  cbn [bind] in H.
  destruct (loop (fuel_of (snd st)) blank_lines_step st) as [r|] eqn:E1;
    [|discriminate].
  cbn [bind] in H. subst r.
  apply count_indent_exit_space in E0.
  destruct (loop_invariant blank_lines_step
              (fun x => is_space (lookahead (snd x)) = false))
    with (3 := E1) as ([i l] & Hx & Hexit); trivial.
  - intros [i l] y _ Hs. unfold blank_lines_step in Hs.
    destruct (is_newline (lookahead l) || (lookahead l =? chr "#"));
      [|discriminate].
    destruct (blank_lines_body (i, l)) as [st'|] eqn:Hb; [|discriminate].
    inversion Hs; subst. now apply blank_lines_body_space in Hb.
  - unfold blank_lines_step in Hexit.
    destruct (is_newline (lookahead l) || (lookahead l =? chr "#")) eqn:Ec.
    + destruct (blank_lines_body (i, l)); discriminate.
    + inversion Hexit; subst. cbn [snd] in Hx.
      apply orb_false_elim in Ec as [En Eh].
      unfold line_start. rewrite <- lookahead_head_code.
      now rewrite Hx, En, Eh.
Qed.

(** X6: whenever the line tracker reports a token (NEWLINE, INDENT or
    DEDENT), the lexer stands at the end of the input or in front of a
    code point that is no space or tab, no line terminator and no comment
    sign (a NUL is such a code point). *)
Theorem scan_newline_stops_at_content scanner lexer valid_symbols s' lexer' :
  scan_newline scanner lexer valid_symbols = Some (true, s', lexer') ->
  line_start (input lexer') = true.
Proof.
  unfold scan_newline. intros H.
  destruct (consume_newline lexer) as [[l|l]|]; cbn [bind] in H;
    [discriminate| |discriminate].
  destruct (measure_indent l) as [[w l2]|] eqn:Em; cbn [bind] in H;
    [|discriminate].
  apply measure_indent_line_start in Em.
  inversion H as [Hd]. unfold indent_decision in Hd.
  step_cases Hd; injection Hd; intros <-; intros; exact Em.
Qed.

Lemma scan_newline_stops_at_content_witness :
  line_start (codes "x = 1") = true.
Proof.
  apply (scan_newline_stops_at_content
           tree_sitter_codon_external_scanner_create
           (lexer_start (chr "010" :: codes "  " ++ chr "010"
                           :: codes "# note" ++ chr "010" :: codes "    x = 1"))
           (accepts [NEWLINE; INDENT; DEDENT])
           (mkScanner [4] [] false)
           (mkLexer (codes "x = 1") 15 15 (Some 1) INDENT)).
  reflexivity.
Defined.

Lemma skip_spaces_step_eq l :
  skip_spaces_step l
  = if is_space (lookahead l) then Continue (skip l) else Exit l.
Proof. reflexivity. Qed.

Lemma skip_comment_step_eq l :
  skip_comment_step l
  = if not_eol (lookahead l) then Continue (skip l) else Exit l.
Proof. reflexivity. Qed.

Lemma skips_run pre tail lexer :
  input lexer = pre ++ tail ->
  input (skips (length pre) lexer) = tail
  /\ position (skips (length pre) lexer)
     = position lexer + Z.of_nat (length pre)
  /\ token_end (skips (length pre) lexer) = token_end lexer
  /\ result_symbol (skips (length pre) lexer) = result_symbol lexer.
Proof. apply (iter_advance_run true). Qed.

Lemma advances_run pre tail lexer :
  input lexer = pre ++ tail ->
  input (advances (length pre) lexer) = tail
  /\ position (advances (length pre) lexer)
     = position lexer + Z.of_nat (length pre)
  /\ token_end (advances (length pre) lexer) = token_end lexer
  /\ result_symbol (advances (length pre) lexer) = result_symbol lexer.
Proof. apply (iter_advance_run false). Qed.

(** The first part of [scan_newline] on blanks, an optional comment and a
    line terminator. *)
Lemma consume_newline_run pre cmt t tail lexer :
  Forall (fun c => is_space c = true) pre ->
  Forall (fun c => not_eol c = true) cmt ->
  (cmt = [] \/ head_code cmt = chr "#") ->
  (t = [chr "010"] \/ t = [chr "013"] \/ t = [chr "013"; chr "010"]) ->
  head_code tail <> chr "010" ->
  input lexer = pre ++ cmt ++ t ++ tail ->
  consume_newline lexer
  = Some (inr (mark_end
                 (set_result_symbol
                    (advances (length t)
                       (skips (length cmt) (skips (length pre) lexer)))
                    NEWLINE))).
Proof.
  intros Hpre Hcmt Hhash Ht Htail Hin.
  assert (head_code (t ++ tail) = chr "010"
          \/ head_code (t ++ tail) = chr "013") as Hhd.
  { destruct Ht as [-> | [-> | ->]]; cbn; auto. }
  assert (is_space (head_code (cmt ++ t ++ tail)) = false) as Hsp.
  { destruct Hhash as [-> | Hh].
    - cbn [app]. destruct Hhd as [-> | ->]; reflexivity.
    - destruct cmt as [|c cmt]; [discriminate|]. cbn in Hh. subst c.
      reflexivity. }
  unfold consume_newline.
  rewrite (skip_run is_space skip_spaces_step skip_spaces_step_eq
             pre (cmt ++ t ++ tail) lexer (fuel_of lexer) Hpre Hsp Hin)
    by (unfold fuel_of; rewrite Hin, length_app; lia).
  cbn [bind].
  destruct (skips_run pre _ lexer Hin) as (Hin1 & _).
  set (l1 := skips (length pre) lexer) in *.
  assert ((if lookahead l1 =? chr "#"
           then loop (fuel_of l1) skip_comment_step l1 else Some l1)
          = Some (skips (length cmt) l1)) as ->.
  { assert (not_eol (head_code (t ++ tail)) = false) as Hne.
    { destruct Hhd as [-> | ->]; reflexivity. }
    destruct (lookahead l1 =? chr "#") eqn:Eh.
    - apply (skip_run not_eol skip_comment_step skip_comment_step_eq
               cmt (t ++ tail)); trivial.
      unfold fuel_of. rewrite Hin1, length_app. lia.
    - destruct Hhash as [-> | Hh]; [reflexivity|].
      rewrite lookahead_head_code, Hin1 in Eh.
      destruct cmt as [|c cmt]; [discriminate|]. cbn in Hh, Eh. subst c.
      discriminate. }
  cbn [bind].
  destruct (skips_run cmt _ l1 Hin1) as (Hin2 & _).
  set (l2 := skips (length cmt) l1) in *.
  assert (is_newline (lookahead l2) = true) as ->.
  { rewrite lookahead_head_code, Hin2.
    destruct Hhd as [-> | ->]; reflexivity. }
  cbn [negb]. do 4 f_equal.
  destruct Ht as [-> | [-> | ->]]; cbn [app length] in *;
    unfold advances; cbn [Nat.iter];
    rewrite lookahead_head_code, (proj1 (input_advance l2 _ _ Hin2)).
  - apply Z.eqb_neq in Htail. now rewrite Htail.
  - apply Z.eqb_neq in Htail. now rewrite Htail.
  - reflexivity.
Qed.

Lemma line_start_parts cs :
  line_start cs = true ->
  is_space (head_code cs) = false
  /\ is_newline (head_code cs) = false
  /\ (head_code cs =? chr "#") = false.
Proof.
  unfold line_start. intros H.
  apply andb_prop in H as [H H3]. apply andb_prop in H as [H1 H2].
  now rewrite negb_true_iff in *.
Qed.

Lemma measure_indent_run ws tail lexer :
  Forall (fun c => is_space c = true) ws ->
  line_start tail = true ->
  input lexer = ws ++ tail ->
  Z.of_nat (length ws) < 2 ^ 32 ->
  measure_indent lexer
  = Some (Z.of_nat (length ws), skips (length ws) lexer).
Proof.
  intros Hws Htail Hin Hlen.
  destruct (line_start_parts _ Htail) as (Hsp & Hnl & Hh).
  unfold measure_indent.
  rewrite (count_indent_run ws tail lexer (fuel_of lexer) 0); trivial;
    [|unfold fuel_of; rewrite Hin, length_app; lia|lia].
  cbn [bind snd]. rewrite Z.add_0_l.
  unfold fuel_of. rewrite loop_unfold. unfold blank_lines_step.
  rewrite lookahead_head_code, (proj1 (skips_run ws tail lexer Hin)).
  rewrite Hnl, Hh. reflexivity.
Qed.

(** X7: on an input made of blanks, an optional comment, a line
    terminator (LF, CR or CR LF), [n] spaces or tabs and then a code point
    that starts a line with content (or the end of input), [scan_newline]
    measures the width [n], each tab counting 1, and decides on it; the
    token it reports ends right behind the line terminator and the lexer
    is left in front of the content. *)
Theorem scan_newline_line scanner lexer valid_symbols pre cmt t ws tail :
  Forall (fun c => is_space c = true) pre ->
  Forall (fun c => not_eol c = true) cmt ->
  (cmt = [] \/ head_code cmt = chr "#") ->
  (t = [chr "010"] \/ t = [chr "013"] \/ t = [chr "013"; chr "010"]) ->
  Forall (fun c => is_space c = true) ws ->
  line_start tail = true ->
  Z.of_nat (length ws) < 2 ^ 32 ->
  input lexer = pre ++ cmt ++ t ++ ws ++ tail ->
  exists lexer2,
    scan_newline scanner lexer valid_symbols
    = Some (indent_decision scanner lexer2 valid_symbols
              (Z.of_nat (length ws)))
    /\ input lexer2 = tail
    /\ token_end lexer2
       = Some (position lexer
               + Z.of_nat (length pre + length cmt + length t))
    /\ result_symbol lexer2 = NEWLINE.
Proof.
  intros Hpre Hcmt Hhash Ht Hws Htail Hlen Hin.
  destruct (line_start_parts _ Htail) as (Hsp & Hnl & Hh).
  assert (head_code (ws ++ tail) <> chr "010") as Hnext.
  { destruct ws as [|c ws]; cbn [app head_code]; intros E.
    - rewrite E in Hnl. discriminate.
    - inversion Hws as [|? ? Hc _]; subst. discriminate. }
  pose proof (consume_newline_run pre cmt t (ws ++ tail) lexer
                Hpre Hcmt Hhash Ht Hnext Hin) as Hc.
  destruct (skips_run pre _ lexer Hin) as (Hin1 & Hp1 & He1 & _).
  destruct (skips_run cmt _ _ Hin1) as (Hin2 & Hp2 & He2 & _).
  destruct (advances_run t _ _ Hin2) as (Hin3 & Hp3 & He3 & _).
  set (l3 := advances (length t)
               (skips (length cmt) (skips (length pre) lexer))) in *.
  set (lexer1 := mark_end (set_result_symbol l3 NEWLINE)) in *.
  assert (input lexer1 = ws ++ tail) as Hin4 by exact Hin3.
  exists (skips (length ws) lexer1).
  destruct (skips_run ws _ lexer1 Hin4) as (Hin5 & _ & He5 & Hr5).
  split; [|split; [exact Hin5|split]].
  - unfold scan_newline. rewrite Hc. cbn [bind].
    rewrite (measure_indent_run ws tail lexer1 Hws Htail Hin4 Hlen).
    reflexivity.
  - rewrite He5. cbn [lexer1 token_end mark_end set_result_symbol position].
    f_equal. lia.
  - rewrite Hr5. reflexivity.
Qed.

Lemma scan_newline_line_witness :
  exists lexer2,
    scan_newline (mkScanner [4] [] false)
      (lexer_start (codes " # c" ++ [chr "013"; chr "010"]
                      ++ [chr "009"; chr " "] ++ codes "y"))
      (accepts [NEWLINE; INDENT; DEDENT])
    = Some (indent_decision (mkScanner [4] [] false) lexer2
              (accepts [NEWLINE; INDENT; DEDENT]) 2)
    /\ input lexer2 = codes "y"
    /\ token_end lexer2 = Some 6
    /\ result_symbol lexer2 = NEWLINE.
Proof.
  apply (scan_newline_line (mkScanner [4] [] false)
           (lexer_start (codes " # c" ++ [chr "013"; chr "010"]
                           ++ [chr "009"; chr " "] ++ codes "y"))
           (accepts [NEWLINE; INDENT; DEDENT])
           (codes " ") (codes "# c") [chr "013"; chr "010"]
           [chr "009"; chr " "] (codes "y")).
  - repeat constructor.
  - repeat constructor.
  - right; reflexivity.
  - right; right; reflexivity.
  - repeat constructor.
  - reflexivity.
  - reflexivity.
  - reflexivity.
Defined.

(** X8: [scan_newline] reports no match, and leaves the scanner state as
    it was, when the blanks at the cursor are followed by a code point
    that is neither a line terminator nor a comment sign, or by the end
    of the input, and also when a comment runs to the end of the input
    (or to a NUL) with no line terminator behind it. *)
Theorem scan_newline_no_terminator scanner lexer valid_symbols pre cmt tail :
  Forall (fun c => is_space c = true) pre ->
  Forall (fun c => not_eol c = true) cmt ->
  (cmt = [] /\ line_start tail = true)
  \/ (head_code cmt = chr "#" /\ head_code tail = 0) ->
  input lexer = pre ++ cmt ++ tail ->
  scan_newline scanner lexer valid_symbols
  = Some (false, scanner, skips (length cmt) (skips (length pre) lexer)).
Proof.
  intros Hpre Hcmt Hcase Hin.
  assert (is_space (head_code (cmt ++ tail)) = false) as Hsp.
  { destruct Hcase as [[-> Hl] | [Hh Ht]].
    - now destruct (line_start_parts _ Hl).
    - destruct cmt as [|c cmt]; [discriminate|]. cbn in Hh. subst c.
      reflexivity. }
  unfold scan_newline, consume_newline.
  rewrite (skip_run is_space skip_spaces_step skip_spaces_step_eq
             pre (cmt ++ tail) lexer (fuel_of lexer) Hpre Hsp Hin)
    by (unfold fuel_of; rewrite Hin, length_app; lia).
  cbn [bind].
  destruct (skips_run pre _ lexer Hin) as (Hin1 & _).
  set (l1 := skips (length pre) lexer) in *.
  destruct Hcase as [[-> Hl] | [Hh Ht]].
  - destruct (line_start_parts _ Hl) as (_ & Hnl & Hhash).
    cbn [app length skips Nat.iter] in *.
    rewrite lookahead_head_code, Hin1, Hhash. cbn [bind].
    rewrite lookahead_head_code, Hin1, Hnl. reflexivity.
  - assert ((lookahead l1 =? chr "#") = true) as ->.
    { rewrite lookahead_head_code, Hin1.
      destruct cmt as [|c cmt]; [discriminate|]. cbn in *. now subst c. }
    rewrite (skip_run not_eol skip_comment_step skip_comment_step_eq
               cmt tail l1 (fuel_of l1) Hcmt)
      by (trivial; try (now rewrite Ht);
          unfold fuel_of; rewrite Hin1, length_app; lia).
    cbn [bind].
    rewrite lookahead_head_code, (proj1 (skips_run cmt tail l1 Hin1)), Ht.
    reflexivity.
Qed.

Lemma scan_newline_no_terminator_witness :
  scan_newline (mkScanner [4] [] false) (lexer_start (codes "  # last"))
    (accepts [NEWLINE; INDENT; DEDENT])
  = Some (false, mkScanner [4] [] false, mkLexer [] 8 8 None NEWLINE).
Proof.
  apply (scan_newline_no_terminator (mkScanner [4] [] false)
           (lexer_start (codes "  # last"))
           (accepts [NEWLINE; INDENT; DEDENT])
           (codes "  ") (codes "# last") []).
  - repeat constructor.
  - repeat constructor.
  - right. split; reflexivity.
  - reflexivity.
Defined.

(** ** Blank lines and comment lines *)

Lemma skips_add n m lexer :
  skips (n + m) lexer = skips m (skips n lexer).
Proof. unfold skips. rewrite Nat.add_comm. apply Nat.iter_add. Qed.

Lemma skips_succ n lexer : skips (S n) lexer = skip (skips n lexer).
Proof. reflexivity. Qed.

Lemma input_skip lexer c rest :
  input lexer = c :: rest -> input (skip lexer) = rest.
Proof. unfold skip, lexer_advance. now intros ->. Qed.

Lemma skip_line_step_eq l :
  skip_line_step l
  = if not_eol (lookahead l) then Continue (skip l) else Exit l.
Proof.
  unfold skip_line_step, not_eol, is_newline.
  destruct (lookahead l =? chr "010"), (lookahead l =? chr "013");
    reflexivity.
Qed.

Lemma newline_cases c :
  is_newline c = true -> c = chr "010" \/ c = chr "013".
Proof.
  unfold is_newline. intros H. apply orb_prop in H.
  destruct H as [H|H]; apply Z.eqb_eq in H; auto.
Qed.

(** The indent counter runs over the blanks whatever their number; only
    its value depends on the 32 bits. *)
Lemma count_indent_skips ws : forall tail lexer fuel i,
  Forall (fun c => is_space c = true) ws ->
  is_space (head_code tail) = false ->
  input lexer = ws ++ tail ->
  (length ws < fuel)%nat ->
  exists n,
    loop fuel count_indent_step (i, lexer)
    = Some (n, skips (length ws) lexer).
Proof.
  induction ws as [|c ws IH]; intros tail lexer fuel i Hws Htail Hin Hfuel.
  - destruct fuel as [|fuel]; [simpl in Hfuel; lia|].
    exists i. rewrite loop_unfold, count_indent_step_eq.
    rewrite lookahead_head_code, Hin. cbn [app]. now rewrite Htail.
  - destruct fuel as [|fuel]; [simpl in Hfuel; lia|].
    inversion Hws as [|? ? Hc Hws']; subst.
    rewrite loop_unfold, count_indent_step_eq.
    rewrite lookahead_head_code, Hin. cbn [app head_code]. rewrite Hc.
    destruct (IH tail (skip lexer) fuel (uint32 (i + 1))) as [n Hn]; trivial.
    + now apply (input_skip _ c).
    + simpl in Hfuel. lia.
    + exists n. rewrite Hn. cbn [length].
      unfold skips. now rewrite Nat.iter_succ_r.
Qed.

(** The head of an optional comment followed by a line terminator is no
    blank, and it is a comment sign or a line terminator. *)
Lemma comment_head cmt c rest :
  cmt = [] \/ head_code cmt = chr "#" ->
  is_newline c = true ->
  is_space (head_code (cmt ++ c :: rest)) = false
  /\ is_newline (head_code (cmt ++ c :: rest))
     || (head_code (cmt ++ c :: rest) =? chr "#") = true.
Proof.
  intros [-> | Hh] Hc.
  - cbn. rewrite Hc. destruct (newline_cases c Hc) as [-> | ->]; now split.
  - destruct cmt as [|x cmt]; [discriminate|]. cbn in Hh. subst x. now split.
Qed.

(** One iteration of the loop over blank lines, from the comment or line
    terminator of a line: the comment and the terminator are skipped, and
    so is a line feed right behind the terminator; then the blanks of the
    next line are counted from 0. *)
Lemma blank_lines_body_line cmt c rest lexer n :
  Forall (fun x => not_eol x = true) cmt ->
  cmt = [] \/ head_code cmt = chr "#" ->
  is_newline c = true ->
  input lexer = cmt ++ c :: rest ->
  let k :=
    (length cmt + if (head_code rest =? chr "010")%Z then 2 else 1)%nat in
  blank_lines_body (n, lexer)
  = loop (fuel_of (skips k lexer)) count_indent_step (0, skips k lexer).
Proof.
  intros Hcmt Hhash Hc Hin k. subst k.
  assert (not_eol c = false) as Hne
    by (destruct (newline_cases c Hc) as [-> | ->]; reflexivity).
  unfold blank_lines_body.
  assert ((if lookahead lexer =? chr "#"
           then loop (fuel_of lexer) skip_line_step lexer else Some lexer)
          = Some (skips (length cmt) lexer)) as ->.
  { destruct (lookahead lexer =? chr "#") eqn:Eh.
    - apply (skip_run not_eol skip_line_step skip_line_step_eq
               cmt (c :: rest)); trivial.
      unfold fuel_of. rewrite Hin, length_app. lia.
    - destruct Hhash as [-> | Hh]; [reflexivity|].
      rewrite lookahead_head_code, Hin in Eh.
      destruct cmt as [|x cmt]; [discriminate|]. cbn in Hh, Eh. subst x.
      discriminate. }
  cbn [bind].
  destruct (skips_run cmt _ lexer Hin) as (Hin1 & _).
  rewrite (lookahead_head_code (skips (length cmt) lexer)), Hin1.
  cbn [head_code]. rewrite Hc.
  pose proof (input_skip _ _ _ Hin1) as Hin2.
  rewrite (lookahead_head_code (skip (skips (length cmt) lexer))), Hin2.
  destruct (head_code rest =? chr "010").
  - replace (length cmt + 2)%nat with (S (S (length cmt))) by lia.
    reflexivity.
  - replace (length cmt + 1)%nat with (S (length cmt)) by lia.
    reflexivity.
Qed.

(** Blank lines in front of a line feed start with it. *)
Lemma blank_lines_line_feed mid ws tail :
  blank_lines mid ->
  Forall (fun c => is_space c = true) ws ->
  line_start tail = true ->
  head_code (mid ++ ws ++ tail) = chr "010" ->
  exists mid', mid = chr "010" :: mid' /\ blank_lines mid'.
Proof.
  intros Hmid Hws Htail Hh.
  destruct (line_start_parts _ Htail) as (_ & Hnl & _).
  destruct Hmid as [|ws1 cmt1 c1 rest1 Hws1 Hcmt1 Hhash1 Hc1 Hrest1].
  - exfalso. cbn [app] in Hh. destruct ws as [|x ws].
    + cbn [app] in Hh. rewrite Hh in Hnl. discriminate.
    + inversion Hws as [|? ? Hx _]; subst. cbn in Hh. subst x.
      discriminate.
  - destruct ws1 as [|x ws1].
    + destruct cmt1 as [|y cmt1].
      * cbn in Hh. subst c1. exists rest1. now split.
      * exfalso. inversion Hcmt1 as [|? ? Hy _]; subst.
        cbn in Hh. subst y. discriminate.
    + exfalso. inversion Hws1 as [|? ? Hx _]; subst. cbn in Hh. subst x.
      discriminate.
Qed.

(** The same iteration in front of further blank lines [mid]: what is
    left behind it are blank lines again, [mid] or [mid] without its
    leading line feed. *)
Lemma blank_lines_body_next cmt c mid ws tail lexer i :
  Forall (fun x => not_eol x = true) cmt ->
  cmt = [] \/ head_code cmt = chr "#" ->
  is_newline c = true ->
  blank_lines mid ->
  Forall (fun x => is_space x = true) ws ->
  line_start tail = true ->
  input lexer = cmt ++ c :: mid ++ ws ++ tail ->
  exists mid' k,
    blank_lines mid'
    /\ (length mid' <= length mid)%nat
    /\ (k + length mid' = length cmt + 1 + length mid)%nat
    /\ input (skips k lexer) = mid' ++ ws ++ tail
    /\ blank_lines_body (i, lexer)
       = loop (fuel_of (skips k lexer)) count_indent_step (0, skips k lexer).
Proof.
  intros Hcmt Hhash Hc Hmid Hws Htail Hin.
  pose proof (blank_lines_body_line cmt c (mid ++ ws ++ tail) lexer i
                Hcmt Hhash Hc Hin) as Hbody.
  cbv zeta in Hbody.
  destruct (head_code (mid ++ ws ++ tail) =? chr "010") eqn:E.
  - apply Z.eqb_eq in E.
    destruct (blank_lines_line_feed mid ws tail Hmid Hws Htail E)
      as (mid' & -> & Hmid').
    exists mid', (length cmt + 2)%nat.
    split; [exact Hmid'|]. split; [cbn [length]; lia|].
    split; [cbn [length]; lia|]. split; [|exact Hbody].
    replace (length cmt + 2)%nat with (length (cmt ++ [c; chr "010"]))
      by (rewrite length_app; reflexivity).
    apply skips_run. rewrite <- app_assoc. exact Hin.
  - exists mid, (length cmt + 1)%nat.
    split; [exact Hmid|]. split; [lia|]. split; [lia|].
    split; [|exact Hbody].
    replace (length cmt + 1)%nat with (length (cmt ++ [c]))
      by (rewrite length_app; reflexivity).
    apply skips_run. rewrite <- app_assoc. exact Hin.
Qed.

Lemma blank_lines_step_eq i lexer :
  blank_lines_step (i, lexer)
  = if is_newline (lookahead lexer) || (lookahead lexer =? chr "#")
    then match blank_lines_body (i, lexer) with
         | Some st' => Continue st'
         | None => Exit None
         end
    else Exit (Some (i, lexer)).
Proof. reflexivity. Qed.

(** The loop over blank lines, entered at the comment or line terminator
    of a line that is followed by blank lines [mid] and the line with
    content: it ends in front of the content with the number of its
    blanks. *)
Lemma blank_lines_loop : forall n mid,
  (length mid <= n)%nat ->
  blank_lines mid ->
  forall cmt c ws tail lexer i fuel,
    Forall (fun x => not_eol x = true) cmt ->
    cmt = [] \/ head_code cmt = chr "#" ->
    is_newline c = true ->
    Forall (fun x => is_space x = true) ws ->
    line_start tail = true ->
    Z.of_nat (length ws) < 2 ^ 32 ->
    input lexer = cmt ++ c :: mid ++ ws ++ tail ->
    (n + 1 < fuel)%nat ->
    loop fuel blank_lines_step (i, lexer)
    = Some (Some (Z.of_nat (length ws),
                  skips (length cmt + 1 + length mid + length ws) lexer)).
Proof.
  induction n as [n IH] using lt_wf_ind.
  intros mid Hlen Hmid cmt c ws tail lexer i fuel Hcmt Hhash Hc Hws Htail
    Hb Hin Hfuel.
  destruct fuel as [|fuel]; [lia|].
  rewrite loop_unfold, blank_lines_step_eq.
  destruct (comment_head cmt c (mid ++ ws ++ tail) Hhash Hc) as [_ Hhd].
  rewrite lookahead_head_code, Hin, Hhd.
  destruct (blank_lines_body_next cmt c mid ws tail lexer i
              Hcmt Hhash Hc Hmid Hws Htail Hin)
    as (mid' & k & Hmid' & Hlen' & Hk & Hin' & ->).
  destruct (line_start_parts _ Htail) as (Hsp & Hnl & Hh).
  destruct Hmid' as [|ws1 cmt1 c1 rest1 Hws1 Hcmt1 Hhash1 Hc1 Hrest1].
  - cbn [app] in Hin'.
    rewrite (count_indent_run ws tail _ _ 0 Hws Hsp Hin');
      [|unfold fuel_of; rewrite Hin', length_app; lia|lia|lia].
    destruct fuel as [|fuel]; [lia|].
    rewrite loop_unfold, blank_lines_step_eq.
    rewrite lookahead_head_code, (proj1 (skips_run ws tail _ Hin')).
    rewrite Hnl, Hh. cbn [orb]. rewrite Z.add_0_l, <- skips_add.
    cbn [length] in Hk.
    replace (k + length ws)%nat
      with (length cmt + 1 + length mid + length ws)%nat by lia.
    reflexivity.
  - rewrite <- !app_assoc in Hin'. cbn [app] in Hin'.
    rewrite !length_app in Hlen', Hk. cbn [length] in Hlen', Hk.
    destruct (comment_head cmt1 c1 (rest1 ++ ws ++ tail) Hhash1 Hc1)
      as [Hsp1 _].
    destruct (count_indent_skips ws1 _ _
                (fuel_of (skips k lexer)) 0 Hws1 Hsp1 Hin')
      as [i1 Hi1];
      [unfold fuel_of; rewrite Hin', length_app; lia|].
    rewrite Hi1. cbv beta iota.
    destruct (skips_run ws1 _ _ Hin') as (Hin1 & _).
    rewrite (IH (length rest1) ltac:(lia) rest1 (le_n _) Hrest1
               cmt1 c1 ws tail _ i1 fuel Hcmt1 Hhash1 Hc1 Hws Htail Hb Hin1)
      by lia.
    rewrite <- !skips_add.
    replace (k + (length ws1
                  + (length cmt1 + 1 + length rest1 + length ws)))%nat
      with (length cmt + 1 + length mid + length ws)%nat by lia.
    reflexivity.
Qed.

(** The width measured behind a line terminator is that of the first line
    with content; the blank lines and comment lines in front of it are
    skipped. *)
Lemma measure_indent_blank_lines mid ws tail lexer :
  blank_lines mid ->
  Forall (fun c => is_space c = true) ws ->
  line_start tail = true ->
  Z.of_nat (length ws) < 2 ^ 32 ->
  input lexer = mid ++ ws ++ tail ->
  measure_indent lexer
  = Some (Z.of_nat (length ws), skips (length mid + length ws) lexer).
Proof.
  intros Hmid Hws Htail Hb Hin.
  destruct Hmid as [|ws1 cmt1 c1 rest1 Hws1 Hcmt1 Hhash1 Hc1 Hrest1].
  - cbn [app length Nat.add] in *. now apply (measure_indent_run ws tail).
  - rewrite <- !app_assoc in Hin. cbn [app] in Hin.
    destruct (comment_head cmt1 c1 (rest1 ++ ws ++ tail) Hhash1 Hc1)
      as [Hsp1 _].
    unfold measure_indent.
    destruct (count_indent_skips ws1 _ _ (fuel_of lexer) 0 Hws1 Hsp1 Hin)
      as [i1 Hi1];
      [unfold fuel_of; rewrite Hin, length_app; lia|].
    rewrite Hi1. cbn [bind snd].
    destruct (skips_run ws1 _ _ Hin) as (Hin1 & _).
    rewrite (blank_lines_loop (length rest1) rest1 (le_n _) Hrest1
               cmt1 c1 ws tail _ i1 _ Hcmt1 Hhash1 Hc1 Hws Htail Hb Hin1)
      by (unfold fuel_of; rewrite Hin1, !length_app; cbn [length];
          rewrite !length_app; lia).
    cbn [bind]. rewrite <- skips_add.
    rewrite !length_app. cbn [length].
    replace (length ws1 + (length cmt1 + 1 + length rest1 + length ws))%nat
      with (length ws1 + (length cmt1 + S (length rest1)) + length ws)%nat
      by lia.
    reflexivity.
Qed.

(** The first part of [scan_newline] at any line terminator: a line feed
    right behind the terminator is consumed with it. *)
Lemma consume_newline_terminator pre cmt c rest lexer :
  Forall (fun x => is_space x = true) pre ->
  Forall (fun x => not_eol x = true) cmt ->
  cmt = [] \/ head_code cmt = chr "#" ->
  is_newline c = true ->
  input lexer = pre ++ cmt ++ c :: rest ->
  consume_newline lexer
  = Some (inr (mark_end
                 (set_result_symbol
                    (advances
                       (if (head_code rest =? chr "010")%Z then 2 else 1)
                       (skips (length cmt) (skips (length pre) lexer)))
                    NEWLINE))).
Proof.
  intros Hpre Hcmt Hhash Hc Hin.
  destruct (comment_head cmt c rest Hhash Hc) as [Hsp _].
  assert (not_eol c = false) as Hne
    by (destruct (newline_cases c Hc) as [-> | ->]; reflexivity).
  unfold consume_newline.
  rewrite (skip_run is_space skip_spaces_step skip_spaces_step_eq
             pre (cmt ++ c :: rest) lexer (fuel_of lexer) Hpre Hsp Hin)
    by (unfold fuel_of; rewrite Hin, length_app; lia).
  cbn [bind].
  destruct (skips_run pre _ lexer Hin) as (Hin1 & _).
  set (l1 := skips (length pre) lexer) in *.
  assert ((if lookahead l1 =? chr "#"
           then loop (fuel_of l1) skip_comment_step l1 else Some l1)
          = Some (skips (length cmt) l1)) as ->.
  { destruct (lookahead l1 =? chr "#") eqn:Eh.
    - apply (skip_run not_eol skip_comment_step skip_comment_step_eq
               cmt (c :: rest)); trivial.
      unfold fuel_of. rewrite Hin1, length_app. lia.
    - destruct Hhash as [-> | Hh]; [reflexivity|].
      rewrite lookahead_head_code, Hin1 in Eh.
      destruct cmt as [|x cmt]; [discriminate|]. cbn in Hh, Eh. subst x.
      discriminate. }
  cbn [bind].
  destruct (skips_run cmt _ l1 Hin1) as (Hin2 & _).
  set (l2 := skips (length cmt) l1) in *.
  rewrite (lookahead_head_code l2), Hin2. cbn [head_code]. rewrite Hc.
  cbn [negb].
  rewrite (lookahead_head_code (advance l2)),
    (proj1 (input_advance l2 _ _ Hin2)).
  destruct (head_code rest =? chr "010"); reflexivity.
Qed.

(** X9: blank lines and comment lines behind a line terminator do not
    count.  On blanks, an optional comment, a line terminator, any number
    of lines that hold only blanks and an optional comment, then [n]
    spaces or tabs and a code point that starts a line with content (or
    the end of input), [scan_newline] decides on the width [n] of that
    last line and leaves the lexer in front of its content.  The token
    ends behind the first terminator; a line feed right behind that
    terminator (the one of CR LF, or an empty line) is part of it. *)
Theorem scan_newline_blank_lines scanner lexer valid_symbols
    pre cmt c mid ws tail :
  Forall (fun x => is_space x = true) pre ->
  Forall (fun x => not_eol x = true) cmt ->
  cmt = [] \/ head_code cmt = chr "#" ->
  is_newline c = true ->
  blank_lines mid ->
  Forall (fun x => is_space x = true) ws ->
  line_start tail = true ->
  Z.of_nat (length ws) < 2 ^ 32 ->
  input lexer = pre ++ cmt ++ c :: mid ++ ws ++ tail ->
  exists lexer2,
    scan_newline scanner lexer valid_symbols
    = Some (indent_decision scanner lexer2 valid_symbols
              (Z.of_nat (length ws)))
    /\ input lexer2 = tail
    /\ token_end lexer2
       = Some (position lexer + Z.of_nat (length pre + length cmt)
               + (if head_code (mid ++ ws ++ tail) =? chr "010"
                  then 2 else 1))
    /\ result_symbol lexer2 = NEWLINE.
Proof.
  intros Hpre Hcmt Hhash Hc Hmid Hws Htail Hb Hin.
  pose proof (consume_newline_terminator pre cmt c (mid ++ ws ++ tail) lexer
                Hpre Hcmt Hhash Hc Hin) as Hcons.
  destruct (skips_run pre _ lexer Hin) as (Hin1 & Hp1 & _).
  destruct (skips_run cmt _ _ Hin1) as (Hin2 & Hp2 & _).
  set (l2 := skips (length cmt) (skips (length pre) lexer)) in *.
  assert (exists mid' k,
            blank_lines mid'
            /\ (if head_code (mid ++ ws ++ tail) =? chr "010"
                then 2%nat else 1%nat) = k
            /\ input (advances k l2) = mid' ++ ws ++ tail
            /\ position (advances k l2) = position l2 + Z.of_nat k)
    as (mid' & k & Hmid' & Hk & Hin3 & Hp3).
  { destruct (head_code (mid ++ ws ++ tail) =? chr "010") eqn:E.
    - apply Z.eqb_eq in E.
      destruct (blank_lines_line_feed mid ws tail Hmid Hws Htail E)
        as (mid' & -> & Hmid').
      exists mid', 2%nat.
      destruct (advances_run [c; chr "010"] (mid' ++ ws ++ tail) l2 Hin2)
        as (H1 & H2 & _).
      now repeat split.
    - exists mid, 1%nat.
      destruct (advances_run [c] (mid ++ ws ++ tail) l2 Hin2)
        as (H1 & H2 & _).
      now repeat split. }
  rewrite Hk in Hcons.
  set (lexer1 := mark_end (set_result_symbol (advances k l2) NEWLINE)) in *.
  assert (input lexer1 = mid' ++ ws ++ tail) as Hin4 by exact Hin3.
  exists (skips (length mid' + length ws) lexer1).
  assert (input lexer1 = (mid' ++ ws) ++ tail) as Hin4'
    by (now rewrite <- app_assoc).
  destruct (skips_run (mid' ++ ws) tail lexer1 Hin4')
    as (Hin5 & _ & He5 & Hr5).
  rewrite length_app in Hin5, He5, Hr5.
  split; [|split; [exact Hin5|split]].
  - unfold scan_newline. rewrite Hcons. cbn [bind].
    rewrite (measure_indent_blank_lines mid' ws tail lexer1
               Hmid' Hws Htail Hb Hin4).
    reflexivity.
  - rewrite He5. cbn [lexer1 token_end mark_end set_result_symbol position].
    rewrite Hp3, Hp2, Hp1. f_equal.
    destruct (head_code (mid ++ ws ++ tail) =? chr "010"); subst k; lia.
  - rewrite Hr5. reflexivity.
Qed.

Lemma scan_newline_blank_lines_witness :
  exists lexer2,
    scan_newline (mkScanner [4] [] false)
      (lexer_start (codes "  # set" ++ chr "010" :: chr "010"
                      :: codes "   # note" ++ chr "013" :: chr "010"
                      :: codes "  y"))
      (accepts [NEWLINE; INDENT; DEDENT])
    = Some (indent_decision (mkScanner [4] [] false) lexer2
              (accepts [NEWLINE; INDENT; DEDENT]) 2)
    /\ input lexer2 = codes "y"
    /\ token_end lexer2 = Some 9
    /\ result_symbol lexer2 = NEWLINE.
Proof.
  apply (scan_newline_blank_lines (mkScanner [4] [] false)
           (lexer_start (codes "  # set" ++ chr "010" :: chr "010"
                           :: codes "   # note" ++ chr "013" :: chr "010"
                           :: codes "  y"))
           (accepts [NEWLINE; INDENT; DEDENT])
           (codes "  ") (codes "# set") (chr "010")
           (chr "010" :: codes "   # note" ++ [chr "013"; chr "010"])
           (codes "  ") (codes "y")).
  - repeat constructor.
  - repeat constructor.
  - right; reflexivity.
  - reflexivity.
  - apply (blank_lines_cons [] [] (chr "010") _ (Forall_nil _) (Forall_nil _)
             (or_introl eq_refl) eq_refl).
    apply (blank_lines_cons (codes "   ") (codes "# note") (chr "013")
             [chr "010"]).
    + repeat constructor.
    + repeat constructor.
    + right; reflexivity.
    + reflexivity.
    + apply (blank_lines_cons [] [] (chr "010") [] (Forall_nil _)
               (Forall_nil _) (or_introl eq_refl) eq_refl).
      constructor.
  - repeat constructor.
  - reflexivity.
  - reflexivity.
  - reflexivity.
Defined.

(** ** Strings: opening, plain content, closing *)

Lemma is_prefix_letter_cases c :
  is_prefix_letter c = true ->
  c = chr "r" \/ c = chr "R" \/ c = chr "f" \/ c = chr "F"
  \/ c = chr "b" \/ c = chr "B" \/ c = chr "u" \/ c = chr "U".
Proof.
  unfold is_prefix_letter. intros H.
  repeat (apply orb_prop in H; destruct H as [H|H]);
    apply Z.eqb_eq in H; tauto.
Qed.

Lemma prefix_step_exit_other st :
  is_prefix_letter (lookahead (p_lexer st)) = false ->
  prefix_step st = Exit st.
Proof.
  unfold is_prefix_letter, prefix_step. intros H.
  repeat (apply orb_false_elim in H; destruct H as [H ?]).
  repeat match goal with E : (_ =? _) = false |- _ => rewrite E; clear E end.
  reflexivity.
Qed.

Lemma prefix_run letters : forall tail lexer fuel r f b,
  Forall (fun c => is_prefix_letter c = true) letters ->
  is_prefix_letter (head_code tail) = false ->
  input lexer = letters ++ tail ->
  (length letters < fuel)%nat ->
  loop fuel prefix_step (mkPrefix r f b lexer)
  = Some (mkPrefix (r || has_raw letters) (f || has_format letters)
            (b || has_bytes letters) (advances (length letters) lexer)).
Proof.
  induction letters as [|c letters IH];
    intros tail lexer fuel r f b Hl Htail Hin Hfuel.
  - destruct fuel as [|fuel]; [simpl in Hfuel; lia|].
    rewrite loop_unfold, prefix_step_exit_other.
    + cbn. now rewrite !orb_false_r.
    + cbn [p_lexer]. rewrite lookahead_head_code, Hin. exact Htail.
  - destruct fuel as [|fuel]; [simpl in Hfuel; lia|].
    inversion Hl as [|? ? Hc Hl']; subst.
    pose proof (lexer_advance_cons lexer false _ _ Hin) as Ha.
    assert (input (advance lexer) = letters ++ tail) as Hin'
      by (unfold advance; now rewrite Ha).
    assert (length letters < fuel)%nat as Hfuel'
      by (simpl in Hfuel; lia).
    rewrite loop_unfold. unfold prefix_step at 1. cbn [p_lexer p_raw
      p_format p_bytes].
    rewrite lookahead_head_code, Hin. cbn [app head_code].
    unfold advances. cbn [length]. rewrite Nat.iter_succ_r.
    fold (advances (length letters) (advance lexer)).
    destruct (is_prefix_letter_cases c Hc)
      as [-> | [-> | [-> | [-> | [-> | [-> | [-> | ->]]]]]]];
      cbv beta iota;
      match goal with
      | |- context [if ?t then _ else _] =>
          let v := eval vm_compute in t in change t with v
      end; cbv beta iota;
      repeat match goal with
      | |- context [if ?t then _ else _] =>
          let v := eval vm_compute in t in change t with v; cbv beta iota
      end;
      rewrite (IH tail (advance lexer) fuel) by assumption;
      unfold has_raw, has_format, has_bytes; cbn [existsb];
      repeat match goal with
      | |- context [(?x =? ?y) || (?x =? ?z)] =>
          let v := eval vm_compute in ((x =? y) || (x =? z)) in
          change ((x =? y) || (x =? z)) with v
      end;
      cbn [orb]; rewrite ?orb_true_r; reflexivity.
Qed.

Lemma advances_succ n lexer :
  advances (n + 1) lexer = advance (advances n lexer).
Proof. rewrite Nat.add_1_r. reflexivity. Qed.

Lemma advances_add n m lexer :
  advances (n + m) lexer = advances m (advances n lexer).
Proof.
  unfold advances. rewrite Nat.add_comm. apply Nat.iter_add.
Qed.

Lemma quote_not_prefix_letter q :
  q = chr "034" \/ q = chr "'" -> is_prefix_letter q = false.
Proof. intros [-> | ->]; reflexivity. Qed.

(** The start block on a run of prefix letters followed by a quote: the
    loop consumes the letters, and what is left is the choice among a
    single quote, the empty string and a triple quote. *)
Lemma scan_string_start_run scanner lexer valid_symbols letters q rest :
  valid_symbols STRING_START = true ->
  Forall (fun c => is_prefix_letter c = true) letters ->
  q = chr "034" \/ q = chr "'" ->
  input lexer = letters ++ q :: rest ->
  scan_string_start scanner lexer valid_symbols
          = (let lexer := advances (length letters) lexer in
             let quote_char := lookahead lexer in
             let lexer := advance lexer in
             let open (is_triple : bool) (lexer : TSLexer) :=
               Some (Returned
                       (true,
                        mkScanner (indents scanner)
                          (array_push (delimiters scanner)
                             (make_delimiter quote_char is_triple
                                (has_raw letters) (has_format letters)))
                          (has_format letters),
                        set_result_symbol (mark_end lexer) STRING_START)) in
             if lookahead lexer =? quote_char then
               let lexer := advance lexer in
               if lookahead lexer =? quote_char then open true (advance lexer)
               else Some (Returned
                            (true, scanner,
                             set_result_symbol (mark_end lexer)
                               STRING_START))
             else open false lexer).
Proof.
  intros Hv Hl Hq Hin.
  assert (quote_test : forall c,
            c = q -> (c =? chr "034") || (c =? chr "'") = true).
  { intros c ->. destruct Hq as [-> | ->]; reflexivity. }
  unfold scan_string_start. rewrite Hv.
    rewrite (prefix_run letters (q :: rest) lexer (fuel_of lexer)
               false false false Hl);
      [|cbn; now apply quote_not_prefix_letter|exact Hin
       |unfold fuel_of; rewrite Hin, length_app; simpl; lia].
    cbn [bind p_lexer p_raw p_format orb].
    rewrite (quote_test (lookahead (advances (length letters) lexer))).
    - reflexivity.
    - rewrite lookahead_head_code.
      now rewrite (proj1 (advances_run letters _ lexer Hin)).
Qed.

(** A quote not followed by the same quote opens a string that is not
    triple-quoted. *)
Lemma string_start_single scanner lexer valid_symbols letters q rest :
  valid_symbols STRING_START = true ->
  Forall (fun c => is_prefix_letter c = true) letters ->
  q = chr "034" \/ q = chr "'" ->
  input lexer = letters ++ q :: rest ->
  head_code rest <> q ->
  scan_string scanner lexer valid_symbols
  = Some (true,
          mkScanner (indents scanner)
            (array_push (delimiters scanner)
               (make_delimiter q false (has_raw letters)
                  (has_format letters)))
            (has_format letters),
          set_result_symbol
            (mark_end (advances (length letters + 1) lexer)) STRING_START)
  /\ position (advances (length letters + 1) lexer)
     = position lexer + Z.of_nat (length letters) + 1.
Proof.
  intros Hv Hl Hq Hin Hne.
  pose proof (scan_string_start_run scanner lexer valid_symbols letters q
                rest Hv Hl Hq Hin) as Hstart.
  destruct (advances_run letters _ lexer Hin) as (Hin0 & Hp0 & _).
  pose proof (lookahead_cons _ _ _ Hin0) as Hla0.
  destruct (input_advance _ _ _ Hin0) as (Hin1 & Hp1 & _).
  rewrite <- advances_succ in Hin1, Hp1.
  unfold scan_string. rewrite Hstart. cbv zeta.
  rewrite Hla0, <- !advances_succ.
  rewrite (lookahead_head_code (advances (length letters + 1) lexer)), Hin1.
  apply Z.eqb_neq in Hne. rewrite Hne. cbn [bind].
  split; [reflexivity|lia].
Qed.

(** X10: with STRING_START acceptable, on any run of prefix letters (r, f,
    b, u, either case, any order, repeats allowed) followed by a quote,
    the call reports STRING_START.  The raw and format flags are set by
    an r and an f anywhere in the run.  A quote not followed by the same
    quote opens a single-quoted string, three quotes open a triple-quoted
    one, and the opening pushes the delimiter and sets the interpolation
    flag to the format flag; two quotes followed by something else are
    the empty string, reported with the state untouched.  The token runs
    from the first letter to the last quote consumed. *)
Theorem string_start_opens scanner lexer valid_symbols letters q rest :
  valid_symbols STRING_START = true ->
  Forall (fun c => is_prefix_letter c = true) letters ->
  q = chr "034" \/ q = chr "'" ->
  input lexer = letters ++ q :: rest ->
  let n := length letters in
  let opened (is_triple : bool) (k : nat) :=
    Some (true,
          mkScanner (indents scanner)
            (array_push (delimiters scanner)
               (make_delimiter q is_triple (has_raw letters)
                  (has_format letters)))
            (has_format letters),
          set_result_symbol (mark_end (advances (n + k) lexer))
            STRING_START) in
  (head_code rest <> q ->
   scan_string scanner lexer valid_symbols = opened false 1%nat
   /\ position (advances (n + 1) lexer) = position lexer + Z.of_nat n + 1)
  /\ (forall rest', rest = q :: rest' -> head_code rest' <> q ->
      scan_string scanner lexer valid_symbols
      = Some (true, scanner,
              set_result_symbol (mark_end (advances (n + 2) lexer))
                STRING_START)
      /\ position (advances (n + 2) lexer)
         = position lexer + Z.of_nat n + 2)
  /\ (forall rest', rest = q :: q :: rest' ->
      scan_string scanner lexer valid_symbols = opened true 3%nat
      /\ position (advances (n + 3) lexer)
         = position lexer + Z.of_nat n + 3).
Proof.
  intros Hv Hl Hq Hin n opened. subst n opened.
  pose proof (scan_string_start_run scanner lexer valid_symbols letters q
                rest Hv Hl Hq Hin) as Hstart.
  destruct (advances_run letters _ lexer Hin) as (Hin0 & Hp0 & _).
  pose proof (lookahead_cons _ _ _ Hin0) as Hla0.
  destruct (input_advance _ _ _ Hin0) as (Hin1 & Hp1 & _).
  rewrite <- advances_succ in Hin1, Hp1.
  unfold scan_string. rewrite Hstart. cbv zeta.
  rewrite Hla0, <- !advances_succ.
  rewrite (lookahead_head_code (advances (length letters + 1) lexer)), Hin1.
  split; [|split].
  - intros Hne. apply Z.eqb_neq in Hne. rewrite Hne. cbn [bind].
    split; [reflexivity|lia].
  - intros rest' -> Hne. cbn [head_code]. rewrite Z.eqb_refl.
    destruct (input_advance _ _ _ Hin1) as (Hin2 & Hp2 & _).
    rewrite <- advances_succ in Hin2, Hp2.
    rewrite lookahead_head_code, Hin2.
    apply Z.eqb_neq in Hne. rewrite Hne. cbn [bind].
    rewrite <- !Nat.add_assoc in *. cbn [Nat.add] in *.
    split; [reflexivity|lia].
  - intros rest' ->. cbn [head_code]. rewrite Z.eqb_refl.
    destruct (input_advance _ _ _ Hin1) as (Hin2 & Hp2 & _).
    rewrite <- advances_succ in Hin2, Hp2.
    destruct (input_advance _ _ _ Hin2) as (Hin3 & Hp3 & _).
    rewrite <- advances_succ in Hin3, Hp3.
    rewrite lookahead_head_code, Hin2. cbn [head_code].
    rewrite Z.eqb_refl. cbn [bind].
    rewrite <- !Nat.add_assoc in *. cbn [Nat.add] in *.
    split; [reflexivity|lia].
Qed.

Lemma string_start_opens_witness :
  scan_string tree_sitter_codon_external_scanner_create
    (lexer_start (codes "fR'a'")) (accepts [STRING_START])
  = Some (true, mkScanner [] [1575] true,
          mkLexer (codes "a'") 3 0 (Some 3) STRING_START).
Proof.
  destruct (string_start_opens tree_sitter_codon_external_scanner_create
              (lexer_start (codes "fR'a'")) (accepts [STRING_START])
              (codes "fR") (chr "'") (codes "a'") eq_refl) as (H & _).
  - repeat constructor.
  - right; reflexivity.
  - reflexivity.
  - apply H. discriminate.
Defined.

Lemma land_small_high q m :
  0 <= q < 256 -> Z.land 255 m = 0 -> Z.land q m = 0.
Proof.
  intros Hq Hm.
  assert (q = Z.land q 255) as ->.
  { change 255 with (Z.ones 8). rewrite Z.land_ones by lia.
    symmetry. apply Z.mod_small. simpl. lia. }
  now rewrite <- Z.land_assoc, Hm, Z.land_0_r.
Qed.

(** X11: the packed delimiter descriptor is read back as it was built: for
    every quote code below 256 and every combination of the three flags,
    the quote character, the triple flag, the raw flag and the format
    flag extracted by the content and end blocks are those STRING_START
    packed. *)
Theorem delimiter_round_trip q is_triple is_raw is_format :
  0 <= q < 256 ->
  let d := make_delimiter q is_triple is_raw is_format in
  delim_quote_char d = q
  /\ delim_is_triple d = is_triple
  /\ delim_is_raw d = is_raw
  /\ delim_is_format d = is_format.
Proof.
  intros Hq d. subst d.
  unfold make_delimiter, delim_quote_char, delim_is_triple, delim_is_raw,
    delim_is_format.
  rewrite !Z.land_lor_distr_l.
  assert (Z.land q 255 = q) as ->.
  { change 255 with (Z.ones 8). rewrite Z.land_ones by lia.
    apply Z.mod_small. simpl. lia. }
  rewrite !(land_small_high q) by (trivial; reflexivity).
  destruct is_triple, is_raw, is_format; cbn;
    rewrite ?Z.lor_0_r; repeat split; reflexivity.
Qed.

Lemma delimiter_round_trip_witness :
  let d := make_delimiter (chr "'") true false true in
  delim_quote_char d = chr "'"
  /\ delim_is_triple d = true
  /\ delim_is_raw d = false
  /\ delim_is_format d = true.
Proof.
  apply (delimiter_round_trip (chr "'") true false true).
  split; [discriminate|reflexivity].
Defined.

Lemma content_step_plain q is_raw is_format lexer has_content :
  plain q is_raw is_format (lookahead lexer) = true ->
  content_step q false is_raw is_format (lexer, has_content)
  = Continue (advance lexer, true).
Proof.
  unfold plain, content_step. intros H.
  repeat (apply andb_prop in H; destruct H as [H ?]).
  repeat match goal with
  | E : negb _ = true |- _ => apply negb_true_iff in E
  end.
  repeat match goal with
  | E : _ = false |- _ => rewrite E; clear E
  end.
  reflexivity.
Qed.

(** Where the content loop of a string that is not triple-quoted breaks:
    the end of input or a NUL, the quote, a line terminator. *)
Lemma content_step_stop q is_raw is_format lexer has_content :
  (lookahead lexer =? 0) || (lookahead lexer =? q)
  || is_newline (lookahead lexer) = true ->
  content_step q false is_raw is_format (lexer, has_content)
  = Exit (Break lexer has_content).
Proof.
  unfold content_step. intros H.
  destruct (lookahead lexer =? 0); [reflexivity|].
  destruct (lookahead lexer =? q); [reflexivity|].
  cbn in H. rewrite H. reflexivity.
Qed.

Lemma content_run q is_raw is_format body : forall tail lexer fuel hc,
  Forall (fun c => plain q is_raw is_format c = true) body ->
  (head_code tail =? 0) || (head_code tail =? q)
  || is_newline (head_code tail) = true ->
  input lexer = body ++ tail ->
  (length body < fuel)%nat ->
  loop fuel (content_step q false is_raw is_format) (lexer, hc)
  = Some (Break (advances (length body) lexer)
            (match body with [] => hc | _ :: _ => true end)).
Proof.
  induction body as [|c body IH]; intros tail lexer fuel hc Hb Ht Hin Hfuel.
  - destruct fuel as [|fuel]; [simpl in Hfuel; lia|].
    rewrite loop_unfold, content_step_stop; [reflexivity|].
    rewrite lookahead_head_code, Hin. exact Ht.
  - destruct fuel as [|fuel]; [simpl in Hfuel; lia|].
    inversion Hb as [|? ? Hc Hb']; subst.
    rewrite loop_unfold, content_step_plain
      by (rewrite lookahead_head_code, Hin; exact Hc).
    rewrite (IH tail (advance lexer) fuel true); trivial.
    + unfold advances. cbn [length]. rewrite Nat.iter_succ_r.
      now destruct body.
    + now destruct (input_advance _ _ _ Hin).
    + simpl in Hfuel. lia.
Qed.

(** The dispatcher hands on what [scan_string] reports, away from the
    end-of-input dedent. *)
Lemma scan_of_scan_string scanner lexer valid_symbols s' lexer' :
  eof lexer = false ->
  valid_symbols STRING_START || valid_symbols STRING_CONTENT
  || valid_symbols STRING_END || valid_symbols ESCAPE_INTERPOLATION = true ->
  scan_string scanner lexer valid_symbols = Some (true, s', lexer') ->
  tree_sitter_codon_external_scanner_scan scanner lexer valid_symbols
  = Some (true, s', lexer').
Proof.
  intros He Hv Hs. unfold tree_sitter_codon_external_scanner_scan.
  rewrite He, andb_false_r, Hv, Hs. reflexivity.
Qed.

Lemma scan_sequence_cons v vs s cs s' lexer' :
  tree_sitter_codon_external_scanner_scan s (lexer_start cs) v
  = Some (true, s', lexer') ->
  scan_sequence (v :: vs) s cs
  = ('(toks, s'', rest) <-
       scan_sequence vs s' (rest_after cs lexer') ;;
     Some ((result_symbol lexer', token_text cs lexer') :: toks, s'', rest)).
Proof. intros H. cbn [scan_sequence]. rewrite H. reflexivity. Qed.

Lemma scan_sequence_stop v vs s cs s' lexer' :
  tree_sitter_codon_external_scanner_scan s (lexer_start cs) v
  = Some (false, s', lexer') ->
  scan_sequence (v :: vs) s cs = Some ([], s, cs).
Proof. intros H. cbn [scan_sequence]. rewrite H. reflexivity. Qed.

(** The token of a call that advanced over [pre], skipped nothing and
    marked its end behind it. *)
Lemma token_of_run (pre tail : list Z) lexer' :
  token_start lexer' = 0 ->
  token_end lexer' = Some (Z.of_nat (length pre)) ->
  token_text (pre ++ tail) lexer' = pre
  /\ rest_after (pre ++ tail) lexer' = tail.
Proof.
  intros Hs He. unfold token_text, rest_after, token_end_position.
  rewrite Hs, He, Z.sub_0_r, Nat2Z.id. cbn [Z.to_nat skipn].
  split.
  - rewrite firstn_app, Nat.sub_diag, firstn_all. cbn. apply app_nil_r.
  - rewrite skipn_app, Nat.sub_diag, skipn_all. reflexivity.
Qed.

Lemma token_of_run_eq cs (pre tail : list Z) lexer' :
  cs = pre ++ tail ->
  token_start lexer' = 0 ->
  token_end lexer' = Some (Z.of_nat (length pre)) ->
  token_text cs lexer' = pre /\ rest_after cs lexer' = tail.
Proof. intros ->. apply token_of_run. Qed.

Lemma token_start_advance lexer :
  token_start (advance lexer) = token_start lexer.
Proof.
  unfold advance, lexer_advance. destruct (input lexer); reflexivity.
Qed.

Lemma advances_token_start n lexer :
  token_start (advances n lexer) = token_start lexer.
Proof.
  induction n as [|n IH]; [reflexivity|].
  change (advances (S n) lexer) with (advance (advances n lexer)).
  now rewrite token_start_advance.
Qed.

(** The content block on a run of ordinary code points of a string that
    is not triple-quoted. *)
Lemma scan_string_content_run s lexer valid_symbols body tail :
  valid_symbols STRING_START = false ->
  valid_symbols STRING_CONTENT = true ->
  delimiters s <> [] ->
  delim_is_triple (array_back (delimiters s)) = false ->
  body <> [] ->
  Forall (fun c =>
            plain (delim_quote_char (array_back (delimiters s)))
              (delim_is_raw (array_back (delimiters s)))
              (delim_is_format (array_back (delimiters s))) c
            = true) body ->
  (head_code tail =? 0)
  || (head_code tail =? delim_quote_char (array_back (delimiters s)))
  || is_newline (head_code tail) = true ->
  input lexer = body ++ tail ->
  scan_string s lexer valid_symbols
  = Some (true, s,
          set_result_symbol (mark_end (advances (length body) lexer))
            STRING_CONTENT).
Proof.
  intros Hv1 Hv2 Hne Htr Hbody Hplain Hstop Hin.
  unfold scan_string, scan_string_start. rewrite Hv1. cbn [bind].
  unfold scan_string_content. rewrite Hv2.
  replace (array_size (delimiters s) >? 0) with true
    by (destruct (delimiters s); [congruence|reflexivity]).
  cbn [andb]. cbv zeta. rewrite Htr.
  rewrite (content_run _ _ _ body tail lexer (fuel_of lexer) false
             Hplain Hstop Hin)
    by (unfold fuel_of; rewrite Hin, length_app; lia).
  cbn [bind]. destruct body; [congruence|reflexivity].
Qed.

(** X12: inside an open string that is not triple-quoted, with
    STRING_CONTENT acceptable and STRING_START not, a non-empty run of
    ordinary code points (no NUL, no quote of the string, no line
    terminator, no brace if the string is a format string, no backslash
    unless it is raw) followed by the quote, a line terminator, a NUL or
    the end of the input is reported as one STRING_CONTENT token that
    covers exactly the run; the scanner state is unchanged and the
    stopping code point is not consumed. *)
Theorem string_content_run s lexer valid_symbols body tail :
  valid_symbols STRING_START = false ->
  valid_symbols STRING_CONTENT = true ->
  delimiters s <> [] ->
  delim_is_triple (array_back (delimiters s)) = false ->
  let d := array_back (delimiters s) in
  body <> [] ->
  Forall (fun c =>
            plain (delim_quote_char d) (delim_is_raw d) (delim_is_format d) c
            = true) body ->
  (head_code tail =? 0) || (head_code tail =? delim_quote_char d)
  || is_newline (head_code tail) = true ->
  input lexer = body ++ tail ->
  scan_string s lexer valid_symbols
  = Some (true, s,
          set_result_symbol (mark_end (advances (length body) lexer))
            STRING_CONTENT)
  /\ input (advances (length body) lexer) = tail
  /\ position (advances (length body) lexer)
     = position lexer + Z.of_nat (length body).
Proof.
  intros Hv1 Hv2 Hne Htr d Hbody Hplain Hstop Hin.
  destruct (advances_run body tail lexer Hin) as (Hin' & Hp' & _).
  split; [|split; assumption].
  now apply (scan_string_content_run s lexer valid_symbols body tail).
Qed.

Lemma string_content_run_witness :
  scan_string (mkScanner [] [1063] true) (lexer_start (codes "a b'c"))
    (accepts [STRING_CONTENT; ESCAPE_INTERPOLATION; STRING_END])
  = Some (true, mkScanner [] [1063] true,
          mkLexer (codes "'c") 3 0 (Some 3) STRING_CONTENT).
Proof.
  apply (string_content_run (mkScanner [] [1063] true)
           (lexer_start (codes "a b'c"))
           (accepts [STRING_CONTENT; ESCAPE_INTERPOLATION; STRING_END])
           (codes "a b") (codes "'c")); try reflexivity.
  - discriminate.
  - discriminate.
  - repeat constructor.
Defined.

Lemma array_size_nonempty l : l <> [] -> (array_size l >? 0) = true.
Proof. destruct l; [congruence|reflexivity]. Qed.

(** The end block at the quote of a string that is not triple-quoted,
    whether or not STRING_CONTENT is acceptable too. *)
Lemma scan_string_close_single s lexer valid_symbols rest :
  valid_symbols STRING_START = false ->
  valid_symbols STRING_END = true ->
  delimiters s <> [] ->
  delim_is_triple (array_back (delimiters s)) = false ->
  input lexer = delim_quote_char (array_back (delimiters s)) :: rest ->
  scan_string s lexer valid_symbols
  = Some (true, closed s,
          set_result_symbol (mark_end (advance lexer)) STRING_END).
Proof.
  intros Hv1 Hv3 Hne Htr Hin.
  pose proof (lookahead_cons _ _ _ Hin) as Hla.
  unfold scan_string, scan_string_start. rewrite Hv1. cbn [bind].
  assert (scan_string_content s lexer valid_symbols
          = Some (Fallthrough lexer)) as ->.
  { unfold scan_string_content.
    destruct (valid_symbols STRING_CONTENT); [|reflexivity].
    rewrite (array_size_nonempty _ Hne). cbn [andb]. cbv zeta.
    rewrite Htr. unfold fuel_of.
    rewrite loop_unfold, content_step_stop; [reflexivity|].
    now rewrite Hla, Z.eqb_refl, orb_true_r. }
  cbn [bind]. unfold scan_string_end.
  rewrite Hv3, (array_size_nonempty _ Hne). cbn [andb]. cbv zeta.
  rewrite Hla, Z.eqb_refl, Htr. reflexivity.
Qed.

(** X13: STRING_END needs the exact closing sequence at the cursor.  With
    STRING_END acceptable and STRING_START not: one quote closes a string
    that is not triple-quoted; with STRING_CONTENT not acceptable, three
    quotes close a triple-quoted one, and one or two quotes followed by
    something else do not; any other code point at the cursor gives no
    match with the lexer untouched.  A close pops the delimiter and
    recomputes the flag from the new top; a no match leaves the state as
    it was. *)
Theorem string_end_exact s lexer valid_symbols :
  valid_symbols STRING_START = false ->
  valid_symbols STRING_END = true ->
  delimiters s <> [] ->
  let d := array_back (delimiters s) in
  let q := delim_quote_char d in
  (delim_is_triple d = false ->
   forall rest, input lexer = q :: rest ->
   scan_string s lexer valid_symbols
   = Some (true, closed s,
           set_result_symbol (mark_end (advances 1 lexer)) STRING_END))
  /\ (valid_symbols STRING_CONTENT = false ->
      (delim_is_triple d = true ->
       forall rest, input lexer = q :: q :: q :: rest ->
       scan_string s lexer valid_symbols
       = Some (true, closed s,
               set_result_symbol (mark_end (advances 3 lexer)) STRING_END))
      /\ (delim_is_triple d = true ->
          forall rest, input lexer = q :: rest ->
          head_code rest <> q
          \/ (exists rest', rest = q :: rest' /\ head_code rest' <> q) ->
          exists lexer',
            scan_string s lexer valid_symbols = Some (false, s, lexer'))
      /\ (head_code (input lexer) <> q ->
          scan_string s lexer valid_symbols = Some (false, s, lexer))).
Proof.
  intros Hv1 Hv3 Hne d q.
  split; [intros Htr rest Hin; now apply (scan_string_close_single _ _ _ rest)|].
  intros Hv2.
  assert (scan_string s lexer valid_symbols
          = Some (scan_string_end s lexer valid_symbols)) as ->.
  { unfold scan_string, scan_string_start, scan_string_content.
    now rewrite Hv1, Hv2. }
  unfold scan_string_end. rewrite Hv3, (array_size_nonempty _ Hne).
  cbn [andb]. cbv zeta. fold d. fold q.
  split; [|split].
  - intros Htr rest Hin. rewrite Htr.
    pose proof (lookahead_cons _ _ _ Hin) as Hla.
    destruct (input_advance _ _ _ Hin) as (Hin1 & _).
    pose proof (lookahead_cons _ _ _ Hin1) as Hla1.
    destruct (input_advance _ _ _ Hin1) as (Hin2 & _).
    pose proof (lookahead_cons _ _ _ Hin2) as Hla2.
    rewrite Hla, Hla1, Hla2, Z.eqb_refl. reflexivity.
  - intros Htr rest Hin Hcase. rewrite Htr.
    pose proof (lookahead_cons _ _ _ Hin) as Hla.
    destruct (input_advance _ _ _ Hin) as (Hin1 & _).
    rewrite Hla, Z.eqb_refl.
    rewrite (lookahead_head_code (advance lexer)), Hin1.
    destruct Hcase as [Hn | (rest' & -> & Hn)]; apply Z.eqb_neq in Hn.
    + rewrite Hn. eauto.
    + cbn [head_code]. rewrite Z.eqb_refl.
      destruct (input_advance _ _ _ Hin1) as (Hin2 & _).
      rewrite lookahead_head_code, Hin2, Hn. eauto.
  - intros Hn. rewrite lookahead_head_code.
    apply Z.eqb_neq in Hn. now rewrite Hn.
Qed.

Lemma string_end_exact_witness :
  let s := mkScanner [] [1063; 295] false in
  scan_string s (lexer_start (codes "'''x")) (accepts [STRING_END])
  = Some (true, mkScanner [] [1063] true,
          mkLexer (codes "x") 3 0 (Some 3) STRING_END)
  /\ exists lexer',
       scan_string s (lexer_start (codes "''x")) (accepts [STRING_END])
       = Some (false, s, lexer').
Proof.
  assert (delimiters (mkScanner [] [1063; 295] false) <> []) as Hne
    by discriminate.
  pose proof (string_end_exact (mkScanner [] [1063; 295] false)
                (lexer_start (codes "'''x")) (accepts [STRING_END])
                eq_refl eq_refl Hne) as H.
  cbv zeta in H. destruct H as (_ & H).
  pose proof (string_end_exact (mkScanner [] [1063; 295] false)
                (lexer_start (codes "''x")) (accepts [STRING_END])
                eq_refl eq_refl Hne) as H'.
  cbv zeta in H'. destruct H' as (_ & H').
  split.
  - apply (proj1 (H eq_refl) eq_refl (codes "x")). reflexivity.
  - apply (proj1 (proj2 (H' eq_refl)) eq_refl (codes "'x")); [reflexivity|].
    right. exists (codes "x"). split; [reflexivity|discriminate].
Defined.

(** X14: the closing quotes of a triple-quoted string are not recognised
    by a call that accepts STRING_CONTENT as well as STRING_END.  At
    exactly three quotes (not followed by two more) the content block
    finds no content only after it has moved the lexer two quotes on, the
    end block starts from the third quote, and the call reports no match
    with the delimiter left open. *)
Theorem triple_close_with_content_acceptable s lexer valid_symbols rest :
  valid_symbols STRING_START = false ->
  valid_symbols STRING_CONTENT = true ->
  delimiters s <> [] ->
  let d := array_back (delimiters s) in
  let q := delim_quote_char d in
  delim_is_triple d = true ->
  q <> 0 ->
  input lexer = q :: q :: q :: rest ->
  (forall rest', rest <> q :: q :: rest') ->
  exists lexer',
    scan_string s lexer valid_symbols = Some (false, s, lexer').
Proof.
  intros Hv1 Hv2 Hne d q Htr Hq Hin Hrest.
  pose proof (lookahead_cons _ _ _ Hin) as Hla.
  assert (input (advance (mark_end lexer)) = q :: q :: rest) as Hin1
    by (now apply (input_advance (mark_end lexer) q)).
  pose proof (lookahead_cons _ _ _ Hin1) as Hla1.
  destruct (input_advance _ _ _ Hin1) as (Hin2 & _).
  pose proof (lookahead_cons _ _ _ Hin2) as Hla2.
  destruct (input_advance _ _ _ Hin2) as (Hin3 & _).
  set (l2 := advance (advance (mark_end lexer))) in *.
  unfold scan_string, scan_string_start. rewrite Hv1. cbn [bind].
  assert (scan_string_content s lexer valid_symbols = Some (Fallthrough l2))
    as ->.
  { unfold scan_string_content.
    rewrite Hv2, (array_size_nonempty _ Hne). cbn [andb]. cbv zeta.
    fold d. fold q. rewrite Htr. unfold fuel_of.
    rewrite loop_unfold. unfold content_step.
    apply Z.eqb_neq in Hq.
    rewrite Hla, Hq, Z.eqb_refl, Hla1, Z.eqb_refl. fold l2.
    rewrite Hla2, Z.eqb_refl. reflexivity. }
  cbn [bind]. unfold scan_string_end.
  destruct (valid_symbols STRING_END); [|eexists; reflexivity].
  rewrite (array_size_nonempty _ Hne). cbn [andb]. cbv zeta.
  fold d. fold q. rewrite Htr, Hla2, Z.eqb_refl.
  rewrite (lookahead_head_code (advance l2)), Hin3.
  destruct (head_code rest =? q) eqn:E1; [|eexists; reflexivity].
  destruct rest as [|c rest'];
    [unfold head_code in E1; apply Z.eqb_eq in E1; congruence|].
  unfold head_code in E1. apply Z.eqb_eq in E1. subst c.
  destruct (input_advance _ _ _ Hin3) as (Hin4 & _).
  rewrite lookahead_head_code, Hin4.
  destruct (head_code rest' =? q) eqn:E2; [|eexists; reflexivity].
  destruct rest' as [|c rest''];
    [unfold head_code in E2; apply Z.eqb_eq in E2; congruence|].
  unfold head_code in E2. apply Z.eqb_eq in E2. subst c.
  exfalso. now apply (Hrest rest'').
Qed.

Lemma triple_close_with_content_acceptable_witness :
  exists lexer',
    scan_string (mkScanner [] [1319] true) (lexer_start (codes "''' + x"))
      (accepts [STRING_CONTENT; ESCAPE_INTERPOLATION; STRING_END])
    = Some (false, mkScanner [] [1319] true, lexer').
Proof.
  apply (triple_close_with_content_acceptable (mkScanner [] [1319] true)
           (lexer_start (codes "''' + x"))
           (accepts [STRING_CONTENT; ESCAPE_INTERPOLATION; STRING_END])
           (codes " + x")); try reflexivity; discriminate.
Defined.

(** ** Content of triple-quoted strings *)

Lemma same_cursor_refl l : same_cursor l l.
Proof. now repeat split. Qed.

Lemma same_cursor_mark_end l : same_cursor (mark_end l) l.
Proof. now repeat split. Qed.

Lemma same_cursor_trans l1 l2 l3 :
  same_cursor l1 l2 -> same_cursor l2 l3 -> same_cursor l1 l3.
Proof.
  intros (A1 & A2 & A3 & A4) (B1 & B2 & B3 & B4).
  repeat split; congruence.
Qed.

Lemma same_cursor_advance l1 l2 :
  same_cursor l1 l2 -> same_cursor (advance l1) (advance l2).
Proof.
  intros (H1 & H2 & H3 & H4). unfold advance, lexer_advance.
  rewrite H1. destruct (input l2) eqn:E; repeat split; cbn; congruence.
Qed.

Lemma same_cursor_advances n : forall l1 l2,
  same_cursor l1 l2 -> same_cursor (advances n l1) (advances n l2).
Proof.
  induction n as [|n IH]; intros l1 l2 H; [exact H|].
  change (same_cursor (advance (advances n l1)) (advance (advances n l2))).
  now apply same_cursor_advance, IH.
Qed.

(** Marking the end forgets the only field two such lexers differ in. *)
Lemma same_cursor_mark_end_eq l1 l2 :
  same_cursor l1 l2 -> mark_end l1 = mark_end l2.
Proof.
  intros (H1 & H2 & H3 & H4). unfold mark_end. congruence.
Qed.

Lemma content_step_plain_triple q is_raw is_format lexer has_content :
  plain_triple q is_raw is_format (lookahead lexer) = true ->
  content_step q true is_raw is_format (lexer, has_content)
  = Continue (advance lexer, true).
Proof.
  unfold plain_triple, content_step. intros H.
  repeat (apply andb_prop in H; destruct H as [H ?]).
  repeat match goal with
  | E : negb _ = true |- _ => apply negb_true_iff in E
  end.
  repeat match goal with
  | E : _ = false |- _ => rewrite E; clear E
  end.
  reflexivity.
Qed.

Lemma plain_triple_not_quote q is_raw is_format c :
  plain_triple q is_raw is_format c = true -> c <> q.
Proof.
  unfold plain_triple. intros H.
  repeat (apply andb_prop in H; destruct H as [H ?]).
  match goal with E : negb (c =? q) = true |- _ =>
    apply negb_true_iff, Z.eqb_neq in E; exact E end.
Qed.

(** Inside a triple-quoted string, one quote or two followed by another
    code point are content; the cursor stays in front of that code
    point. *)
Lemma content_step_quote q is_raw is_format lexer has_content c rest :
  q <> 0 ->
  c <> q ->
  (input lexer = q :: c :: rest ->
   content_step q true is_raw is_format (lexer, has_content)
   = Continue (advance (mark_end lexer), true))
  /\ (input lexer = q :: q :: c :: rest ->
      content_step q true is_raw is_format (lexer, has_content)
      = Continue (advance (advance (mark_end lexer)), true)).
Proof.
  intros Hq Hc. apply Z.eqb_neq in Hq, Hc.
  split; intros Hin; unfold content_step;
    rewrite (lookahead_cons _ _ _ Hin), Hq, Z.eqb_refl;
    assert (input (mark_end lexer) = input lexer) as Hm by reflexivity;
    rewrite Hin in Hm;
    destruct (input_advance _ _ _ Hm) as (Hin1 & _);
    rewrite (lookahead_cons _ _ _ Hin1).
  - now rewrite Hc.
  - rewrite Z.eqb_refl.
    destruct (input_advance _ _ _ Hin1) as (Hin2 & _).
    rewrite (lookahead_cons _ _ _ Hin2). now rewrite Hc.
Qed.

(** Three quotes end the content of a triple-quoted string; the end is
    marked in front of them and the cursor is left behind the second. *)
Lemma content_step_quotes q is_raw is_format lexer has_content rest :
  q <> 0 ->
  input lexer = q :: q :: q :: rest ->
  content_step q true is_raw is_format (lexer, has_content)
  = Exit (if has_content
          then Return true
                 (set_result_symbol (advance (advance (mark_end lexer)))
                    STRING_CONTENT)
          else Break (advance (advance (mark_end lexer))) has_content).
Proof.
  intros Hq Hin. apply Z.eqb_neq in Hq. unfold content_step.
  rewrite (lookahead_cons _ _ _ Hin), Hq, Z.eqb_refl.
  assert (input (mark_end lexer) = input lexer) as Hm by reflexivity.
  rewrite Hin in Hm.
  destruct (input_advance _ _ _ Hm) as (Hin1 & _).
  rewrite (lookahead_cons _ _ _ Hin1), Z.eqb_refl.
  destruct (input_advance _ _ _ Hin1) as (Hin2 & _).
  rewrite (lookahead_cons _ _ _ Hin2), Z.eqb_refl.
  now destruct has_content.
Qed.

(** One chunk of content takes one or two iterations. *)
Lemma triple_chunk_run q is_raw is_format chunk tail L lexer hc :
  q <> 0 ->
  triple_chunk q is_raw is_format chunk = true ->
  same_cursor L lexer ->
  input lexer = chunk ++ tail ->
  exists L' k,
    same_cursor L' (advances (length chunk) lexer)
    /\ (0 < k <= length chunk)%nat
    /\ forall fuel,
         loop (k + fuel) (content_step q true is_raw is_format) (L, hc)
         = loop fuel (content_step q true is_raw is_format) (L', true).
Proof.
  intros Hq Hchunk Hsame Hin.
  assert (input L = chunk ++ tail) as HinL
    by (destruct Hsame as (-> & _); exact Hin).
  destruct chunk as [|a [|b [|c [|x chunk]]]]; try discriminate;
    cbn [triple_chunk] in Hchunk.
  - (* an ordinary code point *)
    exists (advance L), 1%nat. split; [|split; [cbn; lia|]].
    + now apply same_cursor_advance.
    + intros fuel. cbn [Nat.add]. rewrite loop_unfold.
      rewrite content_step_plain_triple; [reflexivity|].
      now rewrite (lookahead_cons _ _ _ HinL).
  - (* a quote and an ordinary code point *)
    apply andb_prop in Hchunk as [Ha Hb]. apply Z.eqb_eq in Ha. subst a.
    pose proof (plain_triple_not_quote _ _ _ _ Hb) as Hbq.
    destruct (content_step_quote q is_raw is_format L hc b tail Hq Hbq)
      as [Hstep _].
    specialize (Hstep HinL).
    assert (same_cursor (advance (mark_end L)) (advance lexer)) as Hs1.
    { apply same_cursor_advance.
      exact (same_cursor_trans _ _ _ (same_cursor_mark_end L) Hsame). }
    exists (advance (advance (mark_end L))), 2%nat.
    split; [|split; [cbn; lia|]].
    + now apply same_cursor_advance.
    + intros fuel. cbn [Nat.add]. rewrite loop_unfold, Hstep, loop_unfold.
      rewrite content_step_plain_triple; [reflexivity|].
      assert (input (mark_end L) = q :: b :: tail) as Hm by exact HinL.
      destruct (input_advance _ _ _ Hm) as (Hin1 & _).
      now rewrite (lookahead_cons _ _ _ Hin1).
  - (* two quotes and an ordinary code point *)
    apply andb_prop in Hchunk as [Hab Hc].
    apply andb_prop in Hab as [Ha Hb].
    apply Z.eqb_eq in Ha, Hb. subst a b.
    pose proof (plain_triple_not_quote _ _ _ _ Hc) as Hcq.
    destruct (content_step_quote q is_raw is_format L hc c tail Hq Hcq)
      as [_ Hstep].
    specialize (Hstep HinL).
    assert (same_cursor (advance (advance (mark_end L)))
              (advance (advance lexer))) as Hs2.
    { do 2 apply same_cursor_advance.
      exact (same_cursor_trans _ _ _ (same_cursor_mark_end L) Hsame). }
    exists (advance (advance (advance (mark_end L)))), 2%nat.
    split; [|split; [cbn; lia|]].
    + now apply same_cursor_advance.
    + intros fuel. cbn [Nat.add]. rewrite loop_unfold, Hstep, loop_unfold.
      rewrite content_step_plain_triple; [reflexivity|].
      assert (input (mark_end L) = q :: q :: c :: tail) as Hm by exact HinL.
      destruct (input_advance _ _ _ Hm) as (Hin1 & _).
      destruct (input_advance _ _ _ Hin1) as (Hin2 & _).
      now rewrite (lookahead_cons _ _ _ Hin2).
Qed.

Lemma triple_chunks_run q is_raw is_format chunks :
  forall tail L lexer hc,
    q <> 0 ->
    Forall (fun chunk => triple_chunk q is_raw is_format chunk = true)
      chunks ->
    same_cursor L lexer ->
    input lexer = concat chunks ++ tail ->
    exists L' k,
      same_cursor L' (advances (length (concat chunks)) lexer)
      /\ (k <= length (concat chunks))%nat
      /\ forall fuel,
           loop (k + fuel) (content_step q true is_raw is_format) (L, hc)
           = loop fuel (content_step q true is_raw is_format)
               (L', match chunks with [] => hc | _ :: _ => true end).
Proof.
  induction chunks as [|chunk chunks IH]; intros tail L lexer hc Hq Hall
    Hsame Hin.
  - exists L, 0%nat. repeat split; trivial; apply Hsame.
  - inversion Hall as [|? ? Hchunk Hall']; subst.
    cbn [concat] in Hin. rewrite <- app_assoc in Hin.
    destruct (triple_chunk_run q is_raw is_format chunk
                (concat chunks ++ tail) L lexer hc Hq Hchunk Hsame Hin)
      as (L1 & k1 & Hs1 & Hk1 & Hl1).
    destruct (IH tail L1 (advances (length chunk) lexer) true Hq Hall' Hs1
                (proj1 (advances_run chunk _ lexer Hin)))
      as (L2 & k2 & Hs2 & Hk2 & Hl2).
    exists L2, (k1 + k2)%nat. cbn [concat]. rewrite length_app.
    split; [|split; [lia|]].
    + now rewrite advances_add.
    + intros fuel. rewrite <- Nat.add_assoc, Hl1, Hl2.
      now destruct chunks.
Qed.

(** X15: inside an open triple-quoted string, with STRING_CONTENT
    acceptable and STRING_START not, any non-empty sequence of ordinary
    code points (line terminators among them), each possibly preceded by
    one or two quotes of the string, is one STRING_CONTENT token up to
    three quotes or the end of the input.  In front of three quotes the
    token ends before them although the cursor has passed two of them;
    the scanner state is unchanged. *)
Theorem triple_content_run s lexer valid_symbols chunks tail :
  valid_symbols STRING_START = false ->
  valid_symbols STRING_CONTENT = true ->
  delimiters s <> [] ->
  let d := array_back (delimiters s) in
  let q := delim_quote_char d in
  delim_is_triple d = true ->
  q <> 0 ->
  chunks <> [] ->
  Forall (fun chunk =>
            triple_chunk q (delim_is_raw d) (delim_is_format d) chunk = true)
    chunks ->
  input lexer = concat chunks ++ tail ->
  let n := length (concat chunks) in
  ((exists rest, tail = q :: q :: q :: rest) ->
   scan_string s lexer valid_symbols
   = Some (true, s,
           set_result_symbol (advances 2 (mark_end (advances n lexer)))
             STRING_CONTENT))
  /\ (head_code tail = 0 ->
      scan_string s lexer valid_symbols
      = Some (true, s,
              set_result_symbol (mark_end (advances n lexer))
                STRING_CONTENT))
  /\ token_end (mark_end (advances n lexer))
     = Some (position lexer + Z.of_nat n).
Proof.
  intros Hv1 Hv2 Hne d q Htr Hq Hch Hall Hin n.
  destruct (triple_chunks_run q (delim_is_raw d) (delim_is_format d) chunks
              tail lexer lexer false Hq Hall (same_cursor_refl lexer) Hin)
    as (L & k & Hsame & Hk & Hloop).
  fold n in Hsame, Hk.
  replace (match chunks with [] => false | _ :: _ => true end) with true
    in Hloop by (destruct chunks; congruence).
  destruct (advances_run (concat chunks) tail lexer Hin) as (Hin' & Hp' & _).
  fold n in Hin', Hp'.
  assert (input L = tail) as HinL
    by (destruct Hsame as (-> & _); exact Hin').
  assert (scan_string s lexer valid_symbols
          = (e <- loop (fuel_of lexer - k)
                    (content_step q true (delim_is_raw d) (delim_is_format d))
                    (L, true) ;;
             match e with
             | Return b lexer => Some (b, s, lexer)
             | Break lexer has_content =>
                 if has_content
                 then Some (true, s,
                            set_result_symbol (mark_end lexer) STRING_CONTENT)
                 else Some (scan_string_end s lexer valid_symbols)
             end)) as Hscan.
  { unfold scan_string, scan_string_start. rewrite Hv1. cbn [bind].
    unfold scan_string_content.
    rewrite Hv2, (array_size_nonempty _ Hne). cbn [andb]. cbv zeta.
    fold d. fold q. rewrite Htr.
    replace (fuel_of lexer) with (k + (fuel_of lexer - k))%nat at 1
      by (unfold fuel_of; rewrite Hin, length_app; fold n; lia).
    rewrite Hloop.
    destruct (loop (fuel_of lexer - k) _ (L, true)) as [[l hc|b l]|];
      cbn [bind]; trivial.
    destruct hc; reflexivity. }
  assert (fuel_of lexer - k = S (length tail + (n - k)))%nat as Hfuel
    by (unfold fuel_of; rewrite Hin, length_app; fold n; lia).
  rewrite Hscan, Hfuel, loop_unfold.
  split; [|split].
  - intros (rest & ->).
    rewrite (content_step_quotes q _ _ L true rest Hq HinL). cbn [bind].
    now rewrite (same_cursor_mark_end_eq _ _ Hsame).
  - intros H0. unfold content_step.
    rewrite lookahead_head_code, HinL, H0. cbn [bind Z.eqb].
    now rewrite (same_cursor_mark_end_eq _ _ Hsame).
  - cbn [token_end mark_end]. now rewrite Hp'.
Qed.

Lemma triple_content_run_witness :
  scan_string (mkScanner [] [295] false)
    (lexer_start (codes "a'b" ++ chr "010" :: codes "''c'''x"))
    (accepts [STRING_CONTENT; ESCAPE_INTERPOLATION; STRING_END])
  = Some (true, mkScanner [] [295] false,
          mkLexer (codes "'x") 9 0 (Some 7) STRING_CONTENT).
Proof.
  assert (delimiters (mkScanner [] [295] false) <> []) as Hne
    by discriminate.
  pose proof (triple_content_run (mkScanner [] [295] false)
                (lexer_start (codes "a'b" ++ chr "010" :: codes "''c'''x"))
                (accepts [STRING_CONTENT; ESCAPE_INTERPOLATION; STRING_END])
                [codes "a"; codes "'b"; [chr "010"]; codes "''c"]
                (codes "'''x") eq_refl eq_refl Hne) as H.
  cbv zeta in H.
  destruct H as (H & _).
  - reflexivity.
  - discriminate.
  - discriminate.
  - repeat constructor.
  - reflexivity.
  - apply H. exists (codes "x"). reflexivity.
Defined.

Lemma closed_opened s d f :
  inside_f_string s = top_format_flag s ->
  closed (mkScanner (indents s) (array_push (delimiters s) d) f) = s.
Proof.
  intros Hflag. unfold closed, top_format_flag, array_pop, array_push.
  cbn [indents delimiters set_delimiters]. rewrite removelast_last.
  unfold top_format_flag in Hflag. rewrite <- Hflag. apply scanner_eta.
Qed.

Lemma plain_not_quote q is_raw is_format c :
  plain q is_raw is_format c = true -> c <> q.
Proof.
  unfold plain. intros H.
  repeat (apply andb_prop in H; destruct H as [H ?]).
  match goal with E : negb (c =? q) = true |- _ =>
    apply negb_true_iff, Z.eqb_neq in E; exact E end.
Qed.

Lemma quote_small q : q = chr "034" \/ q = chr "'" -> 0 <= q < 256.
Proof. intros [-> | ->]; split; (discriminate || reflexivity). Qed.

(** The descriptor of a string opened by one of the two quotes. *)
Lemma delimiter_fields_single q is_raw is_format :
  q = chr "034" \/ q = chr "'" ->
  delim_quote_char (make_delimiter q false is_raw is_format) = q
  /\ delim_is_triple (make_delimiter q false is_raw is_format) = false
  /\ delim_is_raw (make_delimiter q false is_raw is_format) = is_raw
  /\ delim_is_format (make_delimiter q false is_raw is_format) = is_format.
Proof.
  intros [-> | ->]; destruct is_raw, is_format; repeat split; reflexivity.
Qed.

(** The first two calls on a literal: STRING_START over the prefix
    letters and the quote, STRING_CONTENT over a run of ordinary code
    points, with the delimiter open behind them. *)
Lemma string_literal_opening s v1 v2 letters q body tail :
  v1 STRING_START = true ->
  v2 STRING_START = false ->
  v2 STRING_CONTENT = true ->
  Forall (fun c => is_prefix_letter c = true) letters ->
  q = chr "034" \/ q = chr "'" ->
  body <> [] ->
  Forall (fun c =>
            plain q (has_raw letters) (has_format letters) c = true) body ->
  (head_code tail =? 0) || (head_code tail =? q)
  || is_newline (head_code tail) = true ->
  let s1 :=
    mkScanner (indents s)
      (array_push (delimiters s)
         (make_delimiter q false (has_raw letters) (has_format letters)))
      (has_format letters) in
  forall vs,
    scan_sequence (v1 :: v2 :: vs) s (letters ++ q :: body ++ tail)
    = ('(toks, s'', rest) <- scan_sequence vs s1 tail ;;
       Some ((STRING_START, letters ++ [q]) :: (STRING_CONTENT, body) :: toks,
             s'', rest)).
Proof.
  intros Hv1 Hv2s Hv2c Hl Hq Hne Hplain Hstop s1 vs.
  set (cs := letters ++ q :: body ++ tail).
  assert (head_code (body ++ tail) <> q) as Hhd.
  { destruct body as [|c body]; [congruence|].
    inversion Hplain; subst. cbn. eapply plain_not_quote; eassumption. }
  (* the first call *)
  destruct (string_start_single s (lexer_start cs) v1 letters q
              (body ++ tail) Hv1 Hl Hq eq_refl Hhd) as [Hs1 Hp1].
  assert (eof (lexer_start cs) = false) as He1
    by (unfold cs; now destruct letters).
  rewrite (scan_sequence_cons v1 _ s cs _ _
             (scan_of_scan_string _ _ _ _ _ He1
                ltac:(now rewrite Hv1) Hs1)).
  assert (cs = (letters ++ [q]) ++ body ++ tail) as Hcs
    by (unfold cs; now rewrite <- app_assoc).
  destruct (token_of_run_eq cs (letters ++ [q]) (body ++ tail)
              (set_result_symbol
                 (mark_end (advances (length letters + 1) (lexer_start cs)))
                 STRING_START) Hcs) as [Ht1 Hr1].
  { cbn. apply advances_token_start. }
  { cbn [token_end set_result_symbol mark_end]. rewrite Hp1.
    rewrite length_app. cbn. f_equal. lia. }
  rewrite Ht1, Hr1. clear Ht1 Hr1.
  cbn [result_symbol set_result_symbol].
  (* the second call *)
  destruct (delimiter_fields_single q (has_raw letters)
              (has_format letters) Hq)
    as (Hdq & Hdt & Hdr & Hdf).
  assert (array_back (delimiters s1)
          = make_delimiter q false (has_raw letters) (has_format letters))
    as Hback by apply array_back_push.
  assert (delimiters s1 <> []) as Hne1
    by (cbn; unfold array_push; now destruct (delimiters s)).
  assert (scan_string s1 (lexer_start (body ++ tail)) v2
          = Some (true, s1,
                  set_result_symbol
                    (mark_end
                       (advances (length body) (lexer_start (body ++ tail))))
                    STRING_CONTENT)) as Hs2.
  { apply (scan_string_content_run s1 _ v2 body tail); trivial;
      rewrite Hback, ?Hdq, ?Hdr, ?Hdf; assumption. }
  destruct (advances_run body tail (lexer_start (body ++ tail)) eq_refl)
    as (_ & Hp2 & _).
  assert (eof (lexer_start (body ++ tail)) = false) as He2
    by (destruct body; [congruence|reflexivity]).
  rewrite (scan_sequence_cons v2 _ s1 (body ++ tail) _ _
             (scan_of_scan_string _ _ _ _ _ He2
                ltac:(now rewrite Hv2c, orb_true_r) Hs2)).
  destruct (token_of_run body tail
              (set_result_symbol
                 (mark_end (advances (length body) (lexer_start (body ++ tail))))
                 STRING_CONTENT)) as [Ht2 Hr2].
  { cbn. apply advances_token_start. }
  { cbn [token_end set_result_symbol mark_end]. rewrite Hp2.
    cbn. reflexivity. }
  rewrite Ht2, Hr2. cbn [result_symbol set_result_symbol].
  destruct (scan_sequence vs s1 tail) as [[[toks s''] rest]|]; reflexivity.
Qed.

(** X16: a string literal that is not triple-quoted (any prefix letters,
    a quote, a non-empty run of ordinary code points, the same quote) is
    tokenised by three successive calls into STRING_START over the
    letters and the opening quote, STRING_CONTENT over the run and
    STRING_END over the closing quote; afterwards the scanner state is
    the one before the literal, provided its flag agreed with its
    delimiter stack, and the input behind the literal is left. *)
Theorem string_literal_tokens s v1 v2 v3 letters q body rest :
  v1 STRING_START = true ->
  v2 STRING_START = false ->
  v2 STRING_CONTENT = true ->
  v3 STRING_START = false ->
  v3 STRING_END = true ->
  inside_f_string s = top_format_flag s ->
  Forall (fun c => is_prefix_letter c = true) letters ->
  q = chr "034" \/ q = chr "'" ->
  body <> [] ->
  Forall (fun c =>
            plain q (has_raw letters) (has_format letters) c = true) body ->
  scan_sequence [v1; v2; v3] s (letters ++ q :: body ++ q :: rest)
  = Some ([(STRING_START, letters ++ [q]); (STRING_CONTENT, body);
           (STRING_END, [q])],
          s, rest).
Proof.
  intros Hv1 Hv2s Hv2c Hv3s Hv3e Hflag Hl Hq Hne Hplain.
  rewrite (string_literal_opening s v1 v2 letters q body (q :: rest)
             Hv1 Hv2s Hv2c Hl Hq Hne Hplain)
    by (cbn; now rewrite Z.eqb_refl, orb_true_r).
  set (d := make_delimiter q false (has_raw letters) (has_format letters)).
  set (s1 := mkScanner (indents s) (array_push (delimiters s) d)
               (has_format letters)).
  destruct (delimiter_fields_single q (has_raw letters)
              (has_format letters) Hq)
    as (Hdq & Hdt & _).
  fold d in Hdq, Hdt.
  assert (array_back (delimiters s1) = d) as Hback by apply array_back_push.
  assert (delimiters s1 <> []) as Hne1
    by (cbn; unfold array_push; now destruct (delimiters s)).
  assert (scan_string s1 (lexer_start (q :: rest)) v3
          = Some (true, closed s1,
                  set_result_symbol
                    (mark_end (advance (lexer_start (q :: rest))))
                    STRING_END)) as Hs3.
  { apply (scan_string_close_single s1 _ v3 rest); trivial.
    - now rewrite Hback.
    - now rewrite Hback, Hdq. }
  assert (tree_sitter_codon_external_scanner_scan s1
            (lexer_start (q :: rest)) v3
          = Some (true, closed s1,
                  set_result_symbol
                    (mark_end (advance (lexer_start (q :: rest))))
                    STRING_END)) as Hscan.
  { apply scan_of_scan_string; trivial.
    now rewrite Hv3e, orb_true_r. }
  pose proof (scan_sequence_cons v3 [] s1 (q :: rest) _ _ Hscan) as Hseq.
  unfold valid_set in Hseq. rewrite Hseq. clear Hseq.
  unfold s1. rewrite (closed_opened s d _ Hflag).
  reflexivity.
Qed.

Lemma string_literal_tokens_witness :
  let content :=
    accepts [STRING_CONTENT; ESCAPE_INTERPOLATION; STRING_END] in
  scan_sequence [accepts [STRING_START]; content; content]
    (mkScanner [4] [] false) (codes "rb'a\b{c}' + x")
  = Some ([(STRING_START, codes "rb'"); (STRING_CONTENT, codes "a\b{c}");
           (STRING_END, codes "'")],
          mkScanner [4] [] false, codes " + x").
Proof.
  apply (string_literal_tokens (mkScanner [4] [] false)
           (accepts [STRING_START])
           (accepts [STRING_CONTENT; ESCAPE_INTERPOLATION; STRING_END])
           (accepts [STRING_CONTENT; ESCAPE_INTERPOLATION; STRING_END])
           (codes "rb") (chr "'") (codes "a\b{c}") (codes " + x"));
    try reflexivity.
  - repeat constructor.
  - right; reflexivity.
  - discriminate.
  - repeat constructor.
Defined.

(** X17: a string that is not triple-quoted and meets a line terminator
    in front of any closing quote is left unterminated.  STRING_START and
    STRING_CONTENT are reported as usual, the content ending in front of
    the line terminator; the next call, if it accepts string kinds only,
    reports no match, and the delimiter stays open. *)
Theorem string_unterminated s v1 v2 v3 letters q body nl rest :
  v1 STRING_START = true ->
  v2 STRING_START = false ->
  v2 STRING_CONTENT = true ->
  v3 STRING_START = false ->
  v3 NEWLINE = false -> v3 INDENT = false -> v3 DEDENT = false ->
  Forall (fun c => is_prefix_letter c = true) letters ->
  q = chr "034" \/ q = chr "'" ->
  body <> [] ->
  Forall (fun c =>
            plain q (has_raw letters) (has_format letters) c = true) body ->
  is_newline nl = true ->
  scan_sequence [v1; v2; v3] s (letters ++ q :: body ++ nl :: rest)
  = Some ([(STRING_START, letters ++ [q]); (STRING_CONTENT, body)],
          mkScanner (indents s)
            (array_push (delimiters s)
               (make_delimiter q false (has_raw letters)
                  (has_format letters)))
            (has_format letters),
          nl :: rest).
Proof.
  intros Hv1 Hv2s Hv2c Hv3s Hv3n Hv3i Hv3d Hl Hq Hne Hplain Hnl.
  rewrite (string_literal_opening s v1 v2 letters q body (nl :: rest)
             Hv1 Hv2s Hv2c Hl Hq Hne Hplain)
    by (cbn [head_code]; now rewrite Hnl, orb_true_r).
  set (d := make_delimiter q false (has_raw letters) (has_format letters)).
  set (s1 := mkScanner (indents s) (array_push (delimiters s) d)
               (has_format letters)).
  destruct (delimiter_fields_single q (has_raw letters)
              (has_format letters) Hq)
    as (Hdq & Hdt & _).
  fold d in Hdq, Hdt.
  assert (array_back (delimiters s1) = d) as Hback by apply array_back_push.
  assert (nl <> q) as Hnq.
  { intros ->. destruct Hq as [-> | ->]; discriminate. }
  assert (scan_string s1 (lexer_start (nl :: rest)) v3
          = Some (false, s1, lexer_start (nl :: rest))) as Hs3.
  { unfold scan_string, scan_string_start. rewrite Hv3s. cbn [bind].
    assert (scan_string_content s1 (lexer_start (nl :: rest)) v3
            = Some (Fallthrough (lexer_start (nl :: rest)))) as ->.
    { unfold scan_string_content.
      destruct (v3 STRING_CONTENT && _); [|reflexivity].
      cbv zeta. rewrite Hback, Hdt. unfold fuel_of.
      rewrite loop_unfold, content_step_stop; [reflexivity|].
      cbn [lookahead lexer_start input]. now rewrite Hnl, orb_true_r. }
    cbn [bind]. unfold scan_string_end.
    destruct (v3 STRING_END && _); [|reflexivity].
    cbv zeta. rewrite Hback, Hdq. cbn [lookahead lexer_start input].
    apply Z.eqb_neq in Hnq. now rewrite Hnq. }
  assert (tree_sitter_codon_external_scanner_scan s1
            (lexer_start (nl :: rest)) v3
          = Some (false, s1, lexer_start (nl :: rest))) as Hscan.
  { unfold tree_sitter_codon_external_scanner_scan.
    rewrite Hv3d, Hv3n, Hv3i. cbn [andb orb].
    destruct (_ || _); [rewrite Hs3|]; reflexivity. }
  pose proof (scan_sequence_stop v3 [] s1 _ _ _ Hscan) as Hseq.
  unfold valid_set in Hseq. rewrite Hseq. reflexivity.
Qed.

Lemma string_unterminated_witness :
  let content :=
    accepts [STRING_CONTENT; ESCAPE_INTERPOLATION; STRING_END] in
  scan_sequence [accepts [STRING_START]; content; content]
    tree_sitter_codon_external_scanner_create
    (codes "'ab" ++ chr "010" :: codes "c'")
  = Some ([(STRING_START, codes "'"); (STRING_CONTENT, codes "ab")],
          mkScanner [] [chr "'"] false, chr "010" :: codes "c'").
Proof.
  apply (string_unterminated tree_sitter_codon_external_scanner_create
           (accepts [STRING_START])
           (accepts [STRING_CONTENT; ESCAPE_INTERPOLATION; STRING_END])
           (accepts [STRING_CONTENT; ESCAPE_INTERPOLATION; STRING_END])
           [] (chr "'") (codes "ab") (chr "010") (codes "c'"));
    try reflexivity.
  - constructor.
  - right; reflexivity.
  - discriminate.
  - repeat constructor.
Defined.

(** ** The end of input *)

Lemma eof_input lexer : eof lexer = true -> input lexer = [].
Proof. unfold eof. now destruct (input lexer). Qed.

Lemma scan_newline_eof scanner lexer valid_symbols :
  eof lexer = true ->
  scan_newline scanner lexer valid_symbols = Some (false, scanner, lexer).
Proof.
  intros He. apply eof_input in He.
  destruct lexer as [inp pos ts te rs]. cbn in He. subst inp.
  reflexivity.
Qed.

Lemma scan_string_start_eof scanner lexer valid_symbols :
  eof lexer = true ->
  scan_string_start scanner lexer valid_symbols = Some (Fallthrough lexer).
Proof.
  intros He. apply eof_input in He.
  destruct lexer as [inp pos ts te rs]. cbn in He. subst inp.
  unfold scan_string_start.
  destruct (valid_symbols STRING_START); reflexivity.
Qed.

Lemma scan_string_content_eof scanner lexer valid_symbols :
  eof lexer = true ->
  scan_string_content scanner lexer valid_symbols = Some (Fallthrough lexer).
Proof.
  intros He. apply eof_input in He.
  destruct lexer as [inp pos ts te rs]. cbn in He. subst inp.
  unfold scan_string_content.
  destruct (valid_symbols STRING_CONTENT && _); reflexivity.
Qed.

Lemma scan_string_end_eof scanner lexer valid_symbols :
  eof lexer = true ->
  (valid_symbols STRING_END = true -> delimiters scanner <> [] ->
   delim_quote_char (array_back (delimiters scanner)) <> 0) ->
  scan_string_end scanner lexer valid_symbols = (false, scanner, lexer).
Proof.
  intros He Hq. apply eof_input in He.
  unfold scan_string_end.
  destruct (valid_symbols STRING_END) eqn:Ev; cbn [andb]; trivial.
  destruct (array_size (delimiters scanner) >? 0) eqn:En; trivial.
  cbv zeta. unfold lookahead at 1. rewrite He.
  assert (delimiters scanner <> []) as Hne
    by (intros E; rewrite E in En; discriminate).
  specialize (Hq eq_refl Hne).
  destruct (0 =? delim_quote_char (array_back (delimiters scanner)))
    eqn:E0; [apply Z.eqb_eq in E0; congruence | reflexivity].
Qed.

Lemma scan_string_eof scanner lexer valid_symbols :
  eof lexer = true ->
  (valid_symbols STRING_END = true -> delimiters scanner <> [] ->
   delim_quote_char (array_back (delimiters scanner)) <> 0) ->
  scan_string scanner lexer valid_symbols = Some (false, scanner, lexer).
Proof.
  intros He Hq. unfold scan_string.
  rewrite (scan_string_start_eof _ _ _ He). cbn [bind].
  rewrite (scan_string_content_eof _ _ _ He). cbn [bind].
  now rewrite (scan_string_end_eof _ _ _ He Hq).
Qed.

(** X18: at the end of input a call either pops one indent level and
    reports DEDENT (DEDENT acceptable, indent stack not empty) or reports
    no match with scanner and lexer as they were; no other kind is ever
    reported there.  This holds for every state reached from the initial
    one, and more generally whenever the quote byte of the innermost open
    delimiter is not 0 (a state restored from a foreign buffer can have
    one that is). *)
Theorem scan_at_end_of_input scanner lexer valid_symbols :
  eof lexer = true ->
  reachable scanner
  \/ (valid_symbols STRING_END = true -> delimiters scanner <> [] ->
      delim_quote_char (array_back (delimiters scanner)) <> 0) ->
  tree_sitter_codon_external_scanner_scan scanner lexer valid_symbols
  = Some (if valid_symbols DEDENT && (array_size (indents scanner) >? 0)
          then (true, set_indents scanner (array_pop (indents scanner)),
                set_result_symbol lexer DEDENT)
          else (false, scanner, lexer)).
Proof.
  intros He Hq.
  assert (valid_symbols STRING_END = true -> delimiters scanner <> [] ->
          delim_quote_char (array_back (delimiters scanner)) <> 0) as Hq'.
  { destruct Hq as [Hr|Hq]; trivial. intros _ Hne.
    assert (quote_ok (array_back (delimiters scanner))) as Hok
      by (apply Forall_array_back; trivial; now apply reachable_quote_ok).
    destruct Hok as [-> | ->]; discriminate. }
  unfold tree_sitter_codon_external_scanner_scan.
  rewrite He, andb_true_r.
  destruct (valid_symbols DEDENT && (array_size (indents scanner) >? 0));
    [reflexivity|].
  rewrite (scan_string_eof _ _ _ He Hq').
  destruct (_ || _); cbn [bind]; rewrite (scan_newline_eof _ _ _ He);
    destruct (_ || _); reflexivity.
Qed.

Lemma scan_at_end_of_input_witness :
  let open := mkScanner [] [chr "'"] false in
  let all := accepts [NEWLINE; INDENT; DEDENT; STRING_START; STRING_CONTENT;
                      ESCAPE_INTERPOLATION; STRING_END] in
  tree_sitter_codon_external_scanner_scan open (lexer_start []) all
  = Some (false, open, lexer_start [])
  /\ tree_sitter_codon_external_scanner_scan
       (mkScanner [4] [chr "'"] false) (lexer_start []) all
     = Some (true, open, set_result_symbol (lexer_start []) DEDENT).
Proof.
  split.
  - refine (scan_at_end_of_input (mkScanner [] [chr "'"] false)
              (lexer_start [])
              (accepts [NEWLINE; INDENT; DEDENT; STRING_START;
                        STRING_CONTENT; ESCAPE_INTERPOLATION; STRING_END])
              eq_refl _).
    right. intros _ _. discriminate.
  - refine (scan_at_end_of_input (mkScanner [4] [chr "'"] false)
              (lexer_start [])
              (accepts [NEWLINE; INDENT; DEDENT; STRING_START;
                        STRING_CONTENT; ESCAPE_INTERPOLATION; STRING_END])
              eq_refl _).
    right. intros _ _. discriminate.
Defined.
